(** * KanDo: the metadata update serializer and the status poller

    A shallow embedding of the two classes that make up the
    state-reconciliation core of the plugin:

    - [FrontmatterManager] (per-file promise chain in front of the host's
      [processFrontMatter]);
    - [VKStatusPoller] (timer driven polling of the task service, change
      and deletion detection, backoff, bounded tracking).

    Both classes are asynchronous.  Each is embedded as a machine whose
    events are the points where the JavaScript run-time hands control to
    the class: a method call, a promise reaction, the settlement of a host
    call, a timer that fires.  Between two such points the code runs to
    its next [await] without interruption, which is what one transition of
    the machine does. *)

From Stdlib Require Import Ascii String ZArith Lia.
From stdpp Require Import gmap strings list fin_maps pretty.

Open Scope string_scope.
Open Scope list_scope.
Open Scope nat_scope.

(** ** [Map<string, string>]

    A JavaScript [Map] iterates in insertion order; [set] on a key that is
    present keeps the key's place, [delete] removes the entry.  The poller
    relies on that order when it evicts, so the map is an association list
    with one entry per key. *)
Module JsMap.

Abbreviation t := (list (string * string)).

Fixpoint get (k : string) (m : t) : option string :=
  match m with
  | [] => None
  | (k', v) :: rest => if decide (k' = k) then Some v else get k rest
  end.

Fixpoint set (k v : string) (m : t) : t :=
  match m with
  | [] => [(k, v)]
  | (k', v') :: rest =>
      if decide (k' = k) then (k', v) :: rest else (k', v') :: set k v rest
  end.

Fixpoint delete (k : string) (m : t) : t :=
  match m with
  | [] => []
  | (k', v') :: rest =>
      if decide (k' = k) then delete k rest else (k', v') :: delete k rest
  end.

Definition keys (m : t) : list string := m.*1.

Definition size (m : t) : nat := length m.

Definition clear (m : t) : t := [].

End JsMap.

(** ** [Set<string>] that is iterated while it changes

    [poll] walks [this.projectIds] with [for ... of] and awaits inside the
    loop, so the set can change under the iterator.  ECMAScript keeps the
    elements of a Set in a list in which a removed element leaves an empty
    slot, and an iterator is an index into that list; this is that
    representation. *)
Module JsSet.

Abbreviation t := (list (option string)).

Definition has (x : string) (s : t) : bool := bool_decide (Some x ∈ s).

Definition add (x : string) (s : t) : t := if has x s then s else s ++ [Some x].

Definition clear (s : t) : t := (λ _, None) <$> s.

(** The elements in insertion order. *)
Definition elements (s : t) : list string := omap (λ slot, slot) s.

Definition size (s : t) : nat := length (elements s).

Definition of_list (xs : list string) : t := foldl (λ s x, add x s) [] xs.

(** The elements an iterator standing at index [pos] has yet to visit. *)
Fixpoint scan (s : t) (pos : nat) : option (string * nat) :=
  match s with
  | [] => None
  | Some x :: _ => Some (x, S pos)
  | None :: rest => scan rest (S pos)
  end.

Definition next (s : t) (pos : nat) : option (string * nat) := scan (drop pos s) pos.

End JsSet.

(** ** Strings as a regular expression and [trim] see them

    A JavaScript string is a sequence of UTF-16 code units. *)
Module JsString.

Abbreviation t := (list N).

Definition LF : N := 10.
Definition CR : N := 13.
Definition hyphen : N := 45.

(** The code units of a literal of the source, which is ASCII. *)
Definition units (s : string) : t := N_of_ascii <$> list_ascii_of_string s.

(** WhiteSpace and LineTerminator of ECMAScript, the code units that
    [trim] strips: TAB, LF, VT, FF, CR, SP, NBSP, U+1680, U+2000 to U+200A,
    U+2028, U+2029, U+202F, U+205F, U+3000 and U+FEFF. *)
Definition isWhiteSpace (c : N) : bool :=
  bool_decide (c ∈ [9; 10; 11; 12; 13; 32; 160; 5760; 8232; 8233; 8239; 8287;
                    12288; 65279]%N)
  || ((8192 <=? c) && (c <=? 8202))%N.

Fixpoint trimStart (s : t) : t :=
  match s with
  | c :: rest => if isWhiteSpace c then trimStart rest else s
  | [] => []
  end.

Definition trimEnd (s : t) : t := reverse (trimStart (reverse s)).

(** [s.trim()] *)
Definition trim (s : t) : t := trimEnd (trimStart s).

(** [s] begins with [prefix]: what comes after it. *)
Fixpoint stripPrefix (prefix s : t) : option t :=
  match prefix, s with
  | [], _ => Some s
  | c :: prefix', d :: s' => if decide (c = d) then stripPrefix prefix' s' else None
  | _ :: _, [] => None
  end.

End JsString.

(** ** FrontmatterManager *)
Module FrontmatterManager.

(** The frontmatter of a note is a JavaScript object used as a map from
    field names to values; [Partial<VKFrontmatter>] is the list of its own
    entries as [Object.entries] yields them, [None] standing for a field
    that is present with value [undefined]. *)
Abbreviation frontmatter := (gmap string string).
Abbreviation fields := (list (string * option string)).

(** The body of the loop in the callback given to [processFrontMatter]:
    [if (value !== undefined) frontmatter[key] = value]. *)
Definition assign (fm : frontmatter) (entry : string * option string) : frontmatter :=
  match entry.2 with
  | Some value => <[entry.1 := value]> fm
  | None => fm
  end.

(** The whole callback: [for (const [key, value] of Object.entries(updates))]. *)
Definition mergeUpdates (updates : fields) (fm : frontmatter) : frontmatter :=
  foldl assign fm updates.

Inductive outcome :=
  | Fulfilled
  | Rejected (reason : string).

(** What one call of [update] has created and how far it has come:
    - [Queued]: [existingQueue.then(...)] is registered, the callback has
      not run;
    - [Writing fm]: the callback runs, [processFrontMatter] is in flight
      and has read [fm];
    - [Settling o]: the promise of [then] has settled with [o], the
      [finally] callback has not run yet;
    - [Settled o]: [updatePromise] (the promise after [finally]) has
      settled with [o]; this is what the caller's [await] sees. *)
Inductive phase :=
  | Queued
  | Writing (snapshot : frontmatter)
  | Settling (o : outcome)
  | Settled (o : outcome).

(** [l_pred] is [existingQueue]: the [updatePromise] of an earlier call,
    or [None] for the fresh [Promise.resolve()]. *)
Record link := Link {
  l_path : string;
  l_updates : fields;
  l_pred : option nat;
  l_phase : phase;
}.

(** The manager, the promises it has created (a promise is named by its
    index) and the notes of the vault. *)
Record manager := Manager {
  promises : list link;
  updateQueues : gmap string nat;
  vault : gmap string frontmatter;
}.

Definition create (notes : gmap string frontmatter) : manager := Manager [] ∅ notes.

(** A note without a header has the empty object as frontmatter. *)
Definition frontmatterOf (m : manager) (path : string) : frontmatter :=
  default ∅ (vault m !! path).

Definition setPhase (ph : phase) (l : link) : link :=
  Link (l_path l) (l_updates l) (l_pred l) ph.

Definition with_phase (k : nat) (ph : phase) (m : manager) : manager :=
  Manager (alter (setPhase ph) k (promises m)) (updateQueues m) (vault m).

Definition save (path : string) (fm : frontmatter) (m : manager) : manager :=
  Manager (promises m) (updateQueues m) (<[path := fm]> (vault m)).

(** [update(file, updates)] up to its [await]: look the queue up, chain
    the new promise behind it, store the new promise as the queue. *)
Definition update (filePath : string) (updates : fields) (m : manager) : manager :=
  let existingQueue := updateQueues m !! filePath in
  let updatePromise := length (promises m) in
  Manager (promises m ++ [Link filePath updates existingQueue Queued])
          (<[filePath := updatePromise]> (updateQueues m))
          (vault m).

(** The state of [existingQueue] as [then] sees it. *)
Definition existingQueueState (m : manager) (l : link) : option outcome :=
  match l_pred l with
  | None => Some Fulfilled
  | Some i =>
      match promises m !! i with
      | Some li => match l_phase li with Settled o => Some o | _ => None end
      | None => None
      end
  end.

(** The reaction registered by [existingQueue.then(callback)], with no
    rejection handler: a fulfilled queue runs the callback, which calls
    [processFrontMatter]; a rejected queue rejects the new promise with the
    same reason and the callback does not run. *)
Definition thenReaction (k : nat) (m : manager) : manager :=
  match promises m !! k with
  | Some l =>
      match l_phase l with
      | Queued =>
          match existingQueueState m l with
          | Some Fulfilled => with_phase k (Writing (frontmatterOf m (l_path l))) m
          | Some (Rejected e) => with_phase k (Settling (Rejected e)) m
          | None => m
          end
      | _ => m
      end
  | None => m
  end.

(** [processFrontMatter] of call [k] settles.  It belongs to the host
    application; it is taken here as a read-modify-write without locking:
    the header read when the call was made is passed through the callback
    and saved, or the call fails and nothing is saved. *)
Definition processFrontMatterSettles (k : nat) (failure : option string) (m : manager) : manager :=
  match promises m !! k with
  | Some l =>
      match l_phase l with
      | Writing snapshot =>
          match failure with
          | None =>
              with_phase k (Settling Fulfilled)
                (save (l_path l) (mergeUpdates (l_updates l) snapshot) m)
          | Some e => with_phase k (Settling (Rejected e)) m
          end
      | _ => m
      end
  | None => m
  end.

(** The [finally] callback of call [k]:
    [if (this.updateQueues.get(filePath) === updatePromise) delete], after
    which [updatePromise] settles like the promise before it. *)
Definition finallyReaction (k : nat) (m : manager) : manager :=
  match promises m !! k with
  | Some l =>
      match l_phase l with
      | Settling o =>
          with_phase k (Settled o)
            (if decide (updateQueues m !! l_path l = Some k)
             then Manager (promises m) (delete (l_path l) (updateQueues m)) (vault m)
             else m)
      | _ => m
      end
  | None => m
  end.

Inductive event :=
  | CallUpdate (filePath : string) (updates : fields)
  | ThenRuns (k : nat)
  | WriteSettles (k : nat) (failure : option string)
  | FinallyRuns (k : nat).

Definition step (m : manager) (e : event) : manager :=
  match e with
  | CallUpdate filePath updates => update filePath updates m
  | ThenRuns k => thenReaction k m
  | WriteSettles k failure => processFrontMatterSettles k failure m
  | FinallyRuns k => finallyReaction k m
  end.

Definition run (es : list event) (m : manager) : manager := foldl step m es.

(** What the caller of the [k]-th [update] gets from its [await]. *)
Definition awaited (m : manager) (k : nat) : option outcome :=
  match promises m !! k with
  | Some l => match l_phase l with Settled o => Some o | _ => None end
  | None => None
  end.

Definition isWriting (l : link) : bool :=
  match l_phase l with Writing _ => true | _ => false end.

Definition isSettled (l : link) : bool :=
  match l_phase l with Settled _ => true | _ => false end.

(** The call has had its merge saved. *)
Definition hasWritten (l : link) : bool :=
  match l_phase l with
  | Settling Fulfilled | Settled Fulfilled => true
  | _ => false
  end.

(** The merges saved so far for one note, in the order of the calls. *)
Definition writtenOn (path : string) (ls : list link) : list fields :=
  omap (λ l, if bool_decide (l_path l = path) && hasWritten l then Some (l_updates l) else None) ls.


(** The calls of [update] among the events, in order: path and fields. *)
Definition callsOf (es : list event) : list (string * fields) :=
  omap (λ e, match e with CallUpdate path updates => Some (path, updates) | _ => None end) es.

Definition callOf (l : link) : string * fields := (l_path l, l_updates l).

(** No event of the list is a call of [update] for the note. *)
Definition noCallFor (path : string) (es : list event) : bool :=
  forallb (λ e, match e with
                | CallUpdate p _ => negb (bool_decide (p = path))
                | _ => true
                end) es.

(** The notes as they are when every merge saved so far is applied, in the
    order of the calls, to the notes the manager started with. *)
Definition replay (notes : gmap string frontmatter) (path : string) (ls : list link) : frontmatter :=
  foldl (λ fm updates, mergeUpdates updates fm) (default ∅ (notes !! path)) (writtenOn path ls).

(** What holds of the promises and the queue whatever the order in which
    the run-time delivers calls, reactions and settlements:
    - a queue entry names the last call made for its path, and that call
      has not settled;
    - a path without a queue entry has no unsettled call;
    - the promise a call was chained behind is the call made for the same
      path just before it, and a call chained behind [Promise.resolve()]
      was made when no call for its path was unsettled;
    - a call that has left the queue finds every earlier call for its
      path settled. *)
Record ordered (m : manager) : Prop := Ordered {
  queue_tail : ∀ (path : string) (k : nat), updateQueues m !! path = Some k →
    ∃ l, promises m !! k = Some l ∧ l_path l = path ∧ isSettled l = false ∧
         ∀ (j : nat) lj, promises m !! j = Some lj → l_path lj = path → j ≤ k;
  queue_idle : ∀ path : string, updateQueues m !! path = None →
    ∀ (j : nat) lj, promises m !! j = Some lj → l_path lj = path → isSettled lj = true;
  chained : ∀ (j : nat) lj, promises m !! j = Some lj →
    match l_pred lj with
    | Some i => i < j ∧ ∃ li, promises m !! i = Some li ∧ l_path li = l_path lj ∧
                  ∀ (n : nat) ln, i < n < j → promises m !! n = Some ln → l_path ln ≠ l_path lj
    | None => ∀ (n : nat) ln, n < j → promises m !! n = Some ln → l_path ln = l_path lj →
                  isSettled ln = true
    end;
  in_turn : ∀ (i j : nat) li lj, i < j → promises m !! i = Some li → promises m !! j = Some lj →
    l_path li = l_path lj → l_phase lj ≠ Queued → isSettled li = true;
}.

(** And of the notes: the header a write in flight has read is still the
    header of its note, and every note holds the merges saved so far,
    applied in call order. *)
Record consistent (notes : gmap string frontmatter) (m : manager) : Prop := Consistent {
  is_ordered : ordered m;
  fresh_snapshot : ∀ (j : nat) lj fm, promises m !! j = Some lj → l_phase lj = Writing fm →
    fm = frontmatterOf m (l_path lj);
  replayed : ∀ path : string, frontmatterOf m path = replay notes path (promises m);
}.


(** How a call stands to the promise it was chained behind: it is still
    queued, or that promise fulfilled, or that promise rejected and the
    call is rejected with the same reason without a write of its own. *)
Definition follows (m : manager) : Prop :=
  ∀ (j : nat) lj (i : nat), promises m !! j = Some lj → l_pred lj = Some i →
    l_phase lj = Queued ∨
    awaited m i = Some Fulfilled ∨
    ∃ reason, awaited m i = Some (Rejected reason) ∧
              (l_phase lj = Settling (Rejected reason) ∨
               l_phase lj = Settled (Rejected reason)).

(** *** Runs used to evaluate the model *)

(** The schedule of the failing case: two calls for one note in the same
    turn, the first write rejected by the host, then every reaction that
    is due, and the host ready to accept the second write. *)
Definition firstWriteFails (file : string) (first second : fields) (reason : string)
    : list event :=
  [CallUpdate file first; CallUpdate file second;
   ThenRuns 0; WriteSettles 0 (Some reason); FinallyRuns 0;
   ThenRuns 1; WriteSettles 1 None; FinallyRuns 1].


(** A note and an update that defines one field and leaves one undefined. *)
Definition storyNote : gmap string frontmatter :=
  {[ "story.md" := {[ "title" := "Story"; "vk_status" := "todo" ]} ]}.

Definition statusUpdate : fields := [("vk_status", Some "done"); ("vk_branch", None)].

(** *** The readers and the writers built on [update] *)

(** The fields of [VKFrontmatter]. *)
Definition vkFields : list string :=
  ["title"; "vk_project_name"; "vk_project_id"; "vk_task_id"; "vk_status";
   "vk_last_synced"; "vk_attempt_id"; "vk_branch"; "vk_pr_url"; "vk_executor"].

(** [read]: the ten fields of [cache?.frontmatter || {}], where [cache] is
    what the metadata cache of the host holds for the file; a field the
    header lacks is [undefined]. *)
Definition read (cache : option frontmatter) : frontmatter :=
  filter (λ entry, entry.1 ∈ vkFields) (default ∅ cache).

Definition truthy (s : string) : bool := negb (bool_decide (s = "")).

(** [fm.title || file.basename] *)
Definition getTitle (cache : option frontmatter) (basename : string) : string :=
  match read cache !! "title" with
  | Some title => if truthy title then title else basename
  | None => basename
  end.

(** [!!fm.vk_task_id] *)
Definition isSynced (cache : option frontmatter) : bool :=
  match read cache !! "vk_task_id" with
  | Some taskId => truthy taskId
  | None => false
  end.

(** [fm.vk_status || null] *)
Definition getStatus (cache : option frontmatter) : option string :=
  match read cache !! "vk_status" with
  | Some status => if truthy status then Some status else None
  | None => None
  end.

(** [markSynced] up to its [await]; [status] is [None] when the argument
    is left out, [now] is [new Date().toISOString()]. *)
Definition markSynced (file taskId projectId projectName : string) (status : option string)
    (now : string) (m : manager) : manager :=
  update file
    [("vk_task_id", Some taskId); ("vk_project_name", Some projectName);
     ("vk_project_id", Some projectId); ("vk_status", Some (default "todo" status));
     ("vk_last_synced", Some now)] m.

(** [if (value) updates[key] = value] for an optional argument. *)
Definition optionalField (key : string) (value : option string) : fields :=
  match value with
  | Some v => if truthy v then [(key, Some v)] else []
  | None => []
  end.

(** [updateExecutionStatus] up to its [await]. *)
Definition updateExecutionStatus (file status : string) (attemptId branch : option string)
    (now : string) (m : manager) : manager :=
  update file
    ([("vk_status", Some status); ("vk_last_synced", Some now)]
     ++ optionalField "vk_attempt_id" attemptId ++ optionalField "vk_branch" branch) m.

(** *** [getDescription]

    [/^---\r?\n[\s\S]*?\r?\n---\r?\n*/] is matched at the head of the
    content only.  It is split at its lazy quantifier. *)

(** [^---\r?\n]: what comes after it. *)
Definition openFence (content : JsString.t) : option JsString.t :=
  match JsString.stripPrefix (JsString.units "---" ++ [JsString.CR; JsString.LF]) content with
  | Some rest => Some rest
  | None => JsString.stripPrefix (JsString.units "---" ++ [JsString.LF]) content
  end.

(** [\r?\n---] at the head of [s]: what comes after it. *)
Definition closeFence (s : JsString.t) : option JsString.t :=
  match JsString.stripPrefix ([JsString.CR; JsString.LF] ++ JsString.units "---") s with
  | Some rest => Some rest
  | None => JsString.stripPrefix ([JsString.LF] ++ JsString.units "---") s
  end.

(** [[\s\S]*?\r?\n---]: the lazy quantifier takes as few code units as
    it can, so the fence that closes is the first one. *)
Fixpoint findClose (s : JsString.t) : option JsString.t :=
  match closeFence s, s with
  | Some rest, _ => Some rest
  | None, _ :: s' => findClose s'
  | None, [] => None
  end.

Fixpoint skipLF (s : JsString.t) : JsString.t :=
  match s with
  | c :: rest => if decide (c = JsString.LF) then skipLF rest else s
  | [] => []
  end.

(** [\r?\n*] after the fence; both are greedy and nothing follows them. *)
Definition afterFence (s : JsString.t) : JsString.t :=
  skipLF (match s with
          | c :: rest => if decide (c = JsString.CR) then rest else s
          | [] => []
          end).

(** [content.replace(frontmatterRegex, '')] *)
Definition stripFrontmatter (content : JsString.t) : JsString.t :=
  match openFence content with
  | Some rest =>
      match findClose rest with
      | Some rest' => afterFence rest'
      | None => content
      end
  | None => content
  end.

(** [getDescription], given what [vault.read(file)] returns. *)
Definition getDescription (content : JsString.t) : JsString.t :=
  JsString.trim (stripFrontmatter content).

(** *** Vocabulary of further properties *)

(** Every line feed of [s] is followed in [s] by a code unit that is not
    a hyphen. *)
Fixpoint fenceFree (s : JsString.t) : bool :=
  match s with
  | c :: rest =>
      (if decide (c = JsString.LF)
       then match rest with
            | d :: _ => negb (bool_decide (d = JsString.hyphen))
            | [] => false
            end
       else true) && fenceFree rest
  | [] => true
  end.

(** The reactions and the settlement that are due to call [k], the host
    accepting the write. *)
Definition settle (k : nat) : list event :=
  [ThenRuns k; WriteSettles k None; FinallyRuns k].

(** The same for the first [n] calls, in the order of the calls. *)
Definition drain (n : nat) : list event := concat (settle <$> seq 0 n).

(** No event of the list is a write that the host rejects. *)
Definition noFailure (es : list event) : bool :=
  forallb (λ e, match e with WriteSettles _ (Some _) => false | _ => true end) es.

(** No call has been rejected. *)
Definition unfailed (m : manager) : Prop :=
  ∀ (k : nat) l reason, promises m !! k = Some l →
    l_phase l ≠ Settling (Rejected reason) ∧ l_phase l ≠ Settled (Rejected reason).

(** Two reports about the task of a note, the write of the first under
    way when the second comes. *)
Definition reportedTwice : list event :=
  [CallUpdate "story.md" [("vk_status", Some "inprogress");
                          ("vk_last_synced", Some "2026-01-01T00:00:00.000Z")];
   ThenRuns 0;
   CallUpdate "story.md" [("vk_status", Some "deleted");
                          ("vk_last_synced", Some "2026-01-01T00:00:05.000Z")]].

(** Two updates of a note; the host has rejected the write of the first
    and no reaction to that has run yet. *)
Definition firstJustFailed : list event :=
  [CallUpdate "story.md" statusUpdate; CallUpdate "story.md" statusUpdate;
   ThenRuns 0; WriteSettles 0 (Some "EBUSY")].

(** A note that has been pushed. *)
Definition pushedNote : gmap string frontmatter :=
  {[ "story.md" := {[ "title" := "Story"; "vk_attempt_id" := "A1" ]} ]}.

End FrontmatterManager.

(** ** VKStatusPoller *)
Module VKStatusPoller.

Record VKTaskWithAttemptStatus := Task {
  id : string;
  project_id : string;
  title : string;
  description : option string;
  status : string;
  parent_task_attempt : option string;
  shared_task_id : option string;
  created_at : string;
  updated_at : string;
  has_in_progress_attempt : bool;
  has_merged_attempt : bool;
  last_attempt_failed : bool;
  executor : option string;
}.

(** Fields that are initialised once and never assigned again. *)
Definition pollInterval : Z := 5000.
Definition baseBackoff : Z := 5000.
Definition maxBackoff : Z := 60000.
Definition maxTrackedTasks : nat := 1000.

(** The object.  [onTaskUpdate] records whether the callback is set; the
    callback itself belongs to the caller and its invocations are recorded
    as effects.  [projectIds] is a reference: [start] assigns a new Set
    while a suspended [poll] may still iterate the old one. *)
Record poller := Poller {
  pollTimer : option nat;
  currentBackoff : Z;
  consecutiveErrors : Z;
  isPolling : bool;
  onTaskUpdate : bool;
  vkUrl : string;
  projectIds : nat;
  lastKnownStates : JsMap.t;
  taskProjectMap : JsMap.t;
  debug : bool;
  activeTaskIds : gset string;
}.

(** A [poll] suspended at [await requestUrl(...)]: the iterator of its
    [for ... of] (a Set and an index), the project whose tasks were
    requested, and the locals [baseUrl] and [hasError]. *)
Record frame := Frame {
  f_set : nat;
  f_pos : nat;
  f_projectId : string;
  f_baseUrl : string;
  f_hasError : bool;
}.

(** The poller in its environment: the Set objects it has created, the
    polls suspended at a request, and the timers of the window that have
    not fired. *)
Record world := World {
  this : poller;
  sets : list JsSet.t;
  suspended : list frame;
  timers : list nat;
  nextTimer : nat;
}.

Inductive effect :=
  | Notify (task : VKTaskWithAttemptStatus)
  | Request (baseUrl projectId : string)
  | SetTimeout (timer : nat) (ms : Z)
  | ClearTimeout (timer : nat).

(** What [await requestUrl(...)] gives back: a response, whose [json.data]
    may be missing, or an exception. *)
Inductive fetched :=
  | Response (code : Z) (data : option (list VKTaskWithAttemptStatus))
  | Throws.

(** *** Field updates *)

Definition with_maps (states projects : JsMap.t) (p : poller) : poller :=
  Poller (pollTimer p) (currentBackoff p) (consecutiveErrors p) (isPolling p)
         (onTaskUpdate p) (vkUrl p) (projectIds p) states projects (debug p)
         (activeTaskIds p).

Definition with_active (active : gset string) (p : poller) : poller :=
  Poller (pollTimer p) (currentBackoff p) (consecutiveErrors p) (isPolling p)
         (onTaskUpdate p) (vkUrl p) (projectIds p) (lastKnownStates p)
         (taskProjectMap p) (debug p) active.

Definition with_backoff (errors interval : Z) (p : poller) : poller :=
  Poller (pollTimer p) interval errors (isPolling p)
         (onTaskUpdate p) (vkUrl p) (projectIds p) (lastKnownStates p)
         (taskProjectMap p) (debug p) (activeTaskIds p).

Definition with_timer (timer : option nat) (p : poller) : poller :=
  Poller timer (currentBackoff p) (consecutiveErrors p) (isPolling p)
         (onTaskUpdate p) (vkUrl p) (projectIds p) (lastKnownStates p)
         (taskProjectMap p) (debug p) (activeTaskIds p).

Definition with_polling (b : bool) (p : poller) : poller :=
  Poller (pollTimer p) (currentBackoff p) (consecutiveErrors p) b
         (onTaskUpdate p) (vkUrl p) (projectIds p) (lastKnownStates p)
         (taskProjectMap p) (debug p) (activeTaskIds p).

Definition with_this (p : poller) (w : world) : world :=
  World p (sets w) (suspended w) (timers w) (nextTimer w).

Definition with_suspended (fs : list frame) (w : world) : world :=
  World (this w) (sets w) fs (timers w) (nextTimer w).

(** [new VKStatusPoller()] in a window whose next timer handle is 1. *)
Definition create : world :=
  World (Poller None 5000 0 false false "" 0 [] [] false ∅) [[]] [] [] 1.

(** *** Strings *)

Definition boolString (b : bool) : string := if b then "true" else "false".

(** [`${status}:${executing}`] *)
Definition combinedState (status : string) (executing : bool) : string :=
  status +:+ ":" +:+ boolString executing.

(** [state.split(':')[0]] *)
Fixpoint splitHead (state : string) : string :=
  match state with
  | EmptyString => EmptyString
  | String c rest =>
      if decide (c = ":"%char) then EmptyString else String c (splitHead rest)
  end.

(** [new Set(['done', 'cancelled', 'deleted']).has(status)] *)
Definition terminalStatuses (status : string) : bool :=
  bool_decide (status ∈ ["done"; "cancelled"; "deleted"]).

Definition truthy (s : string) : bool := negb (bool_decide (s = "")).

(** [s.replace(/\/+$/, '')] *)
Fixpoint dropSlashes (rev : list ascii) : list ascii :=
  match rev with
  | c :: rest => if decide (c = "/"%char) then dropSlashes rest else rev
  | [] => []
  end.

Definition stripTrailingSlashes (s : string) : string :=
  string_of_list_ascii (reverse (dropSlashes (reverse (list_ascii_of_string s)))).

(** [s.replace(/\/$/, '')] *)
Definition stripTrailingSlash (s : string) : string :=
  match reverse (list_ascii_of_string s) with
  | c :: rest =>
      if decide (c = "/"%char) then string_of_list_ascii (reverse rest) else s
  | [] => s
  end.

(** *** The synchronous methods *)

Definition trackTask (taskId : string) (p : poller) : poller :=
  with_active ({[taskId]} ∪ activeTaskIds p) p.

Definition untrackTask (taskId : string) (p : poller) : poller :=
  with_maps (JsMap.delete taskId (lastKnownStates p))
            (JsMap.delete taskId (taskProjectMap p))
            (with_active (activeTaskIds p ∖ {[taskId]}) p).

Definition setKnownState (taskId status : string) (executing : bool) (p : poller) : poller :=
  with_maps (JsMap.set taskId (combinedState status executing) (lastKnownStates p))
            (taskProjectMap p) p.

Definition isRunning (p : poller) : bool := isPolling p.

Definition forget (taskId : string) (p : poller) : poller :=
  with_maps (JsMap.delete taskId (lastKnownStates p))
            (JsMap.delete taskId (taskProjectMap p)) p.

(** The body of the loop of [cleanupTerminalTasks]. *)
Definition cleanupEntry (p : poller) (entry : string * string) : poller :=
  let '(taskId, state) := entry in
  let status := splitHead state in
  if terminalStatuses status && negb (bool_decide (taskId ∈ activeTaskIds p))
  then forget taskId p
  else p.

(** [cleanupTerminalTasks]: the loop deletes no entry but the one it is
    visiting, so the live iteration visits the entries the map had when
    the loop began. *)
Definition cleanupTerminalTasks (p : poller) : poller :=
  foldl cleanupEntry p (lastKnownStates p).

(** *** Processing one response *)

(** The task handed to the callback when a tracked task has gone. *)
Definition deletedTask (taskId projectId : string) : VKTaskWithAttemptStatus :=
  Task taskId projectId "" None "deleted" None None "" "" false false false None.

Definition notify (p : poller) (task : VKTaskWithAttemptStatus) : list effect :=
  if onTaskUpdate p then [Notify task] else [].

(** The body of the loop over [this.taskProjectMap.entries()]. *)
Definition checkDeleted (projectId : string) (currentTaskIds : gset string)
    (acc : poller * list effect) (entry : string * string) : poller * list effect :=
  let '(p, out) := acc in
  let '(taskId, taskProjectId) := entry in
  if bool_decide (taskProjectId = projectId) && negb (bool_decide (taskId ∈ currentTaskIds))
  then
    match JsMap.get taskId (lastKnownStates p) with
    | Some lastStatus =>
        if truthy lastStatus && negb (bool_decide (lastStatus = "deleted"))
        then (forget taskId p, out ++ notify p (deletedTask taskId projectId))
        else acc
    | None => acc
    end
  else acc.

Definition detectDeleted (projectId : string) (tasks : list VKTaskWithAttemptStatus)
    (p : poller) : poller * list effect :=
  let currentTaskIds : gset string := list_to_set (id <$> tasks) in
  foldl (checkDeleted projectId currentTaskIds) (p, []) (taskProjectMap p).

(** The body of the loop over [tasks]. *)
Definition observe (projectId : string) (acc : poller * list effect)
    (task : VKTaskWithAttemptStatus) : poller * list effect :=
  let '(p, out) := acc in
  let currentState := combinedState (status task) (has_in_progress_attempt task) in
  let lastState := JsMap.get (id task) (lastKnownStates p) in
  let fired :=
    match lastState with
    | Some last => if bool_decide (last = currentState) then [] else notify p task
    | None => []
    end in
  (with_maps (JsMap.set (id task) currentState (lastKnownStates p))
             (JsMap.set (id task) projectId (taskProjectMap p)) p,
   out ++ fired).

Definition detectChanges (projectId : string) (tasks : list VKTaskWithAttemptStatus)
    (p : poller) : poller * list effect :=
  foldl (observe projectId) (p, []) tasks.

(** The loop over [this.lastKnownStates.keys()] with its counter. *)
Fixpoint evictLoop (keys : list string) (removed entriesToRemove : nat) (p : poller) : poller :=
  match keys with
  | [] => p
  | key :: rest =>
      if bool_decide (entriesToRemove ≤ removed)%nat then p
      else if negb (bool_decide (key ∈ activeTaskIds p))
      then evictLoop rest (S removed) entriesToRemove (forget key p)
      else evictLoop rest removed entriesToRemove p
  end.

(** [if (this.lastKnownStates.size > this.maxTrackedTasks) { ... }] *)
Definition evictOverLimit (limit : nat) (p : poller) : poller :=
  if bool_decide (limit < JsMap.size (lastKnownStates p))%nat
  then
    let entriesToRemove := JsMap.size (lastKnownStates p) - limit in
    evictLoop (JsMap.keys (lastKnownStates p)) 0 entriesToRemove p
  else p.

(** Everything [poll] does with a response of status 200. *)
Definition processResponse (projectId : string) (tasks : list VKTaskWithAttemptStatus)
    (p : poller) : poller * list effect :=
  let '(p1, gone) := detectDeleted projectId tasks p in
  let '(p2, changed) := detectChanges projectId tasks p1 in
  (evictOverLimit maxTrackedTasks (cleanupTerminalTasks p2), gone ++ changed).

(** *** The poll cycle *)

(** [Math.min(this.baseBackoff * Math.pow(2, this.consecutiveErrors - 1),
    this.maxBackoff)] *)
Definition backoffAfter (errors : Z) : Z :=
  Z.min (baseBackoff * 2 ^ (errors - 1)) maxBackoff.

(** The statements after the loop: backoff, then the next timer. *)
Definition finishPoll (hasError : bool) (w : world) : world * list effect :=
  let p := this w in
  let p1 :=
    if hasError
    then with_backoff (consecutiveErrors p + 1) (backoffAfter (consecutiveErrors p + 1)) p
    else with_backoff 0 pollInterval p in
  if isPolling p1
  then
    let timer := nextTimer w in
    (World (with_timer (Some timer) p1) (sets w) (suspended w)
           (timers w ++ [timer]) (S timer),
     [SetTimeout timer (currentBackoff p1)])
  else (with_this p1 w, []).

(** The loop from its head: take the next project from the iterator; leave
    if the poller was stopped; otherwise send the request and suspend.
    When the iterator is exhausted the statements after the loop run. *)
Definition pollLoop (set pos : nat) (baseUrl : string) (hasError : bool)
    (w : world) : world * list effect :=
  match JsSet.next (default [] (sets w !! set)) pos with
  | None => finishPoll hasError w
  | Some (projectId, pos') =>
      if negb (isPolling (this w)) then (w, [])
      else (with_suspended (suspended w ++ [Frame set pos' projectId baseUrl hasError]) w,
            [Request baseUrl projectId])
  end.

Definition poll (w : world) : world * list effect :=
  if negb (isPolling (this w)) then (w, [])
  else pollLoop (projectIds (this w)) 0 (stripTrailingSlashes (vkUrl (this w))) false w.

(** The request of a suspended poll settles and the poll runs on to its
    next [await] or to its end. *)
Definition resume (f : frame) (r : fetched) (w : world) : world * list effect :=
  match r with
  | Throws => pollLoop (f_set f) (f_pos f) (f_baseUrl f) true w
  | Response code data =>
      if bool_decide (code = 200%Z)
      then
        let '(p, out) := processResponse (f_projectId f) (default [] data) (this w) in
        let '(w', out') := pollLoop (f_set f) (f_pos f) (f_baseUrl f) (f_hasError f) (with_this p w) in
        (w', out ++ out')
      else pollLoop (f_set f) (f_pos f) (f_baseUrl f) (f_hasError f) w
  end.

Definition start (url : string) (ids : list string) (dbg : bool) (w : world) : world * list effect :=
  let p := this w in
  if isPolling p then (w, [])
  else
    let ids' := JsSet.of_list (filter (λ x, x ≠ "") ids) in
    let p' := Poller (pollTimer p) (currentBackoff p) (consecutiveErrors p) true true
                     (stripTrailingSlash url) (length (sets w))
                     (lastKnownStates p) (taskProjectMap p) dbg (activeTaskIds p) in
    let w' := World p' (sets w ++ [ids']) (suspended w) (timers w) (nextTimer w) in
    if bool_decide (JsSet.size ids' = 0) then (w', []) else poll w'.

Definition addProject (projectId : string) (w : world) : world :=
  let current := default [] (sets w !! projectIds (this w)) in
  if truthy projectId && negb (JsSet.has projectId current)
  then World (this w) (<[projectIds (this w) := JsSet.add projectId current]> (sets w))
             (suspended w) (timers w) (nextTimer w)
  else w.

Definition stop (w : world) : world * list effect :=
  let p := this w in
  let cleared := default [] (sets w !! projectIds p) in
  let p' := Poller None pollInterval 0 false (onTaskUpdate p) (vkUrl p) (projectIds p)
                   (JsMap.clear (lastKnownStates p)) (JsMap.clear (taskProjectMap p))
                   (debug p) ∅ in
  let sets' := <[projectIds p := JsSet.clear cleared]> (sets w) in
  match pollTimer p with
  | Some timer =>
      (World p' sets' (suspended w) (filter (λ t, t ≠ timer) (timers w)) (nextTimer w),
       [ClearTimeout timer])
  | None => (World p' sets' (suspended w) (timers w) (nextTimer w), [])
  end.

Inductive event :=
  | Start (vkUrl : string) (projectIds : list string) (debug : bool)
  | AddProject (projectId : string)
  | TrackTask (taskId : string)
  | UntrackTask (taskId : string)
  | SetKnownState (taskId status : string) (executing : bool)
  | Stop
  | TimerFires (timer : nat)
  | RequestSettles (k : nat) (r : fetched).

Definition step (w : world) (e : event) : world * list effect :=
  match e with
  | Start url ids dbg => start url ids dbg w
  | AddProject projectId => (addProject projectId w, [])
  | TrackTask taskId => (with_this (trackTask taskId (this w)) w, [])
  | UntrackTask taskId => (with_this (untrackTask taskId (this w)) w, [])
  | SetKnownState taskId st executing =>
      (with_this (setKnownState taskId st executing (this w)) w, [])
  | Stop => stop w
  | TimerFires timer =>
      if bool_decide (timer ∈ timers w)
      then poll (World (this w) (sets w) (suspended w)
                       (filter (λ t, t ≠ timer) (timers w)) (nextTimer w))
      else (w, [])
  | RequestSettles k r =>
      match suspended w !! k with
      | Some f => resume f r (with_suspended (delete k (suspended w)) w)
      | None => (w, [])
      end
  end.

Definition run (es : list event) (w : world) : world * list effect :=
  foldl (λ acc e, let '(w', out) := step acc.1 e in (w', acc.2 ++ out)) (w, []) es.

(** *** Vocabulary of the properties *)

(** The notifications among the effects that are about one task. *)
Definition notificationsFor (taskId : string) (out : list effect) : list VKTaskWithAttemptStatus :=
  omap (λ e, match e with
             | Notify task => if bool_decide (id task = taskId) then Some task else None
             | _ => None
             end) out.


(** Capacity eviction as the specification words it: drop the [n] oldest
    entries whose key is not active. *)
Fixpoint dropOldestInactive (active : gset string) (n : nat) (m : JsMap.t) : JsMap.t :=
  match n, m with
  | 0, _ => m
  | _, [] => []
  | S n', (k, v) :: rest =>
      if bool_decide (k ∈ active) then (k, v) :: dropOldestInactive active n rest
      else dropOldestInactive active n' rest
  end.

Definition activeCount (active : gset string) (m : JsMap.t) : nat :=
  length (filter (λ e, e.1 ∈ active) m).

(** One whole cycle run without interference: [poll] is entered and each
    request it sends is answered in turn. *)
Definition answer (acc : world * list effect) (r : fetched) : world * list effect :=
  let '(w', out) := step acc.1 (RequestSettles 0 r) in (w', acc.2 ++ out).

Definition pollCycle (answers : list fetched) (w : world) : world * list effect :=
  foldl answer (poll w) answers.

Definition isThrows (r : fetched) : bool :=
  match r with Throws => true | _ => false end.

(** Cycle after cycle; the effects are those of the last cycle. *)
Definition pollCycles (cycles : list (list fetched)) (w : world) : world * list effect :=
  foldl (λ acc answers, pollCycle answers acc.1) (w, []) cycles.

(** The projects an iterator standing at [pos] has yet to visit. *)
Definition remaining (s : JsSet.t) (pos : nat) : list string :=
  JsSet.elements (drop pos s).

(** The fields of the poller that processing a response leaves alone. *)
Definition control (p : poller) :=
  (pollTimer p, currentBackoff p, consecutiveErrors p, isPolling p,
   onTaskUpdate p, vkUrl p, projectIds p, debug p).

(** The records of the tasks and the active set. *)
Definition tracking (p : poller) := (lastKnownStates p, taskProjectMap p, activeTaskIds p).

(** The response to a poll suspended in [w] that shows the task gone: it
    has status 200, it is for the project the task is mapped to, and the
    task is not among its tasks. *)
Definition showsGone (w : world) (X : string) (e : event) : Prop :=
  ∃ k f data,
    e = RequestSettles k (Response 200 data) ∧ suspended w !! k = Some f ∧
    JsMap.get X (taskProjectMap (this w)) = Some (f_projectId f) ∧
    X ∉ id <$> default [] data.

(** "Only [untrackTask] or a response that shows the task gone clears the
    state of an active task." *)
Definition clearedOnlyByUntrackOrAbsence : Prop :=
  ∀ w e X,
    X ∈ activeTaskIds (this w) →
    NoDup (JsMap.keys (taskProjectMap (this w))) →
    is_Some (JsMap.get X (lastKnownStates (this w))) →
    JsMap.get X (lastKnownStates (this (step w e).1)) = None →
    e = UntrackTask X ∨ showsGone w X e.


(** [p'] has the active set of [p] and the same records for task [X]. *)
Definition keeps (X : string) (p p' : poller) : Prop :=
  activeTaskIds p' = activeTaskIds p ∧
  JsMap.get X (lastKnownStates p') = JsMap.get X (lastKnownStates p) ∧
  JsMap.get X (taskProjectMap p') = JsMap.get X (taskProjectMap p).

(** The guard of the deletion loop, [lastStatus && lastStatus !== 'deleted']. *)
Definition guard (lastStatus : string) : bool :=
  truthy lastStatus && negb (bool_decide (lastStatus = "deleted")).

(** What one step of a loop leaves alone as far as task [X] goes: the
    callback, the active set, the records of [X] and the notifications
    about [X]. *)
Definition apart (X : string) (acc acc' : poller * list effect) : Prop :=
  onTaskUpdate acc'.1 = onTaskUpdate acc.1 ∧
  keeps X acc.1 acc'.1 ∧
  notificationsFor X acc'.2 = notificationsFor X acc.2.

(** What a cycle leaves behind: nothing suspended, the poller running,
    the counter and the interval set from whether a request failed, and a
    timer for the next cycle as the last effect. *)
Definition cycleDone (failed : bool) (w : world) (acc : world * list effect) : Prop :=
  suspended acc.1 = [] ∧ sets acc.1 = sets w ∧
  isPolling (this acc.1) = true ∧ projectIds (this acc.1) = projectIds (this w) ∧
  consecutiveErrors (this acc.1)
  = (if failed then consecutiveErrors (this w) + 1 else 0)%Z ∧
  currentBackoff (this acc.1)
  = (if failed then backoffAfter (consecutiveErrors (this w) + 1) else pollInterval) ∧
  ∃ timer, last acc.2 = Some (SetTimeout timer (currentBackoff (this acc.1))).

(** One entry per key in both maps. *)
Definition distinct (p : poller) : Prop :=
  NoDup (JsMap.keys (lastKnownStates p)) ∧ NoDup (JsMap.keys (taskProjectMap p)).

(** What every world that the events can produce satisfies: each map has
    one entry per key, and the callback is set whenever a poll can still
    run (the poller is running, a poll is suspended, or a timer is
    pending). *)
Definition wellFormed (w : world) : Prop :=
  distinct (this w) ∧
  (onTaskUpdate (this w) = false →
     isPolling (this w) = false ∧ suspended w = [] ∧ timers w = []).

(** *** Runs used to evaluate the model *)

(** The run in which the task service reports task [X] of project [P]
    with status [deleted] to a poller that keeps it as an active task. *)
Definition reportedDeleted : VKTaskWithAttemptStatus :=
  Task "X" "P" "Story" None "deleted" None None "" "" false false false None.

Definition seenDeleted : list event :=
  [TrackTask "X"; Start "http://vk/" ["P"] false;
   RequestSettles 0 (Response 200 (Some [reportedDeleted]));
   TimerFires 1].

(** A task as the service reports it while it runs. *)
Definition reportedRunning : VKTaskWithAttemptStatus :=
  Task "T1" "P" "Story" None "inprogress" None None "" "" true false false None.


(** The poller after a first cycle without errors. *)
Definition afterCleanCycle : world :=
  (run [Start "http://vk/" ["P"] false; RequestSettles 0 (Response 200 (Some []))] create).1.

(** Two finished tasks, one of them active. *)
Definition finishedButActive : poller :=
  this (run [TrackTask "X"; SetKnownState "X" "done" false;
             SetKnownState "Y" "done" false] create).1.

(** More tasks than the limit, named by their numbers, the first active. *)
Definition crowdedStates (n : nat) : JsMap.t :=
  (λ k, (pretty k, "todo:false")) <$> seq 0 n.

Definition crowded : poller :=
  Poller None 5000 0 true true "http://vk" 0 (crowdedStates 1002) [] false {[ "0" ]}.

(** The poller that tracks the running task [T1] of project [P] for a
    note. *)
Definition watching : poller :=
  this (run [TrackTask "T1"; Start "http://vk/" ["P"] false;
             RequestSettles 0 (Response 200 (Some [reportedRunning]))] create).1.

(** *** Vocabulary of further properties *)

Definition isStart (e : event) : bool :=
  match e with Start _ _ _ => true | _ => false end.

Definition isNotify (e : effect) : bool :=
  match e with Notify _ => true | _ => false end.

(** The effect reaches the task service or the timers of the window. *)
Definition sendsOrSchedules (e : effect) : bool :=
  match e with Request _ _ | SetTimeout _ _ => true | _ => false end.

(** The requests among the effects: base URL and project, in order. *)
Definition requests (out : list effect) : list (string * string) :=
  omap (λ e, match e with Request baseUrl projectId => Some (baseUrl, projectId) | _ => None end)
       out.

(** The delays of the timers set among the effects. *)
Definition delays (out : list effect) : list Z :=
  omap (λ e, match e with SetTimeout _ ms => Some ms | _ => None end) out.

(** The error counter is not negative and the interval lies between the
    base and the maximum. *)
Definition bounded (p : poller) : Prop :=
  (0 ≤ consecutiveErrors p)%Z ∧ (baseBackoff ≤ currentBackoff p ≤ maxBackoff)%Z.

(** A set of projects as the poller means it: every project once, none
    with an empty identifier. *)
Definition properSet (s : JsSet.t) : Prop :=
  NoDup (JsSet.elements s) ∧ "" ∉ JsSet.elements s.

(** The entry is one that cleanup takes away: its status is terminal and
    its task is not active. *)
Definition purged (active : gset string) (entry : string * string) : bool :=
  terminalStatuses (splitHead entry.2) && negb (bool_decide (entry.1 ∈ active)).

Definition endsWithSlash (s : string) : Prop := ∃ t, s = t +:+ "/".

(** The answer is a response whose status is not 200. *)
Definition refused (r : fetched) : bool :=
  match r with
  | Response code _ => negb (bool_decide (code = 200%Z))
  | Throws => false
  end.

(** Where a notification that the poller makes up for a task that has gone
    comes from: an entry of the map of projects for the polled project, a
    recorded state that passes the guard, and a response without the
    task. *)
Definition lost (projectId : string) (tasks : list VKTaskWithAttemptStatus)
    (p : poller) (task : VKTaskWithAttemptStatus) : Prop :=
  task = deletedTask (id task) projectId ∧
  (id task, projectId) ∈ taskProjectMap p ∧
  (id task ∉ id <$> tasks) ∧
  ∃ lastStatus, JsMap.get (id task) (lastKnownStates p) = Some lastStatus ∧
                guard lastStatus = true.

(** The keys that [cleanupTerminalTasks] deletes. *)
Definition purgedKeys (p : poller) : list string :=
  (filter (λ entry, purged (activeTaskIds p) entry = true) (lastKnownStates p)).*1.

(** A poller with two projects between two cycles, the second project's
    request having failed in the first. *)
Definition betweenCycles : world :=
  (run [Start "http://vk//" ["P"; "Q"] false;
        RequestSettles 0 (Response 200 None); RequestSettles 0 Throws] create).1.

(** The poller after [start] and [stop]. *)
Definition stopped : world :=
  (run [Start "http://vk/" ["P"] false; Stop] create).1.

End VKStatusPoller.

(** ** The plugin *)
Module VibeKanbanPlugin.

(** [buildStoryContent(result)]: the template literal, whose line breaks
    are line feeds, then [result.description || '']. *)
Definition buildStoryContent (title : JsString.t) (description : option JsString.t)
    (projectName projectId : JsString.t) : JsString.t :=
  let frontmatter :=
    JsString.units "---" ++ [JsString.LF]
    ++ JsString.units "title: " ++ title ++ [JsString.LF]
    ++ JsString.units "vk_status: notsynced" ++ [JsString.LF]
    ++ JsString.units "vk_project_name: " ++ projectName ++ [JsString.LF]
    ++ JsString.units "vk_project_id: " ++ projectId ++ [JsString.LF]
    ++ JsString.units "---" in
  let body := default [] description in
  frontmatter ++ [JsString.LF; JsString.LF] ++ body ++ [JsString.LF].

(** [handleTaskUpdate(task)] up to its first [await], which is the one
    inside [update]: the call of [update] that it makes, if it makes one.
    [index] is [this.taskIdToFileIndex], [files] the paths at which
    [getAbstractFileByPath] finds a file, [now] is
    [new Date().toISOString()]. *)
Definition handleTaskUpdate (index : gmap string string) (files : gset string)
    (now : string) (task : VKStatusPoller.VKTaskWithAttemptStatus)
    : list FrontmatterManager.event :=
  match index !! VKStatusPoller.id task with
  | Some filePath =>
      if negb (bool_decide (filePath = "")) && bool_decide (filePath ∈ files)
      then [FrontmatterManager.CallUpdate filePath
              [("vk_status", Some (VKStatusPoller.status task));
               ("vk_last_synced", Some now)]]
      else []
  | None => []
  end.

(** The calls of [update] that a sequence of calls of the callback makes,
    each with the time at which it is made. *)
Definition handleTaskUpdates (index : gmap string string) (files : gset string)
    (reports : list (VKStatusPoller.VKTaskWithAttemptStatus * string))
    : list FrontmatterManager.event :=
  concat ((λ report, handleTaskUpdate index files report.2 report.1) <$> reports).

End VibeKanbanPlugin.

(** * The update serializer *)

Section Serializer.
Import FrontmatterManager.

Lemma lookup_alter_inv (f : link → link) (ls : list link) (k j : nat) (x : link) :
  alter f k ls !! j = Some x →
  ∃ y, ls !! j = Some y ∧ x = if decide (j = k) then f y else y.
Proof.
  destruct (decide (j = k)) as [->|Hne].
  - rewrite list_lookup_alter_eq. destruct (ls !! k); naive_solver.
  - rewrite list_lookup_alter_ne by done. eauto.
Qed.

Lemma lookup_alter_fwd (f : link → link) (ls : list link) (k j : nat) (y : link) :
  ls !! j = Some y →
  alter f k ls !! j = Some (if decide (j = k) then f y else y).
Proof.
  intros Hy. destruct (decide (j = k)) as [->|Hne].
  - by rewrite list_lookup_alter_eq, Hy.
  - by rewrite list_lookup_alter_ne.
Qed.

Lemma path_setPhase_if ph (y : link) {P Q : Prop} (b : {P} + {Q}) :
  l_path (if b then setPhase ph y else y) = l_path y.
Proof. by destruct b. Qed.

Lemma writtenOn_app path ls1 ls2 :
  writtenOn path (ls1 ++ ls2) = writtenOn path ls1 ++ writtenOn path ls2.
Proof. unfold writtenOn. apply omap_app. Qed.

Lemma writtenOn_cons path x ls :
  writtenOn path (x :: ls) = writtenOn path [x] ++ writtenOn path ls.
Proof. apply (writtenOn_app path [x] ls). Qed.

Lemma writtenOn_none path ls :
  (∀ (j : nat) lj, ls !! j = Some lj → l_path lj = path → hasWritten lj = false) →
  writtenOn path ls = [].
Proof.
  induction ls as [|x ls IH]; intros Hls; [done|].
  unfold writtenOn in *; simpl. case_bool_decide as Hp; simpl.
  - rewrite (Hls 0 x eq_refl Hp). apply IH. intros j lj Hj. by apply (Hls (S j)).
  - apply IH. intros j lj Hj. by apply (Hls (S j)).
Qed.

(** A change of phase that does not change whether the call has written
    leaves the list of saved merges as it is. *)
Lemma writtenOn_alter path ph ls k l :
  ls !! k = Some l →
  (l_path l = path → hasWritten (setPhase ph l) = hasWritten l) →
  writtenOn path (alter (setPhase ph) k ls) = writtenOn path ls.
Proof.
  revert k. induction ls as [|x ls IH]; intros [|k] Hk Hw; simplify_eq/=; try done.
  - unfold writtenOn; simpl. case_bool_decide; [|done]. by rewrite Hw.
  - unfold writtenOn in *; simpl. by rewrite IH.
Qed.

(** The call whose write is saved joins the saved merges of its note at
    the end, because no later call for the note has written. *)
Lemma writtenOn_alter_saved ph ls k l :
  ls !! k = Some l →
  hasWritten l = false → hasWritten (setPhase ph l) = true →
  (∀ (j : nat) lj, k < j → ls !! j = Some lj → l_path lj = l_path l → hasWritten lj = false) →
  writtenOn (l_path l) (alter (setPhase ph) k ls) = writtenOn (l_path l) ls ++ [l_updates l].
Proof.
  revert k. induction ls as [|x ls IH]; intros [|k] Hk Hold Hnew Hlater; simplify_eq/=.
  - unfold writtenOn at 1 2; simpl. rewrite bool_decide_eq_true_2 by done.
    rewrite Hold, Hnew. simpl. fold (writtenOn (l_path l) ls).
    rewrite writtenOn_none; [done|]. intros j lj Hj. apply (Hlater (S j)); [lia|done].
  - unfold writtenOn at 1 2; simpl. fold (writtenOn (l_path l) ls).
    fold (writtenOn (l_path l) (alter (setPhase ph) k ls)).
    rewrite (IH k) by (try done; intros j lj ?; apply (Hlater (S j)); lia).
    by destruct (bool_decide _ && hasWritten x).
Qed.

Lemma ordered_create notes : ordered (create notes).
Proof. split; simpl; intros; simplify_eq; done. Qed.

Lemma consistent_create notes : consistent notes (create notes).
Proof. split; [apply ordered_create|..]; simpl; intros; simplify_eq; done. Qed.

Lemma ordered_update m filePath updates :
  ordered m → ordered (update filePath updates m).
Proof.
  intros [Ht Hi Hc Ho]. unfold update.
  split; simpl.
  - intros path k Hq. destruct (decide (filePath = path)) as [->|Hne].
    + rewrite lookup_insert_eq in Hq. simplify_eq.
      eexists. split; [by rewrite lookup_app_r, Nat.sub_diag|].
      split; [done|]. split; [done|]. intros j lj Hj _.
      apply lookup_lt_Some in Hj. rewrite length_app in Hj. simpl in Hj. lia.
    + rewrite lookup_insert_ne in Hq by done.
      destruct (Ht _ _ Hq) as (l & Hl & Hp & Hns & Hlast).
      exists l. split; [by rewrite lookup_app_l by (by eapply lookup_lt_Some)|].
      split; [done|]. split; [done|]. intros j lj Hj Hpj.
      apply lookup_app_Some in Hj as [Hj|[_ Hj]]; [eauto|].
      destruct (j - length (promises m)); simplify_eq/=.
  - intros path Hq j lj Hj Hpj.
    destruct (decide (filePath = path)) as [->|Hne];
      [by rewrite lookup_insert_eq in Hq|].
    rewrite lookup_insert_ne in Hq by done.
    apply lookup_app_Some in Hj as [Hj|[_ Hj]]; [eauto|].
    destruct (j - length (promises m)); simplify_eq/=.
  - intros j lj Hj.
    apply lookup_app_Some in Hj as [Hj|[Hge Hj]].
    + specialize (Hc _ _ Hj). pose proof (lookup_lt_Some _ _ _ Hj) as Hlt.
      destruct (l_pred lj) as [i|].
      * destruct Hc as (Hij & li & Hli & Hpi & Hbetween).
        split; [done|]. exists li. split; [by rewrite lookup_app_l by lia|].
        split; [done|]. intros n ln Hn Hln. eapply Hbetween; [done|].
        by rewrite lookup_app_l in Hln by lia.
      * intros n ln Hn Hln. eapply Hc; [done|].
        by rewrite lookup_app_l in Hln by lia.
    + destruct (j - length (promises m)) eqn:Hd; simplify_eq/=.
      assert (j = length (promises m)) as -> by lia.
      destruct (updateQueues m !! filePath) as [i|] eqn:Hq.
      * destruct (Ht _ _ Hq) as (l & Hl & Hp & Hns & Hlast).
        pose proof (lookup_lt_Some _ _ _ Hl) as Hlt.
        split; [done|]. exists l. split; [by rewrite lookup_app_l by lia|].
        split; [done|]. intros n ln Hn Hln Hpn.
        rewrite lookup_app_l in Hln by lia.
        specialize (Hlast _ _ Hln Hpn). lia.
      * intros n ln Hn Hln Hpn. rewrite lookup_app_l in Hln by lia. eauto.
  - intros i j li lj Hij Hli Hlj Hp Hph.
    apply lookup_app_Some in Hlj as [Hlj|[Hge Hlj]].
    + pose proof (lookup_lt_Some _ _ _ Hlj) as Hlt.
      rewrite lookup_app_l in Hli by lia. eauto.
    + destruct (j - length (promises m)); simplify_eq/=.
Qed.

Lemma consistent_update notes m filePath updates :
  consistent notes m → consistent notes (update filePath updates m).
Proof.
  intros [Hord Hs Hr]. split; [by apply ordered_update|..]; unfold update; simpl.
  - intros j lj fm Hj Hph.
    apply lookup_app_Some in Hj as [Hj|[Hge Hj]]; [by eapply Hs|].
    destruct (j - length (promises m)); simplify_eq/=.
  - intros path. unfold replay. rewrite writtenOn_app. simpl.
    rewrite andb_false_r. simpl. rewrite app_nil_r. apply Hr.
Qed.

(** A change of the phase of call [k], possibly with the removal of its
    queue entry, keeps the promises and the queue in order. *)
Lemma ordered_phase ls q q' v v' k l ph :
  ordered (Manager ls q v) →
  ls !! k = Some l →
  isSettled l = false →
  (∀ (path : string) (k' : nat), q' !! path = Some k' →
     q !! path = Some k' ∧ (k' = k → ∀ o, ph ≠ Settled o)) →
  (∀ path : string, q' !! path = None →
     q !! path = None ∨
     (path = l_path l ∧ q !! path = Some k ∧ l_phase l ≠ Queued ∧ ∃ o, ph = Settled o)) →
  (ph ≠ Queued → l_phase l = Queued →
     ∀ (i : nat) li, i < k → ls !! i = Some li → l_path li = l_path l → isSettled li = true) →
  ordered (Manager (alter (setPhase ph) k ls) q' v').
Proof.
  intros [Ht Hi Hc Ho] Hk Hns Hq1 Hq2 Hturn; simpl in *.
  split; simpl.
  - intros path k' Hq. destruct (Hq1 _ _ Hq) as [Hq0 Hph].
    destruct (Ht _ _ Hq0) as (l0 & Hl0 & Hp & Hns0 & Hlast).
    eexists. split; [by apply lookup_alter_fwd|].
    split; [by case_decide|]. split.
    + case_decide; [|done]. subst. specialize (Hph eq_refl).
      unfold isSettled; simpl. destruct ph; [done..|]. by destruct (Hph o).
    + intros j lj Hj Hpj. apply lookup_alter_inv in Hj as (y & Hy & ->).
      eapply Hlast; [done|]. by case_decide.
  - intros path Hq j lj Hj Hpj. apply lookup_alter_inv in Hj as (y & Hy & ->).
    destruct (Hq2 _ Hq) as [Hq0|(-> & Hq0 & Hnq & o & ->)].
    + assert (l_path y = path) as Hpy by (by case_decide).
      pose proof (Hi _ Hq0 _ _ Hy Hpy) as Hset.
      case_decide; [|done]. subst. congruence.
    + case_decide; [done|].
      destruct (Ht _ _ Hq0) as (l0 & Hl0 & Hp & Hns0 & Hlast).
      assert (j ≤ k) by eauto. apply (Ho j k y l); [lia|done|done|done|done].
  - intros j lj Hj. apply lookup_alter_inv in Hj as (y & Hy & ->).
    specialize (Hc _ _ Hy).
    assert (l_pred (if decide (j = k) then setPhase ph y else y) = l_pred y) as ->
      by (by case_decide).
    rewrite path_setPhase_if. destruct (l_pred y) as [i|].
    + destruct Hc as (Hij & li & Hli & Hpi & Hbetween). split; [done|].
      eexists. split; [by apply lookup_alter_fwd|]. split; [by case_decide|].
      intros n ln Hn Hln. apply lookup_alter_inv in Hln as (yn & Hyn & ->).
      rewrite path_setPhase_if. eauto.
    + intros n ln Hn Hln Hpn. apply lookup_alter_inv in Hln as (yn & Hyn & ->).
      rewrite path_setPhase_if in Hpn. pose proof (Hc _ _ Hn Hyn Hpn) as Hset.
      case_decide; [|done]. subst. congruence.
  - intros i j li lj Hij Hli Hlj Hp Hph.
    apply lookup_alter_inv in Hli as (yi & Hyi & ->).
    apply lookup_alter_inv in Hlj as (yj & Hyj & ->).
    rewrite !path_setPhase_if in Hp.
    assert (isSettled yi = true) as Hset.
    { destruct (decide (j = k)) as [->|Hne]; [|by eapply (Ho i j)].
      simplify_eq.
      assert (l_phase l = Queued ∨ l_phase l ≠ Queued) as [Hlq|Hlq]
        by (destruct (l_phase l); auto).
      - eapply Hturn; [|done..]. simpl in Hph. congruence.
      - by eapply (Ho i k). }
    destruct (decide (i = k)) as [->|]; [|done]. simplify_eq. congruence.
Qed.

(** The same change, when it neither saves nor reads anything new, keeps
    the notes consistent. *)
Lemma consistent_phase notes ls q q' v k l ph :
  consistent notes (Manager ls q v) →
  ordered (Manager (alter (setPhase ph) k ls) q' v) →
  ls !! k = Some l →
  (∀ fm, ph = Writing fm → fm = default ∅ (v !! l_path l)) →
  hasWritten (setPhase ph l) = hasWritten l →
  consistent notes (Manager (alter (setPhase ph) k ls) q' v).
Proof.
  intros [_ Hs Hr] Hord Hk Hsnap Hw. split; [done|..]; simpl in *.
  - intros j lj fm Hj Hph. apply lookup_alter_inv in Hj as (y & Hy & ->).
    unfold frontmatterOf; simpl. rewrite path_setPhase_if.
    destruct (decide (j = k)) as [->|]; [|by eapply Hs]. simplify_eq. by apply Hsnap.
  - intros path. unfold replay. erewrite writtenOn_alter by done. apply Hr.
Qed.


(** When [then] finds its queue settled, every earlier call for the path
    has settled. *)
Lemma settled_before m k l o :
  ordered m → promises m !! k = Some l → existingQueueState m l = Some o →
  ∀ (i : nat) li, i < k → promises m !! i = Some li → l_path li = l_path l →
    isSettled li = true.
Proof.
  intros [Ht Hi Hc Ho] Hk Hq i li Hik Hli Hp. specialize (Hc _ _ Hk).
  unfold existingQueueState in Hq. destruct (l_pred l) as [p|]; [|by eapply Hc].
  destruct Hc as (Hpk & lp & Hlp & Hpp & Hbetween). rewrite Hlp in Hq.
  destruct (l_phase lp) eqn:Hphase; simplify_eq.
  destruct (decide (i = p)) as [->|Hne].
  - simplify_eq. unfold isSettled. by rewrite Hphase.
  - destruct (decide (i < p)) as [Hlt|Hge].
    + eapply (Ho i p); [done..|congruence|congruence].
    + exfalso. eapply (Hbetween i li); [lia|done..].
Qed.

Lemma consistent_thenReaction notes m k :
  consistent notes m → consistent notes (thenReaction k m).
Proof.
  intros Hcons. unfold thenReaction.
  destruct (promises m !! k) as [l|] eqn:Hk; [|done].
  destruct (l_phase l) eqn:Hph; try done.
  destruct (existingQueueState m l) as [o|] eqn:Hq; [|done].
  pose proof (settled_before _ _ _ _ (is_ordered _ _ Hcons) Hk Hq) as Hbefore.
  destruct m as [ls q v]; simpl in *.
  assert (∀ ph, (∀ o', ph ≠ Settled o') →
            ordered (Manager (alter (setPhase ph) k ls) q v)) as Hord.
  { intros ph Hns. eapply ordered_phase; [apply Hcons|done|..]; eauto.
    unfold isSettled. by rewrite Hph. }
  destruct o as [|e]; unfold with_phase; simpl.
  - eapply consistent_phase; [done|by apply Hord|done|..].
    + intros fm [= <-]. done.
    + unfold hasWritten; simpl. by rewrite Hph.
  - eapply consistent_phase; [done|by apply Hord|done|..]; [done|].
    unfold hasWritten; simpl. by rewrite Hph.
Qed.

Lemma consistent_settles notes m k failure :
  consistent notes m → consistent notes (processFrontMatterSettles k failure m).
Proof.
  intros Hcons. unfold processFrontMatterSettles.
  destruct (promises m !! k) as [l|] eqn:Hk; [|done].
  destruct (l_phase l) as [|snapshot| |] eqn:Hph; try done.
  destruct m as [ls q v]; simpl in *.
  assert (∀ o v', ordered (Manager (alter (setPhase (Settling o)) k ls) q v')) as Hord.
  { intros o v'. eapply ordered_phase; [apply Hcons|done|..]; eauto; try congruence.
    unfold isSettled. by rewrite Hph. }
  destruct failure as [e|]; unfold with_phase, save; simpl.
  { eapply consistent_phase; [done|by apply Hord|done|..]; [done|].
    unfold hasWritten; simpl. by rewrite Hph. }
  destruct Hcons as [[Ht Hi Hc Ho] Hs Hr]; simpl in *.
  pose proof (Hs _ _ _ Hk Hph) as Hsnap. unfold frontmatterOf in Hsnap; simpl in Hsnap.
  split; [apply Hord|..]; simpl.
  - intros j lj fm Hj Hphj. apply lookup_alter_inv in Hj as (y & Hy & ->).
    destruct (decide (j = k)) as [->|Hne]; [done|].
    unfold frontmatterOf; simpl.
    destruct (decide (l_path y = l_path l)) as [Hsame|Hdiff].
    + exfalso. destruct (decide (j < k)).
      * pose proof (Ho j k y l) as Hset. unfold isSettled in Hset.
        rewrite Hphj in Hset. specialize (Hset ltac:(done) Hy Hk Hsame).
        rewrite Hph in Hset. by specialize (Hset ltac:(done)).
      * pose proof (Ho k j l y) as Hset. unfold isSettled in Hset.
        rewrite Hph in Hset. specialize (Hset ltac:(lia) Hk Hy (eq_sym Hsame)).
        rewrite Hphj in Hset. by specialize (Hset ltac:(done)).
    + rewrite lookup_insert_ne by done. by apply (Hs j).
  - intros path. unfold frontmatterOf, replay; simpl.
    destruct (decide (l_path l = path)) as [<-|Hne].
    + rewrite lookup_insert_eq. simpl.
      rewrite (writtenOn_alter_saved _ _ _ _ Hk).
      * rewrite foldl_app. simpl. f_equal. rewrite Hsnap.
        specialize (Hr (l_path l)). by unfold frontmatterOf, replay in Hr.
      * unfold hasWritten. by rewrite Hph.
      * done.
      * intros j lj Hkj Hj Hpj.
        destruct (hasWritten lj) eqn:Hwj; [|done]. exfalso.
        pose proof (Ho k j l lj Hkj Hk Hj (eq_sym Hpj)) as Hset.
        unfold isSettled in Hset. rewrite Hph in Hset.
        unfold hasWritten in Hwj.
        destruct (l_phase lj); try done; by specialize (Hset ltac:(done)).
    + rewrite lookup_insert_ne by done.
      erewrite writtenOn_alter; [apply Hr|done|congruence].
Qed.

Lemma consistent_finallyReaction notes m k :
  consistent notes m → consistent notes (finallyReaction k m).
Proof.
  intros Hcons. unfold finallyReaction.
  destruct (promises m !! k) as [l|] eqn:Hk; [|done].
  destruct (l_phase l) as [| |o|] eqn:Hph; try done.
  destruct m as [ls q v]; simpl in *.
  set (q' := if decide (q !! l_path l = Some k) then delete (l_path l) q else q).
  assert (with_phase k (Settled o)
            (if decide (q !! l_path l = Some k)
             then Manager ls (delete (l_path l) q) v else Manager ls q v)
          = Manager (alter (setPhase (Settled o)) k ls) q' v) as ->.
  { unfold with_phase, q'. by case_decide. }
  assert (ordered (Manager (alter (setPhase (Settled o)) k ls) q' v)) as Hord.
  { eapply ordered_phase; [apply Hcons|done|..].
    - unfold isSettled. by rewrite Hph.
    - intros path k' Hq'. unfold q' in Hq'. case_decide as Hq.
      + destruct (decide (path = l_path l)) as [->|Hne];
          [by rewrite lookup_delete_eq in Hq'|].
        rewrite lookup_delete_ne in Hq' by done. split; [done|]. intros ->.
        destruct (queue_tail _ (is_ordered _ _ Hcons) _ _ Hq') as (l0 & Hl0 & Hp0 & _).
        simpl in *. congruence.
      + split; [done|]. intros ->.
        destruct (queue_tail _ (is_ordered _ _ Hcons) _ _ Hq') as (l0 & Hl0 & Hp0 & _).
        simpl in *. congruence.
    - intros path Hq'. unfold q' in Hq'. case_decide as Hq; [|by left].
      destruct (decide (path = l_path l)) as [->|Hne].
      + right. split; [done|]. split; [done|]. split; [congruence|]. eauto.
      + rewrite lookup_delete_ne in Hq' by done. by left.
    - congruence. }
  eapply consistent_phase; [done|done|done|done|].
  unfold hasWritten; simpl. by rewrite Hph.
Qed.

Lemma consistent_step notes m e :
  consistent notes m → consistent notes (step m e).
Proof.
  destruct e; simpl; auto using consistent_update, consistent_thenReaction,
    consistent_settles, consistent_finallyReaction.
Qed.

Lemma consistent_run notes es m :
  consistent notes m → consistent notes (run es m).
Proof.
  revert m. induction es as [|e es IH]; intros m Hm; [done|].
  simpl. apply IH. by apply consistent_step.
Qed.



Lemma mergeUpdates_cons entry updates fm :
  mergeUpdates (entry :: updates) fm = mergeUpdates updates (assign fm entry).
Proof. done. Qed.

Lemma mergeUpdates_frame updates fm key :
  (∀ value, (key, Some value) ∉ updates) →
  mergeUpdates updates fm !! key = fm !! key.
Proof.
  revert fm. induction updates as [|[k v] updates IH]; intros fm Hnot; [done|].
  rewrite mergeUpdates_cons, IH by (intros value Hin; apply (Hnot value); by right).
  unfold assign; simpl. destruct v as [v|]; [|done].
  apply lookup_insert_ne. intros ->. apply (Hnot v). by left.
Qed.

Lemma mergeUpdates_written updates fm key value :
  NoDup updates.*1 → (key, Some value) ∈ updates →
  mergeUpdates updates fm !! key = Some value.
Proof.
  revert fm. induction updates as [|[k v] updates IH]; intros fm Hnd Hin.
  - by apply elem_of_nil in Hin.
  - rewrite fmap_cons in Hnd. apply NoDup_cons in Hnd as [Hk Hnd].
    rewrite mergeUpdates_cons. apply elem_of_cons in Hin as [[= -> <-]|Hin].
    + rewrite mergeUpdates_frame.
      * unfold assign; simpl. apply lookup_insert_eq.
      * intros value' Hin'. apply Hk. apply list_elem_of_fmap. by exists (k, Some value').
    + by apply IH.
Qed.


Lemma callOf_alter ph (k : nat) (ls : list link) : callOf <$> alter (setPhase ph) k ls = callOf <$> ls.
Proof.
  revert k. induction ls as [|x ls IH]; intros [|k]; try done.
  change (alter (setPhase ph) (S k) (x :: ls)) with (x :: alter (setPhase ph) k ls).
  by rewrite !fmap_cons, IH.
Qed.

Lemma callOf_step m e :
  callOf <$> promises (step m e) = (callOf <$> promises m) ++ callsOf [e].
Proof.
  destruct e as [path updates|k|k failure|k]; simpl.
  - by rewrite fmap_app.
  - rewrite app_nil_r. unfold thenReaction.
    destruct (promises m !! k) as [l|]; [|done].
    destruct (l_phase l); try done.
    destruct (existingQueueState m l) as [[|e]|]; try done;
      unfold with_phase; simpl; apply callOf_alter.
  - rewrite app_nil_r. unfold processFrontMatterSettles.
    destruct (promises m !! k) as [l|]; [|done].
    destruct (l_phase l); try done.
    destruct failure; unfold with_phase; simpl; apply callOf_alter.
  - rewrite app_nil_r. unfold finallyReaction.
    destruct (promises m !! k) as [l|]; [|done].
    destruct (l_phase l); try done.
    unfold with_phase; simpl. case_decide; simpl; apply callOf_alter.
Qed.

Lemma callsOf_app es1 es2 : callsOf (es1 ++ es2) = callsOf es1 ++ callsOf es2.
Proof. unfold callsOf. apply omap_app. Qed.

Lemma callOf_run es m :
  callOf <$> promises (run es m) = (callOf <$> promises m) ++ callsOf es.
Proof.
  revert m. unfold run. induction es as [|e es IH]; intros m; simpl.
  - by rewrite app_nil_r.
  - rewrite IH, callOf_step, <- app_assoc. f_equal.
    symmetry. apply (callsOf_app [e] es).
Qed.

Lemma callsOf_noCallFor path es entry :
  noCallFor path es = true → entry ∈ callsOf es → entry.1 ≠ path.
Proof.
  intros Hno Hin ?. unfold callsOf in Hin.
  apply list_elem_of_omap in Hin as (e & He & Heq).
  unfold noCallFor in Hno. rewrite forallb_forall in Hno.
  apply list_elem_of_In, Hno in He.
  destruct e as [p u| | |]; simplify_eq/=.
  by rewrite bool_decide_eq_true_2 in He.
Qed.

(** The last call made for a note, once its write is saved, decides the
    fields it defines. *)
Lemma last_call_wins notes m file k l key value :
  consistent notes m →
  promises m !! k = Some l → l_path l = file → hasWritten l = true →
  (∀ (j : nat) lj, k < j → promises m !! j = Some lj → l_path lj ≠ file) →
  NoDup (l_updates l).*1 → (key, Some value) ∈ l_updates l →
  frontmatterOf m file !! key = Some value.
Proof.
  intros Hcons Hk Hp Hw Hlast Hnd Hin.
  rewrite (replayed _ _ Hcons). unfold replay.
  rewrite <- (take_drop_middle _ _ _ Hk), writtenOn_app, writtenOn_cons.
  assert (writtenOn file (drop (S k) (promises m)) = []) as ->.
  { apply writtenOn_none. intros j lj Hj Hpj. rewrite lookup_drop in Hj.
    exfalso. eapply (Hlast (S k + j)); [lia|done..]. }
  rewrite app_nil_r, foldl_app. unfold writtenOn at 2; simpl.
  rewrite bool_decide_eq_true_2, Hw by done. simpl.
  by apply mergeUpdates_written.
Qed.


(** *** A rejected queue rejects what is chained behind it *)

Lemma awaited_with_phase k ph ls q v q' v' i l :
  ls !! k = Some l → isSettled l = false →
  is_Some (awaited (Manager ls q v) i) →
  awaited (Manager (alter (setPhase ph) k ls) q' v') i = awaited (Manager ls q v) i.
Proof.
  intros Hk Hns Hsome. unfold awaited in *; simpl in *.
  destruct (decide (i = k)) as [->|Hne].
  - rewrite Hk in Hsome. unfold isSettled in Hns.
    destruct (l_phase l); by destruct Hsome.
  - by rewrite list_lookup_alter_ne.
Qed.

Lemma follows_phase ls q v q' v' k l ph :
  follows (Manager ls q v) →
  ls !! k = Some l → isSettled l = false →
  (∀ i, l_pred l = Some i →
     ph = Queued ∨
     awaited (Manager ls q v) i = Some Fulfilled ∨
     ∃ reason, awaited (Manager ls q v) i = Some (Rejected reason) ∧
               (ph = Settling (Rejected reason) ∨ ph = Settled (Rejected reason))) →
  follows (Manager (alter (setPhase ph) k ls) q' v').
Proof.
  intros Hfollows Hk Hns Hph j lj i Hj Hpred. simpl in Hj.
  apply lookup_alter_inv in Hj as (y & Hy & ->).
  assert (l_pred y = Some i) as Hpred' by (by destruct (decide (j = k))).
  assert (∀ o, awaited (Manager ls q v) i = Some o →
               awaited (Manager (alter (setPhase ph) k ls) q' v') i = Some o) as Hkeep.
  { intros o Ho. rewrite (awaited_with_phase k ph ls q v q' v' i l); [done..|by eexists]. }
  destruct (decide (j = k)) as [->|Hne].
  - assert (y = l) as -> by congruence. simpl.
    destruct (Hph i Hpred') as [->|[Hok|(reason & Hrej & Hcase)]]; [by left|..].
    + right. left. by apply Hkeep.
    + right. right. exists reason. split; [by apply Hkeep|done].
  - destruct (Hfollows j y i Hy Hpred') as [Hq|[Hok|(reason & Hrej & Hcase)]]; [by left|..].
    + right. left. by apply Hkeep.
    + right. right. exists reason. split; [by apply Hkeep|done].
Qed.

Lemma awaited_update path updates m i o :
  awaited m i = Some o → awaited (update path updates m) i = Some o.
Proof.
  unfold awaited, update; simpl. destruct (promises m !! i) as [l|] eqn:Hi; [|done].
  by rewrite lookup_app_l, Hi by (by eapply lookup_lt_Some).
Qed.

Lemma follows_step m e : follows m → follows (step m e).
Proof.
  intros Hfollows. destruct e as [path updates|k|k failure|k]; simpl.
  - intros j lj i Hj Hpred. simpl in Hj.
    apply lookup_app_Some in Hj as [Hj|[_ Hj]].
    + destruct (Hfollows j lj i Hj Hpred) as [Hq|[Hok|(reason & Hrej & Hcase)]].
      * by left.
      * right. left. by apply awaited_update.
      * right. right. exists reason. split; [by apply awaited_update|done].
    + left. destruct (j - length (promises m)); by simplify_eq/=.
  - unfold thenReaction. destruct (promises m !! k) as [l|] eqn:Hk; [|done].
    destruct (l_phase l) eqn:Hphase; try done.
    destruct (existingQueueState m l) as [o|] eqn:Hq; [|done].
    assert (isSettled l = false) as Hns by (unfold isSettled; by rewrite Hphase).
    assert (∀ i, l_pred l = Some i → awaited m i = Some o) as Hawait.
    { intros i Hi. unfold existingQueueState in Hq. rewrite Hi in Hq. done. }
    destruct m as [ls q v]. destruct o as [|reason];
      (eapply follows_phase; [done..|]); intros i Hi.
    + right. left. by apply Hawait.
    + right. right. exists reason. split; [by apply Hawait|by left].
  - unfold processFrontMatterSettles. destruct (promises m !! k) as [l|] eqn:Hk; [|done].
    destruct (l_phase l) eqn:Hphase; try done.
    assert (isSettled l = false) as Hns by (unfold isSettled; by rewrite Hphase).
    assert (∀ i, l_pred l = Some i → awaited m i = Some Fulfilled) as Hawait.
    { intros i Hi. destruct (Hfollows k l i Hk Hi) as [?|[?|(? & _ & [?|?])]]; congruence. }
    destruct m as [ls q v]. destruct failure;
      (eapply follows_phase; [done..|]); intros i Hi; right; left; by apply Hawait.
  - unfold finallyReaction. destruct (promises m !! k) as [l|] eqn:Hk; [|done].
    destruct (l_phase l) as [| |o|] eqn:Hphase; try done.
    assert (isSettled l = false) as Hns by (unfold isSettled; by rewrite Hphase).
    destruct m as [ls q v]. simpl in *.
    assert (with_phase k (Settled o)
              (if decide (q !! l_path l = Some k)
               then Manager ls (delete (l_path l) q) v else Manager ls q v)
            = Manager (alter (setPhase (Settled o)) k ls)
                (if decide (q !! l_path l = Some k) then delete (l_path l) q else q) v) as ->.
    { unfold with_phase. by case_decide. }
    eapply follows_phase; [done..|]. intros i Hi.
    destruct (Hfollows k l i Hk Hi) as [?|[?|(reason & Hrej & [?|?])]];
      [congruence|by right; left| |congruence].
    right. right. exists reason. split; [done|]. right. congruence.
Qed.

(** In every run: a call chained behind a call that was rejected never
    writes; it stays queued until it is rejected with the same reason. *)
Lemma follows_run notes es : follows (run es (create notes)).
Proof.
  unfold run. induction es as [|e es IH] using rev_ind.
  - intros j lj i Hj. done.
  - rewrite foldl_app. cbn [foldl]. by apply follows_step.
Qed.

(** ** Properties of [FrontmatterManager.update] *)


(** The run of that schedule, state by state. *)
Lemma firstWriteFails_run notes file first second reason :
  run (firstWriteFails file first second reason) (create notes)
  = Manager [Link file first None (Settled (Rejected reason));
             Link file second (Some 0) (Settled (Rejected reason))]
            (delete file (<[file := 1]> (<[file := 0]> ∅)))
            notes.
Proof.
  set (queue := <[file := 1]> (<[file := 0]> (∅ : gmap string nat))).
  set (waiting := Link file second (Some 0) Queued).
  assert (queue !! file = Some 1) as Hqueue by apply lookup_insert_eq.
  assert (update file second (update file first (create notes))
          = Manager [Link file first None Queued; waiting] queue notes) as Hcalls.
  { unfold update, create; simpl. by rewrite lookup_empty, lookup_insert_eq. }
  assert (thenReaction 0 (Manager [Link file first None Queued; waiting] queue notes)
          = Manager [Link file first None (Writing (default ∅ (notes !! file))); waiting]
                    queue notes) as Hthen0 by done.
  assert (processFrontMatterSettles 0 (Some reason)
            (Manager [Link file first None (Writing (default ∅ (notes !! file))); waiting]
                     queue notes)
          = Manager [Link file first None (Settling (Rejected reason)); waiting]
                    queue notes) as Hfail by done.
  assert (finallyReaction 0
            (Manager [Link file first None (Settling (Rejected reason)); waiting]
                     queue notes)
          = Manager [Link file first None (Settled (Rejected reason)); waiting]
                    queue notes) as Hfinally0.
  { unfold finallyReaction; simpl. by rewrite Hqueue, decide_False. }
  assert (thenReaction 1
            (Manager [Link file first None (Settled (Rejected reason)); waiting]
                     queue notes)
          = Manager [Link file first None (Settled (Rejected reason));
                     Link file second (Some 0) (Settling (Rejected reason))]
                    queue notes) as Hthen1 by done.
  assert (processFrontMatterSettles 1 None
            (Manager [Link file first None (Settled (Rejected reason));
                      Link file second (Some 0) (Settling (Rejected reason))]
                     queue notes)
          = Manager [Link file first None (Settled (Rejected reason));
                     Link file second (Some 0) (Settling (Rejected reason))]
                    queue notes) as Hskip by done.
  assert (finallyReaction 1
            (Manager [Link file first None (Settled (Rejected reason));
                      Link file second (Some 0) (Settling (Rejected reason))]
                     queue notes)
          = Manager [Link file first None (Settled (Rejected reason));
                     Link file second (Some 0) (Settled (Rejected reason))]
                    (delete file queue) notes) as Hfinally1.
  { unfold finallyReaction; simpl. by rewrite Hqueue, decide_True. }
  unfold firstWriteFails, run. cbn [foldl step].
  by rewrite Hcalls, Hthen0, Hfail, Hfinally0, Hthen1, Hskip, Hfinally1.
Qed.

(** C1.  Evaluation of [update] where the claim fails: when the write of a
    queued update is rejected, the update queued behind it for the same
    note is rejected with the same reason and its merge is never written,
    although the host would have accepted it; the notes are untouched. *)
Theorem rejected_update_poisons_queue notes file first second reason :
  let m := run (firstWriteFails file first second reason) (create notes) in
  awaited m 0 = Some (Rejected reason) ∧
  awaited m 1 = Some (Rejected reason) ∧
  writtenOn file (promises m) = [] ∧
  vault m = notes.
Proof.
  intros m. unfold m. rewrite firstWriteFails_run.
  unfold awaited, writtenOn, hasWritten; simpl. by rewrite !andb_false_r.
Qed.


(** C9.  When the write of a call is saved, in whatever state the manager
    has reached: the other notes keep their frontmatter; in the note
    written, a field that the mapping does not define (absent, or present
    with value [undefined]) keeps its value, whatever frontmatter the
    callback is given and in the persisted frontmatter; a field the
    mapping defines gets the value given. *)
Theorem update_writes_defined_fields_only notes es k l key :
  let m := run es (create notes) in
  promises m !! k = Some l → isWriting l = true →
  let m' := step m (WriteSettles k None) in
  (∀ path, path ≠ l_path l → frontmatterOf m' path = frontmatterOf m path) ∧
  (∀ fm, (∀ value, (key, Some value) ∉ l_updates l) →
     mergeUpdates (l_updates l) fm !! key = fm !! key) ∧
  ((∀ value, (key, Some value) ∉ l_updates l) →
     frontmatterOf m' (l_path l) !! key = frontmatterOf m (l_path l) !! key) ∧
  (∀ value, NoDup (l_updates l).*1 → (key, Some value) ∈ l_updates l →
     frontmatterOf m' (l_path l) !! key = Some value).
Proof.
  intros m Hk Hw m'.
  assert (consistent notes m) as Hcons
    by apply consistent_run, consistent_create.
  unfold isWriting in Hw. destruct (l_phase l) as [|snapshot| |] eqn:Hph; try done.
  pose proof (fresh_snapshot _ _ Hcons _ _ _ Hk Hph) as Hsnap.
  assert (∀ path, frontmatterOf m' path =
            if decide (path = l_path l)
            then mergeUpdates (l_updates l) (frontmatterOf m (l_path l))
            else frontmatterOf m path) as Hm'.
  { intros path. unfold m'; simpl. unfold processFrontMatterSettles.
    rewrite Hk, Hph. unfold frontmatterOf, with_phase, save; simpl.
    case_decide as Hp.
    - subst path. rewrite lookup_insert_eq. simpl. by rewrite Hsnap.
    - by rewrite lookup_insert_ne. }
  split; [|split; [|split]].
  - intros path Hp. by rewrite Hm', decide_False.
  - intros fm. apply mergeUpdates_frame.
  - intros Hnot. rewrite Hm', decide_True by done. by apply mergeUpdates_frame.
  - intros value Hnd Hin. rewrite Hm', decide_True by done.
    by apply mergeUpdates_written.
Qed.




Lemma update_writes_defined_fields_only_witness :
  let m := run [CallUpdate "story.md" statusUpdate; ThenRuns 0] (create storyNote) in
  let m' := step m (WriteSettles 0 None) in
  frontmatterOf m' "story.md" !! "title" = Some "Story" ∧
  frontmatterOf m' "story.md" !! "vk_branch" = None ∧
  frontmatterOf m' "story.md" !! "vk_status" = Some "done".
Proof.
  pose (es := [CallUpdate "story.md" statusUpdate; ThenRuns 0]).
  pose (l := Link "story.md" statusUpdate None
               (Writing {[ "title" := "Story"; "vk_status" := "todo" ]})).
  split; [|split].
  - apply (proj1 (proj2 (proj2
      (update_writes_defined_fields_only storyNote es 0 l "title" eq_refl eq_refl)))).
    intros value Hin. by repeat (apply elem_of_cons in Hin as [?|Hin]; [done|]);
      apply elem_of_nil in Hin.
  - apply (proj1 (proj2 (proj2
      (update_writes_defined_fields_only storyNote es 0 l "vk_branch" eq_refl eq_refl)))).
    intros value Hin. by repeat (apply elem_of_cons in Hin as [?|Hin]; [done|]);
      apply elem_of_nil in Hin.
  - apply (proj2 (proj2 (proj2
      (update_writes_defined_fields_only storyNote es 0 l "vk_status" eq_refl eq_refl)))
      "done").
    + by apply (bool_decide_unpack _).
    + by left.
Defined.

End Serializer.

(** * The status poller *)

Section Maps.

Lemma get_set_eq k v (m : JsMap.t) : JsMap.get k (JsMap.set k v m) = Some v.
Proof.
  induction m as [|[k' v'] m IH]; simpl.
  - by rewrite decide_True.
  - destruct (decide (k' = k)) as [->|Hne]; simpl.
    + by rewrite decide_True.
    + by rewrite decide_False.
Qed.

Lemma get_set_ne k k' v (m : JsMap.t) :
  k ≠ k' → JsMap.get k' (JsMap.set k v m) = JsMap.get k' m.
Proof.
  intros Hne. induction m as [|[k0 v0] m IH]; simpl.
  - by rewrite decide_False.
  - destruct (decide (k0 = k)) as [->|Hne0]; simpl.
    + by rewrite !decide_False.
    + by rewrite IH.
Qed.

Lemma get_delete_eq k (m : JsMap.t) : JsMap.get k (JsMap.delete k m) = None.
Proof.
  induction m as [|[k' v'] m IH]; simpl; [done|].
  destruct (decide (k' = k)) as [->|Hne]; simpl; [done|].
  by rewrite decide_False.
Qed.

Lemma get_delete_ne k k' (m : JsMap.t) :
  k ≠ k' → JsMap.get k' (JsMap.delete k m) = JsMap.get k' m.
Proof.
  intros Hne. induction m as [|[k0 v0] m IH]; simpl; [done|].
  destruct (decide (k0 = k)) as [->|Hne0]; simpl.
  - by rewrite decide_False.
  - by rewrite IH.
Qed.

Lemma get_None k (m : JsMap.t) : JsMap.get k m = None ↔ k ∉ JsMap.keys m.
Proof.
  unfold JsMap.keys. induction m as [|[k' v'] m IH]; simpl.
  - split; [intros _; apply not_elem_of_nil|done].
  - rewrite not_elem_of_cons. destruct (decide (k' = k)) as [->|Hne].
    + split; [done|]. by intros [? _].
    + rewrite IH. split; [by intros ?; split|by intros [_ ?]].
Qed.

Lemma get_Some_elem k v (m : JsMap.t) : JsMap.get k m = Some v → (k, v) ∈ m.
Proof.
  induction m as [|[k' v'] m IH]; simpl; [done|].
  destruct (decide (k' = k)) as [->|Hne].
  - intros [= ->]. by left.
  - intros Hget. right. by apply IH.
Qed.

Lemma elem_get k v (m : JsMap.t) :
  NoDup (JsMap.keys m) → (k, v) ∈ m → JsMap.get k m = Some v.
Proof.
  unfold JsMap.keys. induction m as [|[k' v'] m IH]; simpl; intros Hnd Hin.
  - by apply elem_of_nil in Hin.
  - apply NoDup_cons in Hnd as [Hk' Hnd].
    apply elem_of_cons in Hin as [[= -> ->]|Hin].
    + by rewrite decide_True.
    + rewrite decide_False; [by apply IH|]. intros ->. apply Hk'.
      apply list_elem_of_fmap. by exists (k, v).
Qed.

Lemma delete_absent k (m : JsMap.t) : k ∉ JsMap.keys m → JsMap.delete k m = m.
Proof.
  unfold JsMap.keys. induction m as [|[k' v'] m IH]; simpl; [done|].
  rewrite not_elem_of_cons. intros [Hne Hnot].
  rewrite decide_False by done. by rewrite IH.
Qed.

Lemma delete_app k (m1 m2 : JsMap.t) :
  JsMap.delete k (m1 ++ m2) = JsMap.delete k m1 ++ JsMap.delete k m2.
Proof.
  induction m1 as [|[k' v'] m1 IH]; simpl; [done|].
  destruct (decide (k' = k)); simpl; by rewrite IH.
Qed.

Lemma keys_delete_subseteq k (m : JsMap.t) :
  JsMap.keys (JsMap.delete k m) ⊆ JsMap.keys m.
Proof.
  unfold JsMap.keys. induction m as [|[k' v'] m IH]; simpl; [done|].
  destruct (decide (k' = k)); simpl.
  - intros x Hx. right. by apply IH.
  - intros x [->|Hx]%elem_of_cons; [by left|]. right. by apply IH.
Qed.

Lemma NoDup_delete k (m : JsMap.t) :
  NoDup (JsMap.keys m) → NoDup (JsMap.keys (JsMap.delete k m)).
Proof.
  unfold JsMap.keys. induction m as [|[k' v'] m IH]; simpl; [done|].
  intros [Hk' Hnd]%NoDup_cons. destruct (decide (k' = k)); simpl; [by apply IH|].
  apply NoDup_cons. split; [|by apply IH].
  intros Hin. apply Hk'. by apply (keys_delete_subseteq k m).
Qed.

Lemma keys_set_present k v (m : JsMap.t) :
  k ∈ JsMap.keys m → JsMap.keys (JsMap.set k v m) = JsMap.keys m.
Proof.
  unfold JsMap.keys. induction m as [|[k' v'] m IH]; simpl; intros Hin.
  - by apply elem_of_nil in Hin.
  - destruct (decide (k' = k)) as [->|Hne]; simpl; [done|].
    apply elem_of_cons in Hin as [->|Hin]; [done|]. f_equal. by apply IH.
Qed.

Lemma keys_set_absent k v (m : JsMap.t) :
  k ∉ JsMap.keys m → JsMap.keys (JsMap.set k v m) = JsMap.keys m ++ [k].
Proof.
  unfold JsMap.keys. induction m as [|[k' v'] m IH]; simpl; intros Hnot; [done|].
  apply not_elem_of_cons in Hnot as [Hne Hnot].
  rewrite decide_False by done. simpl. f_equal. by apply IH.
Qed.

Lemma NoDup_set k v (m : JsMap.t) :
  NoDup (JsMap.keys m) → NoDup (JsMap.keys (JsMap.set k v m)).
Proof.
  intros Hnd. destruct (decide (k ∈ JsMap.keys m)) as [Hin|Hnot].
  - by rewrite keys_set_present.
  - rewrite keys_set_absent by done.
    apply NoDup_app. split; [done|]. split; [|apply NoDup_singleton].
    intros x Hx Hx'. apply list_elem_of_singleton in Hx'. by subst.
Qed.

End Maps.

Section Poller.
Import VKStatusPoller.


Lemma keeps_refl X p : keeps X p p.
Proof. done. Qed.

Lemma keeps_trans X p1 p2 p3 : keeps X p1 p2 → keeps X p2 p3 → keeps X p1 p3.
Proof. intros (?&?&?) (?&?&?). repeat split; congruence. Qed.

Lemma keeps_forget X taskId p : taskId ≠ X → keeps X p (forget taskId p).
Proof.
  intros Hne. unfold keeps, forget; simpl. by rewrite !get_delete_ne.
Qed.

Lemma keeps_cleanupEntry X p entry :
  X ∈ activeTaskIds p → keeps X p (cleanupEntry p entry).
Proof.
  intros Hactive. destruct entry as [taskId state]. unfold cleanupEntry.
  destruct (terminalStatuses _ && negb (bool_decide (taskId ∈ activeTaskIds p))) eqn:Hc;
    [|apply keeps_refl].
  apply andb_true_iff in Hc as [_ Hc]. apply negb_true_iff, bool_decide_eq_false in Hc.
  apply keeps_forget. by intros ->.
Qed.

Lemma keeps_cleanup_loop X entries p :
  X ∈ activeTaskIds p → keeps X p (foldl cleanupEntry p entries).
Proof.
  revert p. induction entries as [|entry entries IH]; intros p Hactive; [done|].
  simpl. pose proof (keeps_cleanupEntry X p entry Hactive) as Hstep.
  eapply keeps_trans; [done|]. apply IH. destruct Hstep as [-> _]. done.
Qed.

Lemma keeps_evictLoop X keys removed entriesToRemove p :
  X ∈ activeTaskIds p → keeps X p (evictLoop keys removed entriesToRemove p).
Proof.
  revert removed p. induction keys as [|key keys IH]; intros removed p Hactive; [done|].
  simpl. case_bool_decide; [done|].
  destruct (negb (bool_decide (key ∈ activeTaskIds p))) eqn:Hkey; [|by apply IH].
  apply negb_true_iff, bool_decide_eq_false in Hkey.
  assert (keeps X p (forget key p)) as Hstep by (apply keeps_forget; by intros ->).
  eapply keeps_trans; [done|]. apply IH. destruct Hstep as [-> _]. done.
Qed.

Lemma keeps_cleanupTerminalTasks X p :
  X ∈ activeTaskIds p → keeps X p (cleanupTerminalTasks p).
Proof. apply keeps_cleanup_loop. Qed.

Lemma keeps_evictOverLimit X limit p :
  X ∈ activeTaskIds p → keeps X p (evictOverLimit limit p).
Proof.
  intros Hactive. unfold evictOverLimit. case_bool_decide; [|done].
  by apply keeps_evictLoop.
Qed.

Lemma active_kept_by_purge X p :
  X ∈ activeTaskIds p →
  keeps X p (evictOverLimit maxTrackedTasks (cleanupTerminalTasks p)).
Proof.
  intros Hactive. pose proof (keeps_cleanupTerminalTasks X p Hactive) as Hclean.
  eapply keeps_trans; [done|]. apply keeps_evictOverLimit.
  destruct Hclean as [-> _]. done.
Qed.

(** *** Eviction against its specification *)

Lemma activeTaskIds_evictLoop keys removed entriesToRemove p :
  activeTaskIds (evictLoop keys removed entriesToRemove p) = activeTaskIds p.
Proof.
  revert removed p. induction keys as [|key keys IH]; intros removed p; [done|].
  simpl. case_bool_decide; [done|].
  destruct (negb (bool_decide (key ∈ activeTaskIds p))); by rewrite IH.
Qed.

Lemma dropOldestInactive_0 active (m : JsMap.t) : dropOldestInactive active 0 m = m.
Proof. by destruct m. Qed.

(** The loop has walked [walked] and kept all of it; what it does with the
    rest is what the specification does with the rest. *)
Lemma evictLoop_spec (rest walked : JsMap.t) removed entriesToRemove p :
  lastKnownStates p = walked ++ rest →
  NoDup (JsMap.keys (walked ++ rest)) →
  lastKnownStates (evictLoop (JsMap.keys rest) removed entriesToRemove p)
  = walked ++ dropOldestInactive (activeTaskIds p) (entriesToRemove - removed) rest.
Proof.
  revert walked removed p.
  induction rest as [|[key state] rest IH]; intros walked removed p Hmap Hnd.
  - simpl. rewrite Hmap. by destruct (entriesToRemove - removed).
  - change (JsMap.keys ((key, state) :: rest)) with (key :: JsMap.keys rest).
    cbn [evictLoop]. case_bool_decide as Hdone.
    + replace (entriesToRemove - removed) with 0 by lia. by rewrite dropOldestInactive_0.
    + destruct (entriesToRemove - removed) as [|n] eqn:Hn; [lia|].
      unfold JsMap.keys in Hnd. rewrite fmap_app, fmap_cons in Hnd.
      apply NoDup_app in Hnd as (Hwalked & Hdisjoint & Hnd').
      apply NoDup_cons in Hnd' as [Hkey Hrest]. cbn [dropOldestInactive].
      case_bool_decide as Hactive; cbn [negb].
      * specialize (IH (walked ++ [(key, state)]) removed p).
        rewrite <- !app_assoc in IH. cbn [app] in IH.
        rewrite IH, Hn; [done|done|].
        unfold JsMap.keys. rewrite fmap_app, fmap_cons.
        apply NoDup_app. split; [done|]. split; [done|]. by apply NoDup_cons.
      * rewrite (IH walked (S removed) (forget key p)).
        -- cbn [forget with_maps activeTaskIds].
           by replace (entriesToRemove - S removed) with n by lia.
        -- cbn [forget with_maps lastKnownStates].
           rewrite Hmap, delete_app. cbn [JsMap.delete]. rewrite decide_True by done.
           rewrite !delete_absent; [done|done|].
           intros Hin. by apply (Hdisjoint key); [|left].
        -- unfold JsMap.keys. rewrite fmap_app. apply NoDup_app.
           split; [done|]. split; [|done].
           intros x Hx Hx'. apply (Hdisjoint x Hx). by right.
Qed.

Lemma activeCount_le active (m : JsMap.t) : activeCount active m ≤ length m.
Proof. apply length_filter. Qed.

Lemma activeCount_cons active k v (m : JsMap.t) :
  activeCount active ((k, v) :: m)
  = (if bool_decide (k ∈ active) then 1 else 0) + activeCount active m.
Proof.
  unfold activeCount. rewrite filter_cons. simpl.
  case_bool_decide; [by rewrite decide_True|by rewrite decide_False].
Qed.

Lemma length_dropOldestInactive active n (m : JsMap.t) :
  length (dropOldestInactive active n m)
  = length m - Nat.min n (length m - activeCount active m).
Proof.
  revert n. induction m as [|[k v] m IH]; intros n.
  - destruct n; simpl; lia.
  - destruct n as [|n]; [simpl; lia|].
    pose proof (activeCount_le active m).
    rewrite activeCount_cons. cbn [dropOldestInactive].
    case_bool_decide; cbn [length]; rewrite IH; lia.
Qed.

Lemma activeCount_dropOldestInactive active n (m : JsMap.t) :
  activeCount active (dropOldestInactive active n m) = activeCount active m.
Proof.
  revert n. induction m as [|[k v] m IH]; intros n.
  - by destruct n.
  - destruct n as [|n]; [done|]. simpl. case_bool_decide as Hk.
    + rewrite !activeCount_cons, IH. done.
    + rewrite activeCount_cons, IH. by rewrite bool_decide_eq_false_2.
Qed.

Lemma filter_dropOldestInactive active n (m : JsMap.t) :
  filter (λ e, e.1 ∈ active) (dropOldestInactive active n m)
  = filter (λ e, e.1 ∈ active) m.
Proof.
  revert n. induction m as [|[k v] m IH]; intros n.
  - by destruct n.
  - destruct n as [|n]; [done|]. cbn [dropOldestInactive]. case_bool_decide as Hk.
    + rewrite !filter_cons. simpl. by rewrite !decide_True, IH.
    + rewrite IH, filter_cons. simpl. by rewrite decide_False.
Qed.

(** The entries are those of [m] in the order of [m]. *)
Lemma dropOldestInactive_sublist active n (m : JsMap.t) :
  dropOldestInactive active n m `sublist_of` m.
Proof.
  revert n. induction m as [|[k v] m IH]; intros n.
  - by destruct n.
  - destruct n as [|n]; [done|]. simpl. case_bool_decide.
    + by apply sublist_skip.
    + by apply sublist_cons.
Qed.

Lemma evictOverLimit_spec limit p :
  NoDup (JsMap.keys (lastKnownStates p)) →
  lastKnownStates (evictOverLimit limit p)
  = dropOldestInactive (activeTaskIds p)
      (JsMap.size (lastKnownStates p) - limit) (lastKnownStates p).
Proof.
  intros Hnd. unfold evictOverLimit. case_bool_decide as Hover.
  - by rewrite (evictLoop_spec (lastKnownStates p) [] 0), Nat.sub_0_r.
  - replace (JsMap.size (lastKnownStates p) - limit) with 0 by lia.
    by rewrite dropOldestInactive_0.
Qed.

Lemma dropOldestInactive_all_active active n (m : JsMap.t) :
  length m - activeCount active m ≤ n →
  ∀ e, e ∈ dropOldestInactive active n m → e.1 ∈ active.
Proof.
  revert n. induction m as [|[k v] m IH]; intros n Hn e He.
  - destruct n; by apply elem_of_nil in He.
  - pose proof (activeCount_le active m).
    rewrite activeCount_cons in Hn. cbn [length] in Hn.
    destruct n as [|n].
    + case_bool_decide as Hk; [|lia].
      apply elem_of_cons in He as [->|He]; [done|].
      apply (IH 0); [lia|]. by rewrite dropOldestInactive_0.
    + cbn [dropOldestInactive] in He. case_bool_decide as Hk.
      * apply elem_of_cons in He as [->|He]; [done|]. apply (IH (S n)); [lia|done].
      * apply (IH n); [lia|done].
Qed.

(** *** Processing a response *)

Lemma notificationsFor_app X out1 out2 :
  notificationsFor X (out1 ++ out2) = notificationsFor X out1 ++ notificationsFor X out2.
Proof. unfold notificationsFor. apply omap_app. Qed.

Lemma notificationsFor_notify_other X p task :
  id task ≠ X → notificationsFor X (notify p task) = [].
Proof.
  intros Hne. unfold notify. destruct (onTaskUpdate p); [|done].
  simpl. by rewrite bool_decide_eq_false_2.
Qed.

Lemma notificationsFor_notify_same p task :
  onTaskUpdate p = true → notificationsFor (id task) (notify p task) = [task].
Proof.
  intros Hcb. unfold notify. rewrite Hcb. simpl. by rewrite bool_decide_eq_true_2.
Qed.

Lemma get_delete_None X k (m : JsMap.t) :
  JsMap.get X m = None → JsMap.get X (JsMap.delete k m) = None.
Proof.
  intros Hnone. destruct (decide (k = X)) as [->|Hne].
  - apply get_delete_eq.
  - by rewrite get_delete_ne.
Qed.


Lemma checkDeleted_cases projectId current p out taskId taskProjectId :
  checkDeleted projectId current (p, out) (taskId, taskProjectId) = (p, out) ∨
  (taskProjectId = projectId ∧ (taskId ∉ current) ∧
   (∃ lastStatus, JsMap.get taskId (lastKnownStates p) = Some lastStatus ∧
                  guard lastStatus = true) ∧
   checkDeleted projectId current (p, out) (taskId, taskProjectId)
   = (forget taskId p, out ++ notify p (deletedTask taskId projectId))).
Proof.
  unfold checkDeleted.
  case_bool_decide as Hproject; simpl; [|by left].
  case_bool_decide as Hcurrent; simpl; [by left|].
  destruct (JsMap.get taskId (lastKnownStates p)) as [lastStatus|] eqn:Hlast; [|by left].
  fold (guard lastStatus). destruct (guard lastStatus) eqn:Hguard; [|by left].
  right. eauto 10.
Qed.

Lemma checkDeleted_fires projectId current p out taskId lastStatus :
  taskId ∉ current →
  JsMap.get taskId (lastKnownStates p) = Some lastStatus → guard lastStatus = true →
  checkDeleted projectId current (p, out) (taskId, projectId)
  = (forget taskId p, out ++ notify p (deletedTask taskId projectId)).
Proof.
  intros Hcurrent Hlast Hguard. unfold checkDeleted.
  rewrite bool_decide_eq_true_2, bool_decide_eq_false_2 by done. simpl.
  rewrite Hlast. fold (guard lastStatus). by rewrite Hguard.
Qed.


Lemma apart_refl X acc : apart X acc acc.
Proof. done. Qed.

Lemma apart_trans X a b c : apart X a b → apart X b c → apart X a c.
Proof.
  intros (?&?&?) (?&?&?). split; [congruence|]. split; [|congruence].
  by eapply keeps_trans.
Qed.

Lemma checkDeleted_apart X projectId current acc entry :
  entry.1 ≠ X → apart X acc (checkDeleted projectId current acc entry).
Proof.
  destruct acc as [p out], entry as [taskId taskProjectId]. intros Hne. simpl in Hne.
  destruct (checkDeleted_cases projectId current p out taskId taskProjectId)
    as [->|(_ & _ & _ & ->)]; [apply apart_refl|].
  split; [done|]. split; [by apply keeps_forget|]. simpl.
  rewrite notificationsFor_app, notificationsFor_notify_other, app_nil_r; done.
Qed.

Lemma checkDeleted_held X projectId current acc entry :
  (entry.1 = X → entry.2 ≠ projectId ∨ X ∈ current) →
  apart X acc (checkDeleted projectId current acc entry).
Proof.
  destruct acc as [p out], entry as [taskId taskProjectId]. intros Hheld. simpl in Hheld.
  destruct (decide (taskId = X)) as [->|Hne]; [|by apply checkDeleted_apart].
  destruct (checkDeleted_cases projectId current p out X taskProjectId)
    as [->|(-> & Hnot & _ & _)]; [apply apart_refl|].
  destruct (Hheld eq_refl); done.
Qed.

Lemma deleted_loop_held X projectId current entries acc :
  (∀ taskProjectId, (X, taskProjectId) ∈ entries → taskProjectId ≠ projectId ∨ X ∈ current) →
  apart X acc (foldl (checkDeleted projectId current) acc entries).
Proof.
  revert acc. induction entries as [|[k proj] entries IH]; intros acc Hheld; [done|].
  simpl. eapply apart_trans.
  - apply (checkDeleted_held X projectId current acc (k, proj)).
    simpl. intros ->. apply Hheld. by left.
  - apply IH. intros proj' Hin. apply Hheld. by right.
Qed.

(** A tracked task of the project that the response lacks is forgotten and
    reported once. *)
Lemma deleted_loop_removes X projectId current entries p out lastStatus :
  NoDup entries.*1 → (X, projectId) ∈ entries → X ∉ current →
  JsMap.get X (lastKnownStates p) = Some lastStatus → guard lastStatus = true →
  let acc' := foldl (checkDeleted projectId current) (p, out) entries in
  onTaskUpdate acc'.1 = onTaskUpdate p ∧
  activeTaskIds acc'.1 = activeTaskIds p ∧
  JsMap.get X (lastKnownStates acc'.1) = None ∧
  JsMap.get X (taskProjectMap acc'.1) = None ∧
  notificationsFor X acc'.2
  = notificationsFor X out ++ notificationsFor X (notify p (deletedTask X projectId)).
Proof.
  revert p out. induction entries as [|[k proj] entries IH];
    intros p out Hnd Hin Hcurrent Hlast Hguard.
  - by apply elem_of_nil in Hin.
  - rewrite fmap_cons in Hnd. apply NoDup_cons in Hnd as [Hk Hnd]. simpl in Hk.
    cbn [foldl]. apply elem_of_cons in Hin as [[= <- <-]|Hin].
    + rewrite (checkDeleted_fires _ _ _ _ _ _ Hcurrent Hlast Hguard).
      destruct (deleted_loop_held X projectId current entries
                  (forget X p, out ++ notify p (deletedTask X projectId)))
        as (Hcb & (Hactive & Hstates & Hprojects) & Hout).
      { intros proj Hproj. exfalso. apply Hk. apply list_elem_of_fmap.
        by exists (X, proj). }
      simpl in *. rewrite Hcb, Hactive, Hstates, Hprojects, Hout.
      by rewrite !get_delete_eq, notificationsFor_app.
    + assert (k ≠ X) as Hne.
      { intros ->. apply Hk. apply list_elem_of_fmap. by exists (X, projectId). }
      destruct (checkDeleted projectId current (p, out) (k, proj)) as [p1 out1] eqn:Hstep.
      pose proof (checkDeleted_apart X projectId current (p, out) (k, proj) Hne) as Hapart.
      rewrite Hstep in Hapart.
      destruct Hapart as (Hcb & (Hactive & Hstates & Hprojects) & Hout). simpl in *.
      destruct (IH p1 out1 Hnd Hin Hcurrent) as (Hcb' & Hactive' & Hs' & Hp' & Hout');
        [congruence|done|].
      rewrite Hcb', Hactive', Hs', Hp', Hout', Hcb, Hactive, Hout.
      split; [done|]. split; [done|]. split; [done|]. split; [done|].
      unfold notify. by rewrite Hcb.
Qed.

Lemma observe_onTaskUpdate projectId acc task :
  onTaskUpdate (observe projectId acc task).1 = onTaskUpdate acc.1 ∧
  activeTaskIds (observe projectId acc task).1 = activeTaskIds acc.1.
Proof. by destruct acc. Qed.

Lemma observe_apart X projectId acc task :
  id task ≠ X → apart X acc (observe projectId acc task).
Proof.
  destruct acc as [p out]. intros Hne. unfold observe, apart, keeps; simpl.
  rewrite !get_set_ne by done. split; [done|]. split; [done|].
  rewrite notificationsFor_app.
  destruct (JsMap.get (id task) (lastKnownStates p)) as [last|]; simpl;
    [|by rewrite app_nil_r].
  case_bool_decide; simpl; [by rewrite app_nil_r|].
  by rewrite notificationsFor_notify_other, app_nil_r.
Qed.


Lemma cleanup_loop_None X entries p :
  JsMap.get X (lastKnownStates p) = None → JsMap.get X (taskProjectMap p) = None →
  JsMap.get X (lastKnownStates (foldl cleanupEntry p entries)) = None ∧
  JsMap.get X (taskProjectMap (foldl cleanupEntry p entries)) = None.
Proof.
  revert p. induction entries as [|[k state] entries IH]; intros p Hs Hp; [done|].
  simpl. apply IH; unfold cleanupEntry;
    destruct (terminalStatuses _ && _); simpl; auto using get_delete_None.
Qed.

Lemma evictLoop_None X keys removed entriesToRemove p :
  JsMap.get X (lastKnownStates p) = None → JsMap.get X (taskProjectMap p) = None →
  JsMap.get X (lastKnownStates (evictLoop keys removed entriesToRemove p)) = None ∧
  JsMap.get X (taskProjectMap (evictLoop keys removed entriesToRemove p)) = None.
Proof.
  revert removed p. induction keys as [|key keys IH]; intros removed p Hs Hp; [done|].
  simpl. case_bool_decide; [done|].
  destruct (negb _); apply IH; simpl; auto using get_delete_None.
Qed.

Lemma purge_None X limit p :
  JsMap.get X (lastKnownStates p) = None → JsMap.get X (taskProjectMap p) = None →
  JsMap.get X (lastKnownStates (evictOverLimit limit (cleanupTerminalTasks p))) = None ∧
  JsMap.get X (taskProjectMap (evictOverLimit limit (cleanupTerminalTasks p))) = None.
Proof.
  intros Hs Hp. destruct (cleanup_loop_None X (lastKnownStates p) p Hs Hp) as [Hs' Hp'].
  fold (cleanupTerminalTasks p) in Hs', Hp'.
  unfold evictOverLimit. case_bool_decide; [|done]. by apply evictLoop_None.
Qed.

Lemma changes_loop_absent X projectId tasks acc :
  X ∉ id <$> tasks → apart X acc (foldl (observe projectId) acc tasks).
Proof.
  revert acc. induction tasks as [|task tasks IH]; intros acc Habsent; [done|].
  rewrite fmap_cons in Habsent. apply not_elem_of_cons in Habsent as [Hne Habsent].
  simpl. eapply apart_trans; [by apply observe_apart|by apply IH].
Qed.

Lemma changes_loop_recorded X projectId tasks acc :
  is_Some (JsMap.get X (lastKnownStates acc.1)) →
  is_Some (JsMap.get X (lastKnownStates (foldl (observe projectId) acc tasks).1)).
Proof.
  revert acc. induction tasks as [|task tasks IH]; intros [p out] Hsome; [done|].
  simpl. apply IH. simpl. destruct (decide (id task = X)) as [<-|Hne].
  - by rewrite get_set_eq.
  - by rewrite get_set_ne.
Qed.

Lemma deleted_loop_activeTaskIds projectId current entries acc :
  activeTaskIds (foldl (checkDeleted projectId current) acc entries).1
  = activeTaskIds acc.1.
Proof.
  revert acc. induction entries as [|[k proj] entries IH]; intros [p out]; [done|].
  cbn [foldl]. rewrite IH.
  by destruct (checkDeleted_cases projectId current p out k proj)
    as [->|(_ & _ & _ & ->)].
Qed.

Lemma changes_loop_activeTaskIds projectId tasks acc :
  activeTaskIds (foldl (observe projectId) acc tasks).1 = activeTaskIds acc.1.
Proof.
  revert acc. induction tasks as [|task tasks IH]; intros [p out]; [done|].
  simpl. by rewrite IH.
Qed.

(** The deletion loop does not read the active set. *)
Lemma checkDeleted_with_active active projectId current p out entry :
  checkDeleted projectId current (with_active active p, out) entry
  = (with_active active (checkDeleted projectId current (p, out) entry).1,
     (checkDeleted projectId current (p, out) entry).2).
Proof.
  destruct entry as [taskId taskProjectId]. unfold checkDeleted; simpl.
  destruct (bool_decide _ && negb _); [|done].
  destruct (JsMap.get taskId (lastKnownStates p)); [|done].
  by destruct (truthy _ && negb _).
Qed.

Lemma deleted_loop_with_active active projectId current entries p out :
  foldl (checkDeleted projectId current) (with_active active p, out) entries
  = (with_active active (foldl (checkDeleted projectId current) (p, out) entries).1,
     (foldl (checkDeleted projectId current) (p, out) entries).2).
Proof.
  revert p out. induction entries as [|entry entries IH]; intros p out; [done|].
  cbn [foldl]. rewrite checkDeleted_with_active.
  destruct (checkDeleted projectId current (p, out) entry) as [p1 out1]. apply IH.
Qed.

Lemma processResponse_unfold projectId tasks p :
  processResponse projectId tasks p
  = (evictOverLimit maxTrackedTasks
       (cleanupTerminalTasks
          (detectChanges projectId tasks (detectDeleted projectId tasks p).1).1),
     (detectDeleted projectId tasks p).2
     ++ (detectChanges projectId tasks (detectDeleted projectId tasks p).1).2).
Proof.
  unfold processResponse. destruct (detectDeleted projectId tasks p) as [p1 gone].
  simpl. by destruct (detectChanges projectId tasks p1) as [p2 changed].
Qed.


(** A tracked task of the project that the response lacks. *)
Lemma processResponse_deleted X projectId tasks p lastStatus :
  NoDup (JsMap.keys (taskProjectMap p)) →
  JsMap.get X (taskProjectMap p) = Some projectId →
  JsMap.get X (lastKnownStates p) = Some lastStatus → guard lastStatus = true →
  X ∉ id <$> tasks →
  let result := processResponse projectId tasks p in
  JsMap.get X (lastKnownStates result.1) = None ∧
  JsMap.get X (taskProjectMap result.1) = None ∧
  notificationsFor X result.2 = notificationsFor X (notify p (deletedTask X projectId)).
Proof.
  intros Hnd Hproject Hlast Hguard Habsent result. unfold result.
  rewrite processResponse_unfold. simpl.
  unfold detectDeleted, detectChanges.
  set (current := list_to_set (id <$> tasks) : gset string).
  destruct (deleted_loop_removes X projectId current (taskProjectMap p) p [] lastStatus)
    as (_ & _ & Hstates & Hprojects & Hout); [done|by apply get_Some_elem| |done|done|].
  { unfold current. by rewrite elem_of_list_to_set. }
  destruct (foldl (checkDeleted projectId current) (p, []) (taskProjectMap p))
    as [p1 gone]. simpl in *.
  destruct (changes_loop_absent X projectId tasks (p1, []) Habsent)
    as (_ & (_ & Hstates2 & Hprojects2) & Hout2).
  destruct (foldl (observe projectId) (p1, []) tasks) as [p2 changed]. simpl in *.
  rewrite notificationsFor_app, Hout, Hout2. simpl. rewrite app_nil_r.
  split; [|split; [|done]]; apply purge_None; congruence.
Qed.

(** The only way in which a response takes the record of an active task
    away: the task is mapped to the project and the response lacks it. *)
Lemma processResponse_active_removed X projectId tasks p :
  X ∈ activeTaskIds p → NoDup (JsMap.keys (taskProjectMap p)) →
  is_Some (JsMap.get X (lastKnownStates p)) →
  JsMap.get X (lastKnownStates (processResponse projectId tasks p).1) = None →
  JsMap.get X (taskProjectMap p) = Some projectId ∧ X ∉ id <$> tasks.
Proof.
  intros Hactive Hnd Hsome Hnone.
  destruct (decide (JsMap.get X (taskProjectMap p) = Some projectId ∧ X ∉ id <$> tasks))
    as [|Hnot]; [done|]. exfalso.
  rewrite processResponse_unfold in Hnone. simpl in Hnone.
  unfold detectDeleted, detectChanges in Hnone.
  set (current := list_to_set (id <$> tasks) : gset string) in *.
  destruct (deleted_loop_held X projectId current (taskProjectMap p) (p, []))
    as (_ & (Hactive1 & Hstates1 & _) & _).
  { intros proj Hin. destruct (decide (X ∈ id <$> tasks)) as [Hx|Hx].
    - right. by apply elem_of_list_to_set.
    - left. intros ->. apply Hnot. split; [|done]. by apply elem_get. }
  destruct (foldl (checkDeleted projectId current) (p, []) (taskProjectMap p))
    as [p1 gone]. simpl in *.
  pose proof (changes_loop_recorded X projectId tasks (p1, [])) as Hrecorded.
  pose proof (changes_loop_activeTaskIds projectId tasks (p1, [])) as Hactive2.
  destruct (foldl (observe projectId) (p1, []) tasks) as [p2 changed]. simpl in *.
  assert (X ∈ activeTaskIds p2) as Hactive' by congruence.
  destruct (active_kept_by_purge X p2 Hactive') as (_ & Hkept & _).
  rewrite Hkept in Hnone.
  destruct Hrecorded as [s Hs]; [by rewrite Hstates1|]. congruence.
Qed.

(** *** Combined states *)

Lemma list_ascii_of_append (s t : string) :
  list_ascii_of_string (s +:+ t) = list_ascii_of_string s ++ list_ascii_of_string t.
Proof. induction s as [|c s IH]; simpl; [done|]. by rewrite IH. Qed.



(** No combined state is the empty string or the bare word [deleted], so
    the guard of the deletion loop lets every recorded state through. *)
Lemma guard_combinedState status executing :
  guard (combinedState status executing) = true.
Proof.
  unfold guard, truthy. apply andb_true_iff.
  split; apply negb_true_iff, bool_decide_eq_false; intros Heq.
  - unfold combinedState in Heq. by destruct status.
  - apply (f_equal list_ascii_of_string) in Heq. unfold combinedState in Heq.
    rewrite !list_ascii_of_append in Heq.
    assert (":"%char ∈ list_ascii_of_string "deleted") as Hin.
    { rewrite <- Heq. apply elem_of_app. right. by left. }
    simpl in Hin. by repeat (apply elem_of_cons in Hin as [?|Hin]; [done|]);
      apply elem_of_nil in Hin.
Qed.

(** The status is the part of the combined state before the first colon,
    when the status itself has none. *)
Lemma splitHead_combinedState status executing :
  ":"%char ∉ list_ascii_of_string status →
  splitHead (combinedState status executing) = status.
Proof.
  unfold combinedState. induction status as [|c status IH]; simpl; intros Hnot.
  - done.
  - apply not_elem_of_cons in Hnot as [Hne Hnot].
    rewrite decide_False by done. by rewrite IH.
Qed.

(** *** The poll cycle *)

Lemma control_forget taskId p : control (forget taskId p) = control p.
Proof. done. Qed.

Lemma control_deleted_loop projectId current entries acc :
  control (foldl (checkDeleted projectId current) acc entries).1 = control acc.1.
Proof.
  revert acc. induction entries as [|[k proj] entries IH]; intros [p out]; [done|].
  cbn [foldl]. rewrite IH.
  by destruct (checkDeleted_cases projectId current p out k proj)
    as [->|(_ & _ & _ & ->)].
Qed.

Lemma control_changes_loop projectId tasks acc :
  control (foldl (observe projectId) acc tasks).1 = control acc.1.
Proof.
  revert acc. induction tasks as [|task tasks IH]; intros [p out]; [done|].
  cbn [foldl]. by rewrite IH.
Qed.

Lemma control_cleanup_loop entries p :
  control (foldl cleanupEntry p entries) = control p.
Proof.
  revert p. induction entries as [|[k state] entries IH]; intros p; [done|].
  cbn [foldl]. rewrite IH. unfold cleanupEntry. by destruct (terminalStatuses _ && _).
Qed.

Lemma control_evictLoop keys removed entriesToRemove p :
  control (evictLoop keys removed entriesToRemove p) = control p.
Proof.
  revert removed p. induction keys as [|key keys IH]; intros removed p; [done|].
  cbn [evictLoop]. case_bool_decide; [done|]. destruct (negb _); by rewrite IH.
Qed.

Lemma control_processResponse projectId tasks p :
  control (processResponse projectId tasks p).1 = control p.
Proof.
  rewrite processResponse_unfold. cbn [fst].
  unfold evictOverLimit. case_bool_decide; rewrite ?control_evictLoop;
    unfold cleanupTerminalTasks, detectChanges, detectDeleted;
    rewrite control_cleanup_loop, control_changes_loop; cbn [fst];
    by rewrite control_deleted_loop.
Qed.

Lemma scan_None (l : JsSet.t) pos : JsSet.scan l pos = None → JsSet.elements l = [].
Proof.
  revert pos. induction l as [|[x|] l IH]; intros pos; simpl; [done|done|apply IH].
Qed.

Lemma scan_Some (l : JsSet.t) pos x pos' :
  JsSet.scan l pos = Some (x, pos') →
  ∃ n, pos' = pos + S n ∧ JsSet.elements l = x :: JsSet.elements (drop (S n) l).
Proof.
  revert pos. induction l as [|[y|] l IH]; intros pos; simpl; [done|..].
  - intros [= -> <-]. exists 0. split; [lia|]. by rewrite drop_0.
  - intros Hscan. destruct (IH _ Hscan) as (n & -> & Heq).
    exists (S n). split; [lia|done].
Qed.

Lemma next_None s pos : JsSet.next s pos = None → remaining s pos = [].
Proof. apply scan_None. Qed.

Lemma next_Some s pos x pos' :
  JsSet.next s pos = Some (x, pos') → remaining s pos = x :: remaining s pos'.
Proof.
  intros Hnext. apply scan_Some in Hnext as (n & -> & Heq).
  unfold remaining. rewrite Heq, drop_drop. done.
Qed.

Lemma with_suspended_twice fs w :
  suspended w = [] → with_suspended [] (with_suspended fs w) = w.
Proof. destruct w; simpl; by intros ->. Qed.


Lemma cycleDone_from failed w w' acc :
  control (this w) = control (this w') → sets w = sets w' →
  cycleDone failed w acc → cycleDone failed w' acc.
Proof.
  unfold control, cycleDone. intros [= _ _ Herrors _ _ _ Hids _] Hsets.
  by rewrite Herrors, Hids, Hsets.
Qed.

Lemma finishPoll_done hasError w out :
  isPolling (this w) = true → suspended w = [] →
  cycleDone hasError w ((finishPoll hasError w).1, out ++ (finishPoll hasError w).2).
Proof.
  intros Hpolling Hsuspended. unfold finishPoll, cycleDone.
  destruct hasError; simpl; rewrite Hpolling; simpl;
    (repeat split; try done); exists (nextTimer w); by rewrite last_snoc.
Qed.

Lemma cycle_answers set s baseUrl answers pos hasError w out :
  isPolling (this w) = true → suspended w = [] → sets w !! set = Some s →
  length answers = length (remaining s pos) →
  cycleDone (hasError || existsb isThrows answers) w
    (foldl answer ((pollLoop set pos baseUrl hasError w).1,
                   out ++ (pollLoop set pos baseUrl hasError w).2) answers).
Proof.
  revert pos hasError w out.
  induction answers as [|r answers IH]; intros pos hasError w out Hpolling Hsusp Hset Hlen.
  - unfold pollLoop. rewrite Hset. simpl.
    destruct (JsSet.next s pos) as [[x pos']|] eqn:Hnext.
    { apply next_Some in Hnext. rewrite Hnext in Hlen. done. }
    rewrite orb_false_r. by apply finishPoll_done.
  - unfold pollLoop at 1 2. rewrite Hset. simpl.
    destruct (JsSet.next s pos) as [[x pos']|] eqn:Hnext;
      [|apply next_None in Hnext; by rewrite Hnext in Hlen].
    apply next_Some in Hnext. rewrite Hnext in Hlen. simpl in Hlen.
    rewrite Hpolling, Hsusp. simpl. unfold answer at 2. simpl.
    rewrite (with_suspended_twice _ w Hsusp).
    destruct r as [code data|]; simpl.
    + case_bool_decide as Hcode.
      * destruct (processResponse x (default [] data) (this w)) as [p' outp] eqn:Hp.
        pose proof (control_processResponse x (default [] data) (this w)) as Hcontrol.
        rewrite Hp in Hcontrol. simpl in Hcontrol.
        specialize (IH pos' hasError (with_this p' w) ((out ++ [Request baseUrl x]) ++ outp)).
        destruct (pollLoop set pos' baseUrl hasError (with_this p' w)) as [w' out'] eqn:Hloop.
        rewrite app_assoc. apply (cycleDone_from _ (with_this p' w)); [done|done|].
        apply IH; [|done|done|lia].
        unfold control in Hcontrol. simpl. congruence.
      * specialize (IH pos' hasError w (out ++ [Request baseUrl x])).
        destruct (pollLoop set pos' baseUrl hasError w) as [w' out'] eqn:Hloop.
        simpl in *. apply IH; [done..|lia].
    + specialize (IH pos' true w (out ++ [Request baseUrl x])).
      destruct (pollLoop set pos' baseUrl true w) as [w' out'] eqn:Hloop.
      simpl in *. rewrite orb_true_r. apply IH; [done..|lia].
Qed.

Lemma pollCycle_done answers w s :
  isPolling (this w) = true → suspended w = [] →
  sets w !! projectIds (this w) = Some s → length answers = JsSet.size s →
  cycleDone (existsb isThrows answers) w (pollCycle answers w).
Proof.
  intros Hpolling Hsusp Hset Hlen. unfold pollCycle, poll. rewrite Hpolling. simpl.
  pose proof (cycle_answers (projectIds (this w)) s
                (stripTrailingSlashes (vkUrl (this w))) answers 0 false w []
                Hpolling Hsusp Hset) as Hcycle.
  unfold remaining in Hcycle. rewrite drop_0 in Hcycle. specialize (Hcycle Hlen).
  simpl in Hcycle.
  by destruct (pollLoop (projectIds (this w)) 0 (stripTrailingSlashes (vkUrl (this w)))
                 false w).
Qed.

(** Failing cycles in a row count up. *)
Lemma pollCycles_failing cycles w s :
  isPolling (this w) = true → suspended w = [] →
  sets w !! projectIds (this w) = Some s →
  (∀ answers, answers ∈ cycles →
     length answers = JsSet.size s ∧ existsb isThrows answers = true) →
  let r := pollCycles cycles w in
  isPolling (this r.1) = true ∧ suspended r.1 = [] ∧
  sets r.1 !! projectIds (this r.1) = Some s ∧
  consecutiveErrors (this r.1)
  = (consecutiveErrors (this w) + Z.of_nat (length cycles))%Z ∧
  (cycles ≠ [] →
   currentBackoff (this r.1) = backoffAfter (consecutiveErrors (this r.1)) ∧
   ∃ timer, last r.2 = Some (SetTimeout timer (currentBackoff (this r.1)))).
Proof.
  intros Hpolling Hsusp Hset. unfold pollCycles.
  induction cycles as [|answers cycles IH] using rev_ind; intros Hall.
  - simpl. repeat split; try done. lia.
  - rewrite foldl_app. cbn [foldl].
    destruct IH as (Hp & Hs & Hset' & He & _).
    { intros a Ha. apply Hall, elem_of_app. by left. }
    destruct (Hall answers) as [Hlen Hfail]; [apply elem_of_app; right; by left|].
    destruct (pollCycle_done answers _ s Hp Hs Hset' Hlen)
      as (H1 & H2 & H3 & H4 & H5 & H6 & H7).
    rewrite Hfail in H5, H6.
    split; [done|]. split; [done|]. split; [by rewrite H2, H4|].
    split; [rewrite H5, He, length_app; simpl; lia|].
    intros _. split; [by rewrite H6, H5|done].
Qed.

(** *** The events and the records *)

Lemma tracking_finishPoll hasError w :
  tracking (this (finishPoll hasError w).1) = tracking (this w).
Proof. unfold finishPoll. destruct hasError; simpl; by destruct (isPolling (this w)). Qed.

Lemma tracking_pollLoop set pos baseUrl hasError w :
  tracking (this (pollLoop set pos baseUrl hasError w).1) = tracking (this w).
Proof.
  unfold pollLoop. destruct (JsSet.next _ pos) as [[x pos']|];
    [|apply tracking_finishPoll].
  by destruct (negb (isPolling (this w))).
Qed.

Lemma tracking_poll w : tracking (this (poll w).1) = tracking (this w).
Proof.
  unfold poll. destruct (negb (isPolling (this w))); [done|]. apply tracking_pollLoop.
Qed.

Lemma tracking_start url ids dbg w :
  tracking (this (start url ids dbg w).1) = tracking (this w).
Proof.
  unfold start. destruct (isPolling (this w)); [done|].
  case_bool_decide; [done|]. by rewrite tracking_poll.
Qed.

Lemma tracking_addProject projectId w :
  tracking (this (addProject projectId w)) = tracking (this w).
Proof. unfold addProject. by destruct (truthy projectId && _). Qed.

Lemma tracking_states p p' :
  tracking p' = tracking p → lastKnownStates p' = lastKnownStates p.
Proof. by intros [= -> _ _]. Qed.

(** The events after which an active task that had a record has none. *)
Lemma active_task_cleared w e X :
  X ∈ activeTaskIds (this w) →
  NoDup (JsMap.keys (taskProjectMap (this w))) →
  is_Some (JsMap.get X (lastKnownStates (this w))) →
  JsMap.get X (lastKnownStates (this (step w e).1)) = None →
  e = UntrackTask X ∨ e = Stop ∨ showsGone w X e.
Proof.
  intros Hactive Hnd [s Hs] Hnone.
  destruct e as [url ids dbg|projectId|taskId|taskId|taskId st ex| |timer|k r];
    simpl in Hnone.
  - rewrite (tracking_states _ _ (tracking_start url ids dbg w)) in Hnone. congruence.
  - rewrite (tracking_states _ _ (tracking_addProject projectId w)) in Hnone. congruence.
  - congruence.
  - destruct (decide (taskId = X)) as [->|Hne]; [by left|].
    rewrite get_delete_ne in Hnone by done. congruence.
  - destruct (decide (taskId = X)) as [->|Hne].
    + by rewrite get_set_eq in Hnone.
    + rewrite get_set_ne in Hnone by done. congruence.
  - right. by left.
  - case_bool_decide; [|simpl in Hnone; congruence].
    rewrite (tracking_states _ _ (tracking_poll _)) in Hnone. simpl in Hnone. congruence.
  - destruct (suspended w !! k) as [f|] eqn:Hk; [|simpl in Hnone; congruence].
    unfold resume in Hnone. destruct r as [code data|].
    + case_bool_decide as Hcode.
      * destruct (processResponse (f_projectId f) (default [] data) (this _))
          as [p' outp] eqn:Hp.
        destruct (pollLoop _ _ _ _ (with_this p' _)) as [w' out'] eqn:Hloop.
        pose proof (tracking_pollLoop (f_set f) (f_pos f) (f_baseUrl f) (f_hasError f)
                      (with_this p' (with_suspended (delete k (suspended w)) w))) as Htr.
        rewrite Hloop in Htr. simpl in Htr, Hnone.
        rewrite (tracking_states _ _ Htr) in Hnone.
        destruct (processResponse_active_removed X (f_projectId f) (default [] data)
                    (this w)) as [Hproject Habsent]; [done|done|by exists s| |].
        { simpl in Hp. by rewrite Hp. }
        right. right. exists k, f, data. by subst code.
      * rewrite (tracking_states _ _ (tracking_pollLoop _ _ _ _ _)) in Hnone.
        simpl in Hnone. congruence.
    + rewrite (tracking_states _ _ (tracking_pollLoop _ _ _ _ _)) in Hnone.
      simpl in Hnone. congruence.
Qed.

(** ** Cleanup and eviction *)

(** C7.  A task in [activeTaskIds] keeps its entry in [lastKnownStates] and
    in [taskProjectMap], whatever its recorded state, through
    [cleanupTerminalTasks], through capacity eviction, and through the two
    in the order in which [poll] runs them. *)
Theorem active_task_survives_cleanup_and_eviction p X :
  X ∈ activeTaskIds p →
  keeps X p (cleanupTerminalTasks p) ∧
  keeps X p (evictOverLimit maxTrackedTasks p) ∧
  keeps X p (evictOverLimit maxTrackedTasks (cleanupTerminalTasks p)).
Proof.
  intros Hactive. split; [by apply keeps_cleanupTerminalTasks|].
  split; [by apply keeps_evictOverLimit|by apply active_kept_by_purge].
Qed.

Lemma eviction_within limit p :
  NoDup (JsMap.keys (lastKnownStates p)) →
  let m := lastKnownStates p in
  let active := activeTaskIds p in
  let m' := lastKnownStates (evictOverLimit limit p) in
  m' = dropOldestInactive active (JsMap.size m - limit) m ∧
  filter (λ e, e.1 ∈ active) m' = filter (λ e, e.1 ∈ active) m ∧
  (JsMap.size m ≤ limit → m' = m) ∧
  (limit < JsMap.size m → JsMap.size m' = Nat.max limit (activeCount active m)) ∧
  (limit < JsMap.size m' →
     JsMap.size m' - limit = activeCount active m - limit ∧
     ∀ e, e ∈ m' → e.1 ∈ active).
Proof.
  intros Hnd m active m'.
  assert (m' = dropOldestInactive active (JsMap.size m - limit) m) as Hspec
    by (by apply evictOverLimit_spec).
  pose proof (activeCount_le active m) as Hle.
  pose proof (length_dropOldestInactive active (JsMap.size m - limit) m) as Hlen.
  rewrite <- Hspec in Hlen. unfold JsMap.size in *.
  split; [done|]. split; [|split; [|split]].
  - rewrite Hspec. apply filter_dropOldestInactive.
  - intros Hin. rewrite Hspec. replace (length m - limit) with 0 by lia.
    apply dropOldestInactive_0.
  - intros Hover. lia.
  - intros Hover. split; [lia|]. rewrite Hspec.
    apply dropOldestInactive_all_active. lia.
Qed.

(** C8.  After the eviction pass of [poll], on a map with one entry per
    key: the map is the old one without its oldest inactive entries, as
    many as the map was over the limit (or all of them if there are
    fewer); every active entry is still there; a map within the limit is
    untouched; a map over the limit ends at the limit, or at the number of
    its active entries if that is larger, and then holds active entries
    only. *)
Theorem eviction_respects_limit_and_active_set p :
  NoDup (JsMap.keys (lastKnownStates p)) →
  let m := lastKnownStates p in
  let active := activeTaskIds p in
  let m' := lastKnownStates (evictOverLimit maxTrackedTasks p) in
  m' = dropOldestInactive active (JsMap.size m - maxTrackedTasks) m ∧
  filter (λ e, e.1 ∈ active) m' = filter (λ e, e.1 ∈ active) m ∧
  (JsMap.size m ≤ maxTrackedTasks → m' = m) ∧
  (maxTrackedTasks < JsMap.size m →
     JsMap.size m' = Nat.max maxTrackedTasks (activeCount active m)) ∧
  (maxTrackedTasks < JsMap.size m' →
     JsMap.size m' - maxTrackedTasks = activeCount active m - maxTrackedTasks ∧
     ∀ e, e ∈ m' → e.1 ∈ active).
Proof. apply eviction_within. Qed.

(** ** Backoff *)

(** C6.  From a poller that is running with no errors counted, after [N]
    cycles in a row ([N] at least one) in each of which a request of some
    project failed, the interval is [min (base * 2^(N-1)) max] with base
    5000 and max 60000, and the timer for the next cycle is set with it;
    one cycle without a failed request then sets the counter to zero and
    the interval, and the timer, to base. *)
Theorem backoff_doubles_and_resets w s cycles :
  isPolling (this w) = true → suspended w = [] →
  sets w !! projectIds (this w) = Some s →
  consecutiveErrors (this w) = 0%Z →
  cycles ≠ [] →
  (∀ answers, answers ∈ cycles →
     length answers = JsSet.size s ∧ existsb isThrows answers = true) →
  let failing := pollCycles cycles w in
  let interval := Z.min (baseBackoff * 2 ^ (Z.of_nat (length cycles) - 1)) maxBackoff in
  baseBackoff = 5000%Z ∧ maxBackoff = 60000%Z ∧
  currentBackoff (this failing.1) = interval ∧
  (∃ timer, last failing.2 = Some (SetTimeout timer interval)) ∧
  (∀ answers, length answers = JsSet.size s → existsb isThrows answers = false →
     let next := pollCycle answers failing.1 in
     consecutiveErrors (this next.1) = 0%Z ∧
     currentBackoff (this next.1) = baseBackoff ∧
     ∃ timer, last next.2 = Some (SetTimeout timer baseBackoff)).
Proof.
  intros Hpolling Hsusp Hset Hzero Hsome Hall failing interval.
  destruct (pollCycles_failing cycles w s Hpolling Hsusp Hset Hall)
    as (Hp & Hs & Hset' & He & Hlast).
  destruct (Hlast Hsome) as [Hbackoff [timer Htimer]].
  fold failing in Hp, Hs, Hset', He, Hbackoff, Htimer.
  assert (currentBackoff (this failing.1) = interval) as Hinterval.
  { rewrite Hbackoff, He, Hzero. unfold backoffAfter, interval. by rewrite Z.add_0_l. }
  split; [done|]. split; [done|]. split; [done|].
  split; [exists timer; by rewrite <- Hinterval|].
  intros answers Hlen Hok next.
  destruct (pollCycle_done answers _ s Hp Hs Hset' Hlen)
    as (_ & _ & _ & _ & H5 & H6 & timer' & H7).
  rewrite Hok in H5, H6. fold next in H5, H6, H7.
  split; [done|]. split; [done|]. exists timer'. by rewrite H7, H6.
Qed.

(** ** Change and deletion detection *)



(** C3.  Evaluation of [poll] where the claim fails: the last known phase
    of the tracked task [X] is [deleted] (its recorded state is
    [deleted:false]), the next response for its project lacks it, and a
    deletion notification fires all the same; the guard that compares the
    recorded state with [deleted] lets every combined state through. *)
Theorem deleted_task_is_reported_again :
  let w := (run seenDeleted create).1 in
  JsMap.get "X" (lastKnownStates (this w)) = Some "deleted:false" ∧
  splitHead "deleted:false" = "deleted" ∧
  JsMap.get "X" (taskProjectMap (this w)) = Some "P" ∧
  notificationsFor "X" (step w (RequestSettles 0 (Response 200 (Some [])))).2
  = [deletedTask "X" "P"] ∧
  ∀ recorded executing, guard (combinedState recorded executing) = true.
Proof.
  split; [by vm_compute|]. split; [by vm_compute|]. split; [by vm_compute|].
  split; [by vm_compute|]. apply guard_combinedState.
Qed.


(** C4.  Evaluation of [poll] and [stop] where the claim fails: [stop]
    returns while the request for project [P] is in flight and leaves both
    maps empty; when the response arrives it is processed, and the maps
    hold the task of the response. *)
Theorem response_after_stop_is_recorded :
  let stopped := (run [Start "http://vk/" ["P"] false; Stop] create).1 in
  let late := step stopped (RequestSettles 0 (Response 200 (Some [reportedRunning]))) in
  isRunning (this stopped) = false ∧
  lastKnownStates (this stopped) = [] ∧ taskProjectMap (this stopped) = [] ∧
  lastKnownStates (this late.1) = [("T1", "inprogress:true")] ∧
  taskProjectMap (this late.1) = [("T1", "P")] ∧
  late.2 = [] ∧ timers late.1 = [].
Proof. by vm_compute. Qed.

(** C10 as stated fails: [stop] clears the record of an active task. *)
Lemma stop_clears_active_task : ¬ clearedOnlyByUntrackOrAbsence.
Proof.
  intros Honly.
  destruct (Honly (run [TrackTask "X"; SetKnownState "X" "todo" false] create).1 Stop "X")
    as [Huntrack|(k & f & data & Hresponse & _)]; try done.
  apply (bool_decide_unpack _). by vm_compute.
Qed.

(** C10, amended.  A task in [activeTaskIds] that is mapped to a project
    and has a combined state recorded, and that a response for the project
    lacks, loses its record and its mapping and is reported deleted once,
    as an inactive task is: the deletion loop gives the same result for
    every active set.  The events that clear the record of an active task
    are [untrackTask] for it, [stop], which clears every record and the
    active set too, and a response that shows the task gone. *)
Theorem absent_active_task_is_forgotten p projectId tasks X recorded executing :
  X ∈ activeTaskIds p →
  NoDup (JsMap.keys (taskProjectMap p)) →
  onTaskUpdate p = true →
  JsMap.get X (taskProjectMap p) = Some projectId →
  JsMap.get X (lastKnownStates p) = Some (combinedState recorded executing) →
  X ∉ id <$> tasks →
  let result := processResponse projectId tasks p in
  (JsMap.get X (lastKnownStates result.1) = None ∧
   JsMap.get X (taskProjectMap result.1) = None ∧
   notificationsFor X result.2 = [deletedTask X projectId]) ∧
  (∀ active,
     detectDeleted projectId tasks (with_active active p)
     = (with_active active (detectDeleted projectId tasks p).1,
        (detectDeleted projectId tasks p).2)) ∧
  (∀ w e, this w = p →
     JsMap.get X (lastKnownStates (this (step w e).1)) = None →
     e = UntrackTask X ∨ e = Stop ∨ showsGone w X e).
Proof.
  intros Hactive Hnd Hcb Hproject Hstate Habsent result.
  split; [|split].
  - destruct (processResponse_deleted X projectId tasks p _ Hnd Hproject Hstate
                (guard_combinedState recorded executing) Habsent) as (Hs & Hp & Hout).
    fold result in Hs, Hp, Hout. split; [done|]. split; [done|].
    rewrite Hout. by apply (notificationsFor_notify_same p (deletedTask X projectId)).
  - intros active. unfold detectDeleted. apply deleted_loop_with_active.
  - intros w e <- Hnone. apply active_task_cleared; [done|done|by eexists|done].
Qed.

(** ** Reachable worlds *)

Lemma distinct_forget taskId p : distinct p → distinct (forget taskId p).
Proof. intros [Hs Hp]. split; simpl; by apply NoDup_delete. Qed.

Lemma distinct_deleted_loop projectId current entries acc :
  distinct acc.1 → distinct (foldl (checkDeleted projectId current) acc entries).1.
Proof.
  revert acc. induction entries as [|[k proj] entries IH]; intros [p out] Hd; [done|].
  cbn [foldl]. apply IH.
  destruct (checkDeleted_cases projectId current p out k proj)
    as [->|(_ & _ & _ & ->)]; [done|]. by apply distinct_forget.
Qed.

Lemma distinct_changes_loop projectId tasks acc :
  distinct acc.1 → distinct (foldl (observe projectId) acc tasks).1.
Proof.
  revert acc. induction tasks as [|task tasks IH]; intros [p out] [Hs Hp]; [done|].
  cbn [foldl]. apply IH. split; simpl; by apply NoDup_set.
Qed.

Lemma distinct_cleanup_loop entries p :
  distinct p → distinct (foldl cleanupEntry p entries).
Proof.
  revert p. induction entries as [|[k state] entries IH]; intros p Hd; [done|].
  cbn [foldl]. apply IH. unfold cleanupEntry.
  destruct (terminalStatuses _ && _); [by apply distinct_forget|done].
Qed.

Lemma distinct_evictLoop keys removed entriesToRemove p :
  distinct p → distinct (evictLoop keys removed entriesToRemove p).
Proof.
  revert removed p. induction keys as [|key keys IH]; intros removed p Hd; [done|].
  cbn [evictLoop]. case_bool_decide; [done|].
  destruct (negb _); apply IH; [by apply distinct_forget|done].
Qed.

Lemma distinct_processResponse projectId tasks p :
  distinct p → distinct (processResponse projectId tasks p).1.
Proof.
  intros Hd. rewrite processResponse_unfold. cbn [fst].
  assert (distinct (cleanupTerminalTasks
            (detectChanges projectId tasks (detectDeleted projectId tasks p).1).1)) as Hc.
  { apply distinct_cleanup_loop, distinct_changes_loop. cbn [fst].
    by apply distinct_deleted_loop. }
  unfold evictOverLimit. case_bool_decide; [|done]. by apply distinct_evictLoop.
Qed.

Lemma distinct_tracking p p' : tracking p' = tracking p → distinct p → distinct p'.
Proof. unfold distinct. by intros [= -> -> _]. Qed.

Lemma finishPoll_callback hasError w :
  onTaskUpdate (this (finishPoll hasError w).1) = onTaskUpdate (this w).
Proof.
  unfold finishPoll. destruct hasError; simpl; by destruct (isPolling (this w)).
Qed.

Lemma pollLoop_callback set pos baseUrl hasError w :
  onTaskUpdate (this (pollLoop set pos baseUrl hasError w).1) = onTaskUpdate (this w).
Proof.
  unfold pollLoop. destruct (JsSet.next _ pos) as [[x pos']|];
    [|apply finishPoll_callback].
  by destruct (negb (isPolling (this w))).
Qed.

Lemma poll_callback w : onTaskUpdate (this (poll w).1) = onTaskUpdate (this w).
Proof.
  unfold poll. destruct (negb (isPolling (this w))); [done|]. apply pollLoop_callback.
Qed.

Lemma wellFormed_step w e : wellFormed w → wellFormed (step w e).1.
Proof.
  intros [Hd Hcb].
  destruct e as [url ids dbg|projectId|taskId|taskId|taskId st ex| |timer|k r]; simpl.
  - split; [by apply (distinct_tracking _ _ (tracking_start url ids dbg w))|].
    unfold start. destruct (isPolling (this w)) eqn:Hp.
    + intros Hoff. destruct (Hcb Hoff). congruence.
    + case_bool_decide; [done|]. by rewrite poll_callback.
  - split; [by apply (distinct_tracking _ _ (tracking_addProject projectId w))|].
    unfold addProject. by destruct (truthy projectId && _).
  - done.
  - split; [|done]. destruct Hd. split; simpl; by apply NoDup_delete.
  - split; [|done]. destruct Hd. split; simpl; [by apply NoDup_set|done].
  - unfold stop. split.
    + destruct (pollTimer (this w)); split; simpl; apply NoDup_nil_2.
    + destruct (pollTimer (this w)); simpl; intros Hoff;
        destruct (Hcb Hoff) as (_ & -> & ->); done.
  - case_bool_decide as Hin; [|done]. split.
    + apply (distinct_tracking _ _ (tracking_poll _)). done.
    + rewrite poll_callback. simpl. intros Hoff.
      destruct (Hcb Hoff) as (_ & _ & Ht). rewrite Ht in Hin. by apply elem_of_nil in Hin.
  - destruct (suspended w !! k) as [f|] eqn:Hk; [|done].
    assert (onTaskUpdate (this w) = true) as Hon.
    { destruct (onTaskUpdate (this w)) eqn:Hoff; [done|].
      destruct (Hcb eq_refl) as (_ & Hs & _). by rewrite Hs in Hk. }
    unfold resume. destruct r as [code data|].
    + case_bool_decide.
      * destruct (processResponse (f_projectId f) (default [] data) (this _))
          as [p' outp] eqn:Hp.
        pose proof (distinct_processResponse (f_projectId f) (default [] data) (this w) Hd)
          as Hd'.
        pose proof (control_processResponse (f_projectId f) (default [] data) (this w))
          as Hcontrol.
        simpl in Hp. rewrite Hp in Hd', Hcontrol. simpl in Hd', Hcontrol.
        pose proof (tracking_pollLoop (f_set f) (f_pos f) (f_baseUrl f) (f_hasError f)
                      (with_this p' (with_suspended (delete k (suspended w)) w))) as Htr.
        pose proof (pollLoop_callback (f_set f) (f_pos f) (f_baseUrl f) (f_hasError f)
                      (with_this p' (with_suspended (delete k (suspended w)) w))) as Hcall.
        destruct (pollLoop _ _ _ _ (with_this p' _)) as [w' out']. simpl in *.
        split; [by apply (distinct_tracking _ _ Htr)|].
        unfold control in Hcontrol. rewrite Hcall. intros Hoff. congruence.
      * split; [by apply (distinct_tracking _ _ (tracking_pollLoop _ _ _ _ _))|].
        rewrite pollLoop_callback. simpl. congruence.
    + split; [by apply (distinct_tracking _ _ (tracking_pollLoop _ _ _ _ _))|].
      rewrite pollLoop_callback. simpl. congruence.
Qed.

(** Whatever the events, the world they lead to from a new poller is well
    formed. *)
Lemma wellFormed_run es : wellFormed (run es create).1.
Proof.
  unfold run. induction es as [|e es IH] using rev_ind.
  - split; [split; apply NoDup_nil_2|done].
  - rewrite foldl_app. cbn [foldl].
    destruct (foldl _ (create, []) es) as [w out]. simpl in *.
    pose proof (wellFormed_step w e IH) as Hstep.
    by destruct (step w e).
Qed.

(** ** The properties at concrete inputs *)


(** Three failing cycles: 5000, 10000 and 20000 ms. *)
Lemma backoff_doubles_and_resets_witness :
  currentBackoff (this (pollCycles [[Throws]] afterCleanCycle).1) = 5000%Z ∧
  currentBackoff (this (pollCycles [[Throws]; [Throws]] afterCleanCycle).1) = 10000%Z ∧
  currentBackoff (this (pollCycles [[Throws]; [Throws]; [Throws]] afterCleanCycle).1)
  = 20000%Z.
Proof.
  split; [|split].
  - apply (proj1 (proj2 (proj2
      (backoff_doubles_and_resets afterCleanCycle [Some "P"] (replicate 1 [Throws])
         eq_refl eq_refl eq_refl eq_refl ltac:(done) ltac:(by intros answers [-> _]%elem_of_replicate))))).
  - apply (proj1 (proj2 (proj2
      (backoff_doubles_and_resets afterCleanCycle [Some "P"] (replicate 2 [Throws])
         eq_refl eq_refl eq_refl eq_refl ltac:(done) ltac:(by intros answers [-> _]%elem_of_replicate))))).
  - apply (proj1 (proj2 (proj2
      (backoff_doubles_and_resets afterCleanCycle [Some "P"] (replicate 3 [Throws])
         eq_refl eq_refl eq_refl eq_refl ltac:(done) ltac:(by intros answers [-> _]%elem_of_replicate))))).
Defined.

Lemma active_task_survives_cleanup_and_eviction_witness :
  JsMap.get "X" (lastKnownStates
                   (evictOverLimit maxTrackedTasks (cleanupTerminalTasks finishedButActive)))
  = Some "done:false".
Proof.
  destruct (active_task_survives_cleanup_and_eviction finishedButActive "X")
    as (_ & _ & _ & -> & _); [|reflexivity].
  apply (bool_decide_unpack _). by vm_compute.
Defined.

Lemma crowdedStates_keys n : JsMap.keys (crowdedStates n) = pretty <$> seq 0 n.
Proof.
  unfold JsMap.keys, crowdedStates. rewrite <- list_fmap_compose.
  by apply list_fmap_ext.
Qed.

Lemma crowdedStates_NoDup n : NoDup (JsMap.keys (crowdedStates n)).
Proof.
  rewrite crowdedStates_keys. apply (NoDup_fmap_2 _). apply NoDup_seq.
Qed.

(** 1002 tracked tasks, one of them active: the two oldest inactive ones
    go and 1000 stay. *)
Lemma eviction_respects_limit_and_active_set_witness :
  JsMap.size (lastKnownStates (evictOverLimit maxTrackedTasks crowded))
  = Nat.max maxTrackedTasks (activeCount (activeTaskIds crowded) (lastKnownStates crowded)).
Proof.
  apply (proj1 (proj2 (proj2 (proj2
    (eviction_respects_limit_and_active_set crowded (crowdedStates_NoDup 1002)))))).
  change (lastKnownStates crowded) with (crowdedStates 1002).
  unfold JsMap.size, crowdedStates. rewrite length_fmap, length_seq.
  unfold maxTrackedTasks. lia.
Defined.

Lemma absent_active_task_is_forgotten_witness :
  notificationsFor "T1" (processResponse "P" [] watching).2 = [deletedTask "T1" "P"].
Proof.
  refine (proj2 (proj2 (proj1
    (absent_active_task_is_forgotten watching "P" [] "T1" "inprogress" true
       _ _ eq_refl eq_refl eq_refl _)))).
  - apply (bool_decide_unpack _). by vm_compute.
  - apply (bool_decide_unpack _). by vm_compute.
  - apply not_elem_of_nil.
Defined.

(** * Further properties of the poller *)

(** ** What the effects can be *)

Lemma deleted_loop_notifies projectId current entries acc :
  forallb isNotify acc.2 = true →
  forallb isNotify (foldl (checkDeleted projectId current) acc entries).2 = true.
Proof.
  revert acc. induction entries as [|[k proj] entries IH]; intros [p out] Hout; [done|].
  cbn [foldl]. apply IH.
  destruct (checkDeleted_cases projectId current p out k proj)
    as [->|(_ & _ & _ & ->)]; [done|].
  simpl. rewrite forallb_app. simpl in Hout. rewrite Hout. unfold notify.
  by destruct (onTaskUpdate p).
Qed.

Lemma changes_loop_notifies projectId tasks acc :
  forallb isNotify acc.2 = true →
  forallb isNotify (foldl (observe projectId) acc tasks).2 = true.
Proof.
  revert acc. induction tasks as [|task tasks IH]; intros [p out] Hout; [done|].
  cbn [foldl]. apply IH. simpl. rewrite forallb_app. simpl in Hout. rewrite Hout.
  destruct (JsMap.get (id task) (lastKnownStates p)); [|done].
  case_bool_decide; [done|]. unfold notify. by destruct (onTaskUpdate p).
Qed.

(** Processing a response does nothing but notify. *)
Lemma processResponse_notifies projectId tasks p :
  forallb isNotify (processResponse projectId tasks p).2 = true.
Proof.
  rewrite processResponse_unfold. cbn [snd]. rewrite forallb_app.
  unfold detectDeleted, detectChanges.
  by rewrite deleted_loop_notifies, changes_loop_notifies.
Qed.

Lemma notify_quiet out :
  forallb isNotify out = true → forallb (λ e, negb (sendsOrSchedules e)) out = true.
Proof.
  rewrite !forallb_forall. intros Hall e He. specialize (Hall e He). by destruct e.
Qed.

Lemma notify_no_delay out : forallb isNotify out = true → delays out = [].
Proof.
  induction out as [|e out IH]; [done|]. simpl. intros [He Hout]%andb_true_iff.
  destruct e; try done. by apply IH.
Qed.

Lemma notify_no_request out : forallb isNotify out = true → requests out = [].
Proof.
  induction out as [|e out IH]; [done|]. simpl. intros [He Hout]%andb_true_iff.
  destruct e; try done. by apply IH.
Qed.

Lemma delays_app out1 out2 : delays (out1 ++ out2) = delays out1 ++ delays out2.
Proof. unfold delays. apply omap_app. Qed.

Lemma requests_app out1 out2 : requests (out1 ++ out2) = requests out1 ++ requests out2.
Proof. unfold requests. apply omap_app. Qed.

Lemma run_snoc es e w :
  run (es ++ [e]) w
  = ((step (run es w).1 e).1, (run es w).2 ++ (step (run es w).1 e).2).
Proof.
  unfold run. rewrite foldl_app. cbn [foldl].
  destruct (foldl _ (w, []) es) as [w' out]. simpl. by destruct (step w' e).
Qed.

(** ** The interval stays within its bounds *)

Lemma backoffAfter_bounds errors :
  (0 < errors)%Z → (baseBackoff ≤ backoffAfter errors ≤ maxBackoff)%Z.
Proof.
  intros Hpos. unfold backoffAfter, baseBackoff, maxBackoff.
  assert (1 ≤ 2 ^ (errors - 1))%Z by (apply Z.pow_le_mono_r with (b := 0%Z); lia).
  lia.
Qed.

Lemma bounded_control p p' : control p' = control p → bounded p → bounded p'.
Proof. unfold control, bounded. by intros [= _ -> -> _ _ _ _ _]. Qed.

Lemma finishPoll_bounded hasError w :
  bounded (this w) →
  bounded (this (finishPoll hasError w).1) ∧
  Forall (λ ms, baseBackoff ≤ ms ≤ maxBackoff)%Z (delays (finishPoll hasError w).2).
Proof.
  intros [Herrors Hinterval]. unfold finishPoll, bounded.
  destruct hasError; simpl; destruct (isPolling (this w)); simpl;
    repeat split; try (apply backoffAfter_bounds); try lia; try done;
    try (apply Forall_singleton); try (apply backoffAfter_bounds);
    try (unfold pollInterval, baseBackoff, maxBackoff); lia.
Qed.

Lemma pollLoop_bounded set pos baseUrl hasError w :
  bounded (this w) →
  bounded (this (pollLoop set pos baseUrl hasError w).1) ∧
  Forall (λ ms, baseBackoff ≤ ms ≤ maxBackoff)%Z
    (delays (pollLoop set pos baseUrl hasError w).2).
Proof.
  intros Hb. unfold pollLoop. destruct (JsSet.next _ pos) as [[x pos']|];
    [|by apply finishPoll_bounded].
  by destruct (negb (isPolling (this w))).
Qed.

Lemma poll_bounded w :
  bounded (this w) →
  bounded (this (poll w).1) ∧
  Forall (λ ms, baseBackoff ≤ ms ≤ maxBackoff)%Z (delays (poll w).2).
Proof.
  intros Hb. unfold poll. destruct (negb (isPolling (this w))); [done|].
  by apply pollLoop_bounded.
Qed.

Lemma step_bounded w e :
  bounded (this w) →
  bounded (this (step w e).1) ∧
  Forall (λ ms, baseBackoff ≤ ms ≤ maxBackoff)%Z (delays (step w e).2).
Proof.
  intros Hb.
  destruct e as [url ids dbg|projectId|taskId|taskId|taskId st ex| |timer|k r]; simpl.
  - unfold start. destruct (isPolling (this w)); [done|].
    case_bool_decide; [done|]. by apply poll_bounded.
  - split; [|done]. unfold addProject. by destruct (truthy projectId && _).
  - done.
  - done.
  - done.
  - unfold stop, bounded. destruct (pollTimer (this w)); simpl;
      unfold pollInterval, baseBackoff, maxBackoff; (split; [lia|done]).
  - case_bool_decide; [|done]. by apply poll_bounded.
  - destruct (suspended w !! k) as [f|]; [|done].
    unfold resume. destruct r as [code data|]; [|by apply pollLoop_bounded].
    case_bool_decide; [|by apply pollLoop_bounded].
    pose proof (control_processResponse (f_projectId f) (default [] data) (this w))
      as Hcontrol.
    pose proof (processResponse_notifies (f_projectId f) (default [] data) (this w))
      as Hnotify.
    simpl. destruct (processResponse _ _ (this w)) as [p' outp]. simpl in *.
    destruct (pollLoop_bounded (f_set f) (f_pos f) (f_baseUrl f) (f_hasError f)
                (with_this p' (with_suspended (delete k (suspended w)) w)))
      as [Hb' Hd']; [by apply (bounded_control (this w))|].
    destruct (pollLoop _ _ _ _ (with_this p' _)) as [w' out']. simpl in *.
    split; [done|]. by rewrite delays_app, (notify_no_delay outp Hnotify).
Qed.

(** ** A stopped poller *)

Lemma finishPoll_stopped hasError w :
  isPolling (this w) = false →
  isPolling (this (finishPoll hasError w).1) = false ∧ (finishPoll hasError w).2 = [].
Proof. intros Hoff. unfold finishPoll. destruct hasError; simpl; by rewrite Hoff. Qed.

Lemma pollLoop_stopped set pos baseUrl hasError w :
  isPolling (this w) = false →
  isPolling (this (pollLoop set pos baseUrl hasError w).1) = false ∧
  (pollLoop set pos baseUrl hasError w).2 = [].
Proof.
  intros Hoff. unfold pollLoop. destruct (JsSet.next _ pos) as [[x pos']|];
    [|by apply finishPoll_stopped].
  by rewrite Hoff.
Qed.

Lemma step_stopped w e :
  isPolling (this w) = false → isStart e = false →
  isPolling (this (step w e).1) = false ∧
  forallb (λ x, negb (sendsOrSchedules x)) (step w e).2 = true.
Proof.
  intros Hoff Hstart.
  destruct e as [url ids dbg|projectId|taskId|taskId|taskId st ex| |timer|k r];
    try done; simpl.
  - split; [|done]. unfold addProject. by destruct (truthy projectId && _).
  - unfold stop. by destruct (pollTimer (this w)).
  - case_bool_decide; [|done]. unfold poll. simpl. by rewrite Hoff.
  - destruct (suspended w !! k) as [f|]; [|done].
    unfold resume. destruct r as [code data|].
    + case_bool_decide.
      * pose proof (control_processResponse (f_projectId f) (default [] data) (this w))
          as Hcontrol.
        pose proof (processResponse_notifies (f_projectId f) (default [] data) (this w))
          as Hnotify.
        simpl. destruct (processResponse _ _ (this w)) as [p' outp]. simpl in *.
        destruct (pollLoop_stopped (f_set f) (f_pos f) (f_baseUrl f) (f_hasError f)
                    (with_this p' (with_suspended (delete k (suspended w)) w)))
          as [Hoff' Hout'].
        { unfold control in Hcontrol. simpl. congruence. }
        destruct (pollLoop _ _ _ _ (with_this p' _)) as [w' out']. simpl in *.
        subst out'. rewrite app_nil_r. split; [done|by apply notify_quiet].
      * destruct (pollLoop_stopped (f_set f) (f_pos f) (f_baseUrl f) (f_hasError f)
                    (with_suspended (delete k (suspended w)) w) Hoff) as [? ->]. done.
    + destruct (pollLoop_stopped (f_set f) (f_pos f) (f_baseUrl f) true
                  (with_suspended (delete k (suspended w)) w) Hoff) as [? ->]. done.
Qed.

(** ** The set of projects *)

Lemma elements_app (s1 s2 : JsSet.t) :
  JsSet.elements (s1 ++ s2) = JsSet.elements s1 ++ JsSet.elements s2.
Proof. unfold JsSet.elements. apply omap_app. Qed.

Lemma has_elements x (s : JsSet.t) : JsSet.has x s = true ↔ x ∈ JsSet.elements s.
Proof.
  unfold JsSet.has, JsSet.elements. rewrite bool_decide_eq_true, list_elem_of_omap.
  split; [intros Hin; by exists (Some x)|by intros ([y|] & Hin & [= ->])].
Qed.

Lemma elements_add_new x (s : JsSet.t) :
  x ∉ JsSet.elements s → JsSet.elements (JsSet.add x s) = JsSet.elements s ++ [x].
Proof.
  intros Hnew. unfold JsSet.add. destruct (JsSet.has x s) eqn:Hhas.
  - by apply has_elements in Hhas.
  - by rewrite elements_app.
Qed.

Lemma elements_add_old x (s : JsSet.t) :
  x ∈ JsSet.elements s → JsSet.add x s = s.
Proof. intros Hold. unfold JsSet.add. by rewrite (proj2 (has_elements x s) Hold). Qed.

Lemma elements_clear (s : JsSet.t) : JsSet.elements (JsSet.clear s) = [].
Proof. unfold JsSet.clear. induction s as [|slot s IH]; [done|]. apply IH. Qed.

Lemma properSet_add x s : x ≠ "" → properSet s → properSet (JsSet.add x s).
Proof.
  intros Hx [Hnd Hempty]. destruct (decide (x ∈ JsSet.elements s)) as [Hold|Hnew].
  - by rewrite elements_add_old.
  - unfold properSet. rewrite elements_add_new by done. split.
    + apply NoDup_app. split; [done|]. split; [|apply NoDup_singleton].
      intros y Hy Hy'. apply list_elem_of_singleton in Hy'. by subst.
    + intros [?|Hin]%elem_of_app; [done|]. apply list_elem_of_singleton in Hin. done.
Qed.

Lemma elem_of_add x y (s : JsSet.t) :
  y ∈ JsSet.elements (JsSet.add x s) ↔ y = x ∨ y ∈ JsSet.elements s.
Proof.
  destruct (decide (x ∈ JsSet.elements s)) as [Hold|Hnew].
  - rewrite elements_add_old by done. split; [by right|]. by intros [->|?].
  - rewrite elements_add_new by done. rewrite elem_of_app, list_elem_of_singleton.
    tauto.
Qed.

Lemma properSet_adds xs s :
  Forall (λ x, x ≠ "") xs → properSet s →
  properSet (foldl (λ s x, JsSet.add x s) s xs) ∧
  ∀ y, y ∈ JsSet.elements (foldl (λ s x, JsSet.add x s) s xs)
       ↔ y ∈ xs ∨ y ∈ JsSet.elements s.
Proof.
  revert s. induction xs as [|x xs IH]; intros s Hxs Hs.
  - split; [done|]. intros y. rewrite elem_of_nil. tauto.
  - apply Forall_cons in Hxs as [Hx Hxs]. simpl.
    destruct (IH (JsSet.add x s) Hxs (properSet_add x s Hx Hs)) as [Hp Hin].
    split; [done|]. intros y. rewrite Hin, elem_of_add, elem_of_cons. tauto.
Qed.

(** The set that [start] builds holds the identifiers that are not empty,
    each once. *)
Lemma properSet_of_list ids :
  let s := JsSet.of_list (filter (λ x, x ≠ "") ids) in
  properSet s ∧ ∀ y, y ∈ JsSet.elements s ↔ y ∈ ids ∧ y ≠ "".
Proof.
  intros s.
  destruct (properSet_adds (filter (λ x, x ≠ "") ids) []) as [Hp Hin].
  - apply Forall_forall. by intros x [? _]%list_elem_of_filter.
  - split; [apply NoDup_nil_2|apply not_elem_of_nil].
  - split; [done|]. intros y. unfold s, JsSet.of_list. rewrite Hin.
    rewrite list_elem_of_filter, elem_of_nil. tauto.
Qed.

Lemma adds_keep_head slot (s : JsSet.t) xs :
  ∃ t, foldl (λ s x, JsSet.add x s) (slot :: s) xs = slot :: t.
Proof.
  revert s. induction xs as [|x xs IH]; intros s; [by eexists|].
  simpl. unfold JsSet.add at 2. destruct (JsSet.has x (slot :: s)); apply IH.
Qed.

Lemma of_list_cons x xs : ∃ t, JsSet.of_list (x :: xs) = Some x :: t.
Proof. unfold JsSet.of_list. simpl. apply adds_keep_head. Qed.

(** ** The base URL *)

Lemma dropSlashes_spec (l : list ascii) :
  (∃ n, l = replicate n "/"%char ++ dropSlashes l) ∧
  (∀ rest, dropSlashes l ≠ "/"%char :: rest).
Proof.
  induction l as [|c l [[n Hn] Hhead]]; simpl.
  - split; [by exists 0|done].
  - destruct (decide (c = "/"%char)) as [->|Hne].
    + split; [|done]. exists (S n). simpl. by rewrite <- Hn.
    + split; [by exists 0|]. intros rest [= ? _]. done.
Qed.

Lemma stripTrailingSlashes_list url :
  list_ascii_of_string (stripTrailingSlashes url)
  = reverse (dropSlashes (reverse (list_ascii_of_string url))).
Proof. unfold stripTrailingSlashes. apply list_ascii_of_string_of_list_ascii. Qed.

Lemma stripTrailingSlashes_spec url :
  (∃ n, list_ascii_of_string url
        = list_ascii_of_string (stripTrailingSlashes url) ++ replicate n "/"%char) ∧
  ¬ endsWithSlash (stripTrailingSlashes url).
Proof.
  rewrite stripTrailingSlashes_list.
  destruct (dropSlashes_spec (reverse (list_ascii_of_string url))) as [[n Hn] Hhead].
  split.
  - exists n. apply (inj reverse). rewrite reverse_app, reverse_involutive.
    by rewrite reverse_replicate.
  - intros [t Ht]. apply (f_equal list_ascii_of_string) in Ht.
    rewrite stripTrailingSlashes_list, list_ascii_of_append in Ht. simpl in Ht.
    apply (f_equal reverse) in Ht. rewrite reverse_involutive, reverse_app in Ht.
    simpl in Ht. by apply Hhead in Ht.
Qed.

Lemma dropSlashes_slash (l : list ascii) :
  dropSlashes ("/"%char :: l) = dropSlashes l.
Proof. reflexivity. Qed.

(** [start] takes one trailing slash off and [poll] all of them. *)
Lemma stripTrailingSlashes_after_one url :
  stripTrailingSlashes (stripTrailingSlash url) = stripTrailingSlashes url.
Proof.
  unfold stripTrailingSlash.
  destruct (reverse (list_ascii_of_string url)) as [|c rest] eqn:Hrev; [done|].
  destruct (decide (c = "/"%char)) as [->|Hne]; [|done].
  unfold stripTrailingSlashes.
  rewrite list_ascii_of_string_of_list_ascii, reverse_involutive, Hrev.
  by rewrite dropSlashes_slash.
Qed.

(** ** The requests of a cycle *)

Lemma sets_finishPoll hasError w : sets (finishPoll hasError w).1 = sets w.
Proof. unfold finishPoll. destruct hasError; simpl; by destruct (isPolling (this w)). Qed.

Lemma sets_pollLoop set pos baseUrl hasError w :
  sets (pollLoop set pos baseUrl hasError w).1 = sets w.
Proof.
  unfold pollLoop. destruct (JsSet.next _ pos) as [[x pos']|];
    [|apply sets_finishPoll].
  by destruct (negb (isPolling (this w))).
Qed.

Lemma sets_poll w : sets (poll w).1 = sets w.
Proof.
  unfold poll. destruct (negb (isPolling (this w))); [done|]. apply sets_pollLoop.
Qed.

Lemma requests_finishPoll hasError w : requests (finishPoll hasError w).2 = [].
Proof. unfold finishPoll. destruct hasError; simpl; by destruct (isPolling (this w)). Qed.

(** From the head of the loop on, a cycle asks for every project the
    iterator has yet to visit, whatever the answers are. *)
Lemma cycle_requests set s baseUrl answers pos hasError w out :
  isPolling (this w) = true → suspended w = [] → sets w !! set = Some s →
  length answers = length (remaining s pos) →
  requests (foldl answer ((pollLoop set pos baseUrl hasError w).1,
                          out ++ (pollLoop set pos baseUrl hasError w).2) answers).2
  = requests out ++ ((λ projectId, (baseUrl, projectId)) <$> remaining s pos).
Proof.
  revert pos hasError w out.
  induction answers as [|r answers IH]; intros pos hasError w out Hpolling Hsusp Hset Hlen.
  - unfold pollLoop. rewrite Hset. simpl.
    destruct (JsSet.next s pos) as [[x pos']|] eqn:Hnext.
    { apply next_Some in Hnext. rewrite Hnext in Hlen. done. }
    apply next_None in Hnext. rewrite Hnext. simpl.
    by rewrite requests_app, requests_finishPoll.
  - unfold pollLoop at 1 2. rewrite Hset. simpl.
    destruct (JsSet.next s pos) as [[x pos']|] eqn:Hnext;
      [|apply next_None in Hnext; by rewrite Hnext in Hlen].
    apply next_Some in Hnext. rewrite Hnext in Hlen. simpl in Hlen.
    rewrite Hpolling, Hsusp. simpl. unfold answer at 2. simpl.
    rewrite (with_suspended_twice _ w Hsusp). rewrite Hnext.
    assert (requests (out ++ [Request baseUrl x]) = requests out ++ [(baseUrl, x)])
      as Hout by (by rewrite requests_app).
    destruct r as [code data|]; simpl.
    + case_bool_decide as Hcode.
      * destruct (processResponse x (default [] data) (this w)) as [p' outp] eqn:Hp.
        pose proof (control_processResponse x (default [] data) (this w)) as Hcontrol.
        pose proof (processResponse_notifies x (default [] data) (this w)) as Hnotify.
        rewrite Hp in Hcontrol, Hnotify. simpl in Hcontrol, Hnotify.
        specialize (IH pos' hasError (with_this p' w) ((out ++ [Request baseUrl x]) ++ outp)).
        destruct (pollLoop set pos' baseUrl hasError (with_this p' w)) as [w' out'] eqn:Hloop.
        rewrite app_assoc. simpl in IH. rewrite IH; [|unfold control in Hcontrol; simpl; congruence|done|done|lia].
        rewrite requests_app, Hout, (notify_no_request outp Hnotify), app_nil_r.
        by rewrite <- app_assoc.
      * specialize (IH pos' hasError w (out ++ [Request baseUrl x])).
        destruct (pollLoop set pos' baseUrl hasError w) as [w' out'] eqn:Hloop.
        simpl in IH. rewrite IH; [|done..|lia]. by rewrite Hout, <- app_assoc.
    + specialize (IH pos' true w (out ++ [Request baseUrl x])).
      destruct (pollLoop set pos' baseUrl true w) as [w' out'] eqn:Hloop.
      simpl in IH. rewrite IH; [|done..|lia]. by rewrite Hout, <- app_assoc.
Qed.

Lemma control_finishPoll_ids hasError w :
  projectIds (this (finishPoll hasError w).1) = projectIds (this w) ∧
  (isPolling (this w) = true → isPolling (this (finishPoll hasError w).1) = true).
Proof.
  unfold finishPoll. destruct hasError; simpl;
    destruct (isPolling (this w)) eqn:Hon; simpl; by rewrite ?Hon.
Qed.

Lemma control_poll w :
  isPolling (this w) = true →
  isPolling (this (poll w).1) = true ∧ projectIds (this (poll w).1) = projectIds (this w).
Proof.
  intros Hon. unfold poll, pollLoop. rewrite Hon. simpl.
  destruct (JsSet.next _ 0) as [[x pos']|].
  - rewrite ?Hon. done.
  - destruct (control_finishPoll_ids false w) as [-> Hp]. by rewrite Hp.
Qed.

(** ** The sets of projects of every reachable world *)

Lemma step_properSets w e :
  Forall properSet (sets w) → Forall properSet (sets (step w e).1).
Proof.
  intros Hsets.
  destruct e as [url ids dbg|projectId|taskId|taskId|taskId st ex| |timer|k r]; simpl.
  - unfold start. destruct (isPolling (this w)); [done|].
    assert (Forall properSet (sets w ++ [JsSet.of_list (filter (λ x, x ≠ "") ids)])) as Hnew.
    { apply Forall_app. split; [done|]. apply Forall_singleton.
      apply properSet_of_list. }
    case_bool_decide; [done|]. by rewrite sets_poll.
  - unfold addProject. destruct (truthy projectId) eqn:Htruthy; simpl; [|done].
    destruct (negb _); simpl; [|done].
    apply Forall_insert; [done|]. apply properSet_add.
    + unfold truthy in Htruthy. apply negb_true_iff in Htruthy.
      by apply bool_decide_eq_false in Htruthy.
    + destruct (sets w !! projectIds (this w)) as [s|] eqn:Hs; simpl.
      * by eapply (Forall_lookup_1 _ _ _ _ Hsets).
      * split; [apply NoDup_nil_2|apply not_elem_of_nil].
  - done.
  - done.
  - done.
  - assert (Forall properSet
              (<[projectIds (this w) :=
                   JsSet.clear (default [] (sets w !! projectIds (this w)))]> (sets w))).
    { apply Forall_insert; [done|]. unfold properSet. rewrite elements_clear.
      split; [apply NoDup_nil_2|apply not_elem_of_nil]. }
    unfold stop. by destruct (pollTimer (this w)).
  - case_bool_decide; [|done]. by rewrite sets_poll.
  - destruct (suspended w !! k) as [f|]; [|done].
    unfold resume. destruct r as [code data|]; [|by rewrite sets_pollLoop].
    case_bool_decide; [|by rewrite sets_pollLoop].
    simpl. destruct (processResponse _ _ (this w)) as [p' outp].
    pose proof (sets_pollLoop (f_set f) (f_pos f) (f_baseUrl f) (f_hasError f)
                  (with_this p' (with_suspended (delete k (suspended w)) w))) as Hs.
    destruct (pollLoop _ _ _ _ (with_this p' _)) as [w' out']. simpl in *. by rewrite Hs.
Qed.

(** ** Where the notifications come from *)

Lemma deleted_loop_sources projectId tasks p entries acc :
  (∀ k, JsMap.get k (lastKnownStates acc.1) = JsMap.get k (lastKnownStates p) ∨
        JsMap.get k (lastKnownStates acc.1) = None) →
  (∀ e, e ∈ entries → e ∈ taskProjectMap p) →
  Forall (λ e, ∃ task, e = Notify task ∧ lost projectId tasks p task) acc.2 →
  Forall (λ e, ∃ task, e = Notify task ∧ lost projectId tasks p task)
    (foldl (checkDeleted projectId (list_to_set (id <$> tasks))) acc entries).2.
Proof.
  revert acc. induction entries as [|[k proj] entries IH]; intros [q out] Hstates Hsub Hout;
    [done|].
  cbn [foldl]. apply IH.
  - destruct (checkDeleted_cases projectId (list_to_set (id <$> tasks)) q out k proj)
      as [->|(_ & _ & _ & ->)]; [done|].
    intros k'. cbn [fst]. simpl. destruct (decide (k = k')) as [->|Hne].
    + right. apply get_delete_eq.
    + rewrite get_delete_ne by done. apply Hstates.
  - intros e He. apply Hsub. by right.
  - destruct (checkDeleted_cases projectId (list_to_set (id <$> tasks)) q out k proj)
      as [->|(-> & Habsent & (lastStatus & Hlast & Hguard) & ->)]; [done|].
    cbn [snd] in *. apply Forall_app. split; [done|].
    unfold notify. destruct (onTaskUpdate q); [|done].
    apply Forall_singleton. exists (deletedTask k projectId). split; [done|].
    split; [done|]. split; [apply Hsub; by left|]. split.
    + intros Hin. apply Habsent. by apply elem_of_list_to_set.
    + exists lastStatus. split; [|done].
      simpl. destruct (Hstates k) as [Heq|Hnone]; simpl in *; congruence.
Qed.

Lemma changes_loop_sources projectId tasks (all : list VKTaskWithAttemptStatus) acc :
  (∀ task, task ∈ tasks → task ∈ all) →
  Forall (λ e, ∃ task, e = Notify task ∧ task ∈ all) acc.2 →
  Forall (λ e, ∃ task, e = Notify task ∧ task ∈ all)
    (foldl (observe projectId) acc tasks).2.
Proof.
  revert acc. induction tasks as [|task tasks IH]; intros [q out] Hsub Hout; [done|].
  cbn [foldl]. apply IH; [intros t Ht; apply Hsub; by right|].
  simpl. apply Forall_app. split; [done|].
  destruct (JsMap.get (id task) (lastKnownStates q)); [|done].
  case_bool_decide; [done|]. unfold notify. destruct (onTaskUpdate q); [|done].
  apply Forall_singleton. exists task. split; [done|]. apply Hsub. by left.
Qed.

(** ** A task that was untracked *)

Lemma not_elem_of_delete k v (m : JsMap.t) : (k, v) ∉ JsMap.delete k m.
Proof.
  induction m as [|[k' v'] m IH]; simpl; [apply not_elem_of_nil|].
  destruct (decide (k' = k)) as [->|Hne]; [done|].
  intros [Heq|Hin]%elem_of_cons; [congruence|done].
Qed.

Lemma apart_records X acc acc' :
  apart X acc acc' →
  JsMap.get X (lastKnownStates acc'.1) = JsMap.get X (lastKnownStates acc.1) ∧
  JsMap.get X (taskProjectMap acc'.1) = JsMap.get X (taskProjectMap acc.1) ∧
  notificationsFor X acc'.2 = notificationsFor X acc.2.
Proof. by intros (_ & (_ & ? & ?) & ?). Qed.

(** ** What [cleanupTerminalTasks] deletes *)

Lemma delete_filter k (m : JsMap.t) : JsMap.delete k m = filter (λ e, e.1 ≠ k) m.
Proof.
  induction m as [|[k' v'] m IH]; [done|]. simpl. rewrite filter_cons. simpl.
  destruct (decide (k' = k)) as [->|Hne].
  - by rewrite decide_False by (by intros ?).
  - by rewrite decide_True, IH by done.
Qed.

Lemma filter_all {A} (P : A → Prop) `{!∀ x, Decision (P x)} (l : list A) :
  (∀ x, P x) → filter P l = l.
Proof.
  intros HP. induction l as [|x l IH]; [done|].
  by rewrite filter_cons, decide_True, IH by done.
Qed.

Lemma cleanup_loop_spec (rest walked : JsMap.t) p :
  lastKnownStates p = walked ++ rest →
  NoDup (JsMap.keys (walked ++ rest)) →
  let gone := (filter (λ entry, purged (activeTaskIds p) entry = true) rest).*1 in
  lastKnownStates (foldl cleanupEntry p rest)
  = walked ++ filter (λ entry, purged (activeTaskIds p) entry = false) rest ∧
  taskProjectMap (foldl cleanupEntry p rest)
  = filter (λ entry, entry.1 ∉ gone) (taskProjectMap p) ∧
  activeTaskIds (foldl cleanupEntry p rest) = activeTaskIds p.
Proof.
  revert walked p. induction rest as [|[k state] rest IH]; intros walked p Hstates Hnodup gone.
  - simpl. rewrite app_nil_r in *. split; [done|]. split; [|done].
    unfold gone. simpl. symmetry. apply filter_all. intros e. apply not_elem_of_nil.
  - cbn [foldl]. unfold gone. rewrite !filter_cons.
    change (purged (activeTaskIds p) (k, state))
      with (terminalStatuses (splitHead state) && negb (bool_decide (k ∈ activeTaskIds p))).
    unfold cleanupEntry at 2 4 6.
    destruct (terminalStatuses (splitHead state) && negb (bool_decide (k ∈ activeTaskIds p)))
      eqn:Hpurged.
    + destruct (decide (true = true)); [|done]. destruct (decide (true = false)); [done|].
      assert ((k ∉ JsMap.keys walked) ∧ (k ∉ JsMap.keys rest)) as [Hw Hr].
      { unfold JsMap.keys in *. rewrite fmap_app in Hnodup. simpl in Hnodup.
        apply NoDup_app in Hnodup as (_ & Hdisj & Hrest).
        apply NoDup_cons in Hrest as [Hr _]. split; [|done].
        intros Hin. apply (Hdisj k Hin). by left. }
      destruct (IH walked (forget k p)) as (Hs & Hp & Ha).
      { simpl. rewrite Hstates, delete_app. simpl. rewrite decide_True by done.
        by rewrite !delete_absent. }
      { unfold JsMap.keys in *. rewrite fmap_app in *. simpl in Hnodup.
        apply NoDup_app in Hnodup as (Hn1 & Hdisj & Hrest).
        apply NoDup_cons in Hrest as [_ Hrest]. apply NoDup_app. split; [done|].
        split; [|done]. intros x Hx Hx'. apply (Hdisj x Hx). by right. }
      simpl in Hs, Hp, Ha. rewrite Hs, Hp, Ha. split; [done|]. split; [|done].
      rewrite delete_filter, list_filter_filter. apply list_filter_iff. intros [k' v'].
      simpl. rewrite not_elem_of_cons. split; intros [? ?]; by split.
    + destruct (decide (false = true)); [done|]. destruct (decide (false = false)); [|done].
      destruct (IH (walked ++ [(k, state)]) p) as (Hs & Hp & Ha).
      { by rewrite Hstates, <- app_assoc. }
      { by rewrite <- app_assoc. }
      rewrite Hs, Hp, Ha. by rewrite <- app_assoc.
Qed.

(** ** Every task with a project has a state *)

Lemma mapped_forget k p :
  JsMap.keys (taskProjectMap p) ⊆ JsMap.keys (lastKnownStates p) →
  JsMap.keys (taskProjectMap (forget k p)) ⊆ JsMap.keys (lastKnownStates (forget k p)).
Proof.
  intros Hsub x. simpl. unfold JsMap.keys. rewrite !delete_filter.
  intros [[k' v'] [-> [Hne Hin]%list_elem_of_filter]]%list_elem_of_fmap. simpl in *.
  assert (k' ∈ (lastKnownStates p).*1) as [[k'' v''] [Heq Hin']]%list_elem_of_fmap.
  { apply Hsub. apply list_elem_of_fmap. by exists (k', v'). }
  simpl in Heq. subst k''. apply list_elem_of_fmap. exists (k', v''). split; [done|].
  by apply list_elem_of_filter.
Qed.

Lemma keys_set k v (m : JsMap.t) x :
  x ∈ JsMap.keys (JsMap.set k v m) ↔ x = k ∨ x ∈ JsMap.keys m.
Proof.
  destruct (decide (k ∈ JsMap.keys m)) as [Hin|Hout].
  - rewrite keys_set_present by done. split; [by right|]. by intros [->|?].
  - rewrite keys_set_absent, elem_of_app, list_elem_of_singleton by done. tauto.
Qed.

Lemma mapped_deleted_loop projectId current entries acc :
  JsMap.keys (taskProjectMap acc.1) ⊆ JsMap.keys (lastKnownStates acc.1) →
  JsMap.keys (taskProjectMap (foldl (checkDeleted projectId current) acc entries).1)
  ⊆ JsMap.keys (lastKnownStates (foldl (checkDeleted projectId current) acc entries).1).
Proof.
  revert acc. induction entries as [|[k proj] entries IH]; intros [p out] Hsub; [done|].
  cbn [foldl]. apply IH.
  destruct (checkDeleted_cases projectId current p out k proj)
    as [->|(_ & _ & _ & ->)]; [done|]. by apply mapped_forget.
Qed.

Lemma mapped_changes_loop projectId tasks acc :
  JsMap.keys (taskProjectMap acc.1) ⊆ JsMap.keys (lastKnownStates acc.1) →
  JsMap.keys (taskProjectMap (foldl (observe projectId) acc tasks).1)
  ⊆ JsMap.keys (lastKnownStates (foldl (observe projectId) acc tasks).1).
Proof.
  revert acc. induction tasks as [|task tasks IH]; intros [p out] Hsub; [done|].
  cbn [foldl]. apply IH. simpl. intros x. rewrite !keys_set.
  intros [->|Hin]; [by left|]. right. by apply Hsub.
Qed.

Lemma mapped_cleanup_loop entries p :
  JsMap.keys (taskProjectMap p) ⊆ JsMap.keys (lastKnownStates p) →
  JsMap.keys (taskProjectMap (foldl cleanupEntry p entries))
  ⊆ JsMap.keys (lastKnownStates (foldl cleanupEntry p entries)).
Proof.
  revert p. induction entries as [|[k state] entries IH]; intros p Hsub; [done|].
  cbn [foldl]. apply IH. unfold cleanupEntry.
  destruct (terminalStatuses _ && _); [by apply mapped_forget|done].
Qed.

Lemma mapped_evictLoop keys removed entriesToRemove p :
  JsMap.keys (taskProjectMap p) ⊆ JsMap.keys (lastKnownStates p) →
  JsMap.keys (taskProjectMap (evictLoop keys removed entriesToRemove p))
  ⊆ JsMap.keys (lastKnownStates (evictLoop keys removed entriesToRemove p)).
Proof.
  revert removed p. induction keys as [|key keys IH]; intros removed p Hsub; [done|].
  cbn [evictLoop]. case_bool_decide; [done|].
  destruct (negb _); apply IH; [by apply mapped_forget|done].
Qed.

Lemma mapped_processResponse projectId tasks p :
  JsMap.keys (taskProjectMap p) ⊆ JsMap.keys (lastKnownStates p) →
  JsMap.keys (taskProjectMap (processResponse projectId tasks p).1)
  ⊆ JsMap.keys (lastKnownStates (processResponse projectId tasks p).1).
Proof.
  intros Hsub. rewrite processResponse_unfold. cbn [fst].
  assert (JsMap.keys (taskProjectMap (cleanupTerminalTasks
            (detectChanges projectId tasks (detectDeleted projectId tasks p).1).1))
          ⊆ JsMap.keys (lastKnownStates (cleanupTerminalTasks
            (detectChanges projectId tasks (detectDeleted projectId tasks p).1).1)))
    as Hclean.
  { apply mapped_cleanup_loop, mapped_changes_loop. cbn [fst].
    by apply mapped_deleted_loop. }
  unfold evictOverLimit. case_bool_decide; [|done]. by apply mapped_evictLoop.
Qed.

Lemma mapped_tracking p p' :
  tracking p' = tracking p →
  JsMap.keys (taskProjectMap p) ⊆ JsMap.keys (lastKnownStates p) →
  JsMap.keys (taskProjectMap p') ⊆ JsMap.keys (lastKnownStates p').
Proof. unfold tracking. by intros [= -> -> _]. Qed.

Lemma mapped_step w e :
  JsMap.keys (taskProjectMap (this w)) ⊆ JsMap.keys (lastKnownStates (this w)) →
  JsMap.keys (taskProjectMap (this (step w e).1))
  ⊆ JsMap.keys (lastKnownStates (this (step w e).1)).
Proof.
  intros Hsub.
  destruct e as [url ids dbg|projectId|taskId|taskId|taskId st ex| |timer|k r]; simpl.
  - by apply (mapped_tracking (this w)); [apply tracking_start|].
  - by apply (mapped_tracking (this w)); [apply tracking_addProject|].
  - done.
  - by apply (mapped_forget taskId (with_active (activeTaskIds (this w) ∖ {[taskId]}) (this w))).
  - intros x Hx. apply keys_set. right. by apply Hsub.
  - unfold stop. by destruct (pollTimer (this w)).
  - case_bool_decide; [|done].
    eapply mapped_tracking; [apply tracking_poll|done].
  - destruct (suspended w !! k) as [f|]; [|done].
    unfold resume. destruct r as [code data|];
      [|eapply mapped_tracking; [apply tracking_pollLoop|done]].
    case_bool_decide; [|eapply mapped_tracking; [apply tracking_pollLoop|done]].
    simpl.
    pose proof (mapped_processResponse (f_projectId f) (default [] data) (this w) Hsub)
      as Hp.
    destruct (processResponse _ _ (this w)) as [p' outp].
    pose proof (tracking_pollLoop (f_set f) (f_pos f) (f_baseUrl f) (f_hasError f)
                  (with_this p' (with_suspended (delete k (suspended w)) w))) as Ht.
    destruct (pollLoop _ _ _ _ (with_this p' _)) as [w' out']. simpl in *.
    exact (mapped_tracking p' _ Ht Hp).
Qed.

(** ** Answers that carry no data *)

Lemma finishPoll_notifies hasError w :
  forallb (λ e, negb (isNotify e)) (finishPoll hasError w).2 = true.
Proof.
  unfold finishPoll. destruct hasError; simpl; by destruct (isPolling (this w)).
Qed.

Lemma pollLoop_notifies set pos baseUrl hasError w :
  forallb (λ e, negb (isNotify e)) (pollLoop set pos baseUrl hasError w).2 = true.
Proof.
  unfold pollLoop. destruct (JsSet.next _ pos) as [[x pos']|];
    [|apply finishPoll_notifies].
  by destruct (negb (isPolling (this w))).
Qed.

Lemma refused_step w r :
  refused r = true →
  tracking (this (step w (RequestSettles 0 r)).1) = tracking (this w) ∧
  forallb (λ e, negb (isNotify e)) (step w (RequestSettles 0 r)).2 = true.
Proof.
  intros Hr. simpl. destruct (suspended w !! 0) as [f|]; [|done].
  destruct r as [code data|]; [|done]. simpl in Hr. apply negb_true_iff in Hr.
  unfold resume. rewrite Hr. split; [by rewrite tracking_pollLoop|apply pollLoop_notifies].
Qed.

Lemma refused_answers answers acc :
  forallb refused answers = true →
  forallb (λ e, negb (isNotify e)) acc.2 = true →
  tracking (this (foldl answer acc answers).1) = tracking (this acc.1) ∧
  forallb (λ e, negb (isNotify e)) (foldl answer acc answers).2 = true.
Proof.
  revert acc. induction answers as [|r answers IH]; intros [w out] Hrs Hout; [done|].
  simpl in Hrs. apply andb_true_iff in Hrs as [Hr Hrs].
  cbn [foldl]. destruct (refused_step w r Hr) as [Ht Hn].
  unfold answer at 2 4. cbn [fst snd].
  destruct (step w (RequestSettles 0 r)) as [w' out'] eqn:Hstep. cbn [fst snd] in *.
  destruct (IH (w', out ++ out') Hrs) as [Ht' Hn'].
  { cbn [snd]. rewrite forallb_app. by rewrite Hout, Hn. }
  cbn [fst] in Ht'. by rewrite Ht', Ht.
Qed.

Lemma refused_not_thrown answers :
  forallb refused answers = true → existsb isThrows answers = false.
Proof.
  induction answers as [|r answers IH]; [done|]. simpl.
  intros [Hr Hrs]%andb_true_iff. rewrite (IH Hrs). by destruct r.
Qed.

(** ** The requests of a cycle, from [poll] *)

Lemma pollCycle_requests w s answers :
  isPolling (this w) = true → suspended w = [] →
  sets w !! projectIds (this w) = Some s →
  length answers = JsSet.size s →
  requests (pollCycle answers w).2
  = (λ projectId, (stripTrailingSlashes (vkUrl (this w)), projectId)) <$> JsSet.elements s.
Proof.
  intros Hpolling Hsusp Hset Hlen. unfold pollCycle, poll. rewrite Hpolling. simpl.
  pose proof (cycle_requests (projectIds (this w)) s
                (stripTrailingSlashes (vkUrl (this w))) answers 0 false w []
                Hpolling Hsusp Hset) as Hcycle.
  unfold remaining in Hcycle. rewrite drop_0 in Hcycle. specialize (Hcycle Hlen).
  simpl in Hcycle.
  by destruct (pollLoop (projectIds (this w)) 0 (stripTrailingSlashes (vkUrl (this w)))
                 false w).
Qed.

Lemma poll_notifies w : forallb (λ e, negb (isNotify e)) (poll w).2 = true.
Proof.
  unfold poll. destruct (negb (isPolling (this w))); [done|]. apply pollLoop_notifies.
Qed.

Lemma activeTaskIds_cleanup_loop entries p :
  activeTaskIds (foldl cleanupEntry p entries) = activeTaskIds p.
Proof.
  revert p. induction entries as [|[k state] entries IH]; intros p; [done|].
  cbn [foldl]. rewrite IH. unfold cleanupEntry. by destruct (terminalStatuses _ && _).
Qed.

Lemma mapped_run es :
  JsMap.keys (taskProjectMap (this (run es create).1))
  ⊆ JsMap.keys (lastKnownStates (this (run es create).1)).
Proof.
  induction es as [|e es IH] using rev_ind; [done|].
  rewrite run_snoc. cbn [fst]. by apply mapped_step.
Qed.

(** ** Properties of the poller beyond the claims *)

(** X1.  Whatever the events, from a new poller: the error counter is not
    negative, the interval lies between 5000 and 60000 ms, and so does
    the delay of every timer that was set. *)
Theorem interval_stays_within_bounds es :
  bounded (this (run es create).1) ∧
  Forall (λ ms, 5000 ≤ ms ≤ 60000)%Z (delays (run es create).2).
Proof.
  induction es as [|e es [Hb Hd]] using rev_ind.
  - split; [|done]. unfold bounded, baseBackoff, maxBackoff. simpl. lia.
  - rewrite run_snoc. cbn [fst snd].
    destruct (step_bounded (run es create).1 e Hb) as [Hb' Hd'].
    split; [done|]. rewrite delays_app. apply Forall_app. done.
Qed.

(** X2.  While the poller is stopped, whatever happens except [start]
    (requests of suspended polls settle, timers fire, tasks and projects
    are added): it stays stopped, sends no request and sets no timer. *)
Theorem stopped_poller_stays_quiet w es :
  isPolling (this w) = false →
  forallb (λ e, negb (isStart e)) es = true →
  isRunning (this (run es w).1) = false ∧
  forallb (λ x, negb (sendsOrSchedules x)) (run es w).2 = true.
Proof.
  intros Hoff. induction es as [|e es IH] using rev_ind; intros Hes; [done|].
  rewrite forallb_app in Hes. apply andb_true_iff in Hes as [Hes He].
  simpl in He. rewrite andb_true_r in He. apply negb_true_iff in He.
  destruct (IH Hes) as [Hoff' Hquiet]. rewrite run_snoc. cbn [fst snd].
  destruct (step_stopped (run es w).1 e Hoff' He) as [Hoff'' Hquiet'].
  split; [done|]. by rewrite forallb_app, Hquiet, Hquiet'.
Qed.

(** X3.  A cycle run without interference on a running poller asks for
    every project of the set once, in the order in which the projects were
    added, at the base URL without trailing slashes, whatever its requests
    are answered: a request that fails does not keep the later projects
    from being asked. *)
Theorem cycle_asks_every_project_once w s answers :
  isPolling (this w) = true → suspended w = [] →
  sets w !! projectIds (this w) = Some s →
  length answers = JsSet.size s →
  requests (pollCycle answers w).2
  = (λ projectId, (stripTrailingSlashes (vkUrl (this w)), projectId)) <$> JsSet.elements s.
Proof. apply pollCycle_requests. Qed.

(** X4.  Whatever the events, from a new poller: every set of projects
    the poller has made holds each project once and none with an empty
    identifier. *)
Theorem project_sets_stay_proper es : Forall properSet (sets (run es create).1).
Proof.
  induction es as [|e es IH] using rev_ind.
  - apply Forall_singleton. split; [apply NoDup_nil_2|apply not_elem_of_nil].
  - rewrite run_snoc. cbn [fst]. by apply step_properSets.
Qed.

(** X5.  [start] on a poller that is not running: the poller runs; its
    projects are the identifiers given that are not empty; if there is
    none, nothing is requested and no timer is set; otherwise the tasks
    of the first of them are requested at once, at the URL given without
    its trailing slashes, and that base never ends with a slash. *)
Theorem start_polls_the_projects_given url ids dbg w :
  isPolling (this w) = false →
  let started := start url ids dbg w in
  let current := default [] (sets started.1 !! projectIds (this started.1)) in
  isRunning (this started.1) = true ∧
  (∀ y, y ∈ JsSet.elements current ↔ y ∈ ids ∧ y ≠ "") ∧
  started.2 = match filter (λ x, x ≠ "") ids with
              | [] => []
              | first :: _ => [Request (stripTrailingSlashes url) first]
              end ∧
  ¬ endsWithSlash (stripTrailingSlashes url).
Proof.
  intros Hoff started current.
  set (live := filter (λ x, x ≠ "") ids).
  set (p' := Poller (pollTimer (this w)) (currentBackoff (this w))
               (consecutiveErrors (this w)) true true (stripTrailingSlash url)
               (length (sets w)) (lastKnownStates (this w)) (taskProjectMap (this w))
               dbg (activeTaskIds (this w))).
  set (w' := World p' (sets w ++ [JsSet.of_list live]) (suspended w) (timers w)
               (nextTimer w)).
  assert (started = if bool_decide (JsSet.size (JsSet.of_list live) = 0)
                    then (w', []) else poll w') as Hstarted.
  { unfold started, start. by rewrite Hoff. }
  assert (sets w' !! projectIds (this w') = Some (JsSet.of_list live)) as Hset.
  { simpl. by rewrite lookup_app_r, Nat.sub_diag. }
  split; [|split; [|split; [|apply stripTrailingSlashes_spec]]].
  - rewrite Hstarted. case_bool_decide; [done|]. by apply control_poll.
  - assert (current = JsSet.of_list live) as ->.
    { unfold current. rewrite Hstarted. case_bool_decide.
      - simpl. by rewrite lookup_app_r, Nat.sub_diag.
      - destruct (control_poll w' eq_refl) as [_ ->]. by rewrite sets_poll, Hset. }
    apply properSet_of_list.
  - rewrite Hstarted. destruct live as [|first rest] eqn:Hlive; [done|].
    destruct (of_list_cons first rest) as [t Ht].
    rewrite bool_decide_eq_false_2 by (by rewrite Ht).
    unfold poll, pollLoop. simpl. rewrite lookup_app_r, Nat.sub_diag by done. simpl.
    rewrite Ht. simpl. by rewrite stripTrailingSlashes_after_one.
Qed.

(** X6.  The callback is given nothing but what a response shows: every
    effect of processing a response is a notification, and its task is
    either one of the tasks of the response or the task made up for a
    tracked task that has gone, which has an entry for the polled project
    in the map of projects, a recorded state that is neither empty nor
    [deleted], and is not in the response. *)
Theorem notifications_come_from_the_response projectId tasks p e :
  e ∈ (processResponse projectId tasks p).2 →
  ∃ task, e = Notify task ∧ (task ∈ tasks ∨ lost projectId tasks p task).
Proof.
  rewrite processResponse_unfold. cbn [snd]. intros [Hgone|Hchanged]%elem_of_app.
  - pose proof (deleted_loop_sources projectId tasks p (taskProjectMap p) (p, [])
                  (λ k, or_introl eq_refl) (λ entry Hin, Hin) (Forall_nil_2 _)) as Hall.
    rewrite Forall_forall in Hall.
    destruct (Hall e Hgone) as (task & -> & Hlost).
    exists task. split; [done|]. by right.
  - pose proof (changes_loop_sources projectId tasks tasks
                  ((detectDeleted projectId tasks p).1, [])
                  (λ task Hin, Hin) (Forall_nil_2 _)) as Hall.
    rewrite Forall_forall in Hall.
    destruct (Hall e Hchanged) as (task & -> & Hin).
    exists task. split; [done|]. by left.
Qed.

(** X7.  After [untrackTask] a response that does not list the task
    reports nothing about it, whatever project the response is for, and
    the task stays without records and out of the active set. *)
Theorem untracked_task_is_not_reported X projectId tasks p :
  X ∉ id <$> tasks →
  let result := processResponse projectId tasks (untrackTask X p) in
  notificationsFor X result.2 = [] ∧
  JsMap.get X (lastKnownStates result.1) = None ∧
  JsMap.get X (taskProjectMap result.1) = None ∧
  X ∉ activeTaskIds result.1.
Proof.
  intros Habsent result. unfold result. rewrite processResponse_unfold. cbn [fst snd].
  set (p0 := untrackTask X p).
  assert (apart X (p0, []) (detectDeleted projectId tasks p0)) as Hdeleted.
  { apply deleted_loop_held. intros taskProjectId Hin.
    by apply not_elem_of_delete in Hin. }
  assert (apart X ((detectDeleted projectId tasks p0).1, [])
            (detectChanges projectId tasks (detectDeleted projectId tasks p0).1))
    as Hchanges by (by apply changes_loop_absent).
  destruct (apart_records _ _ _ Hdeleted) as (Hs1 & Hp1 & Hn1).
  destruct (apart_records _ _ _ Hchanges) as (Hs2 & Hp2 & Hn2).
  destruct Hdeleted as (_ & (Ha1 & _) & _). destruct Hchanges as (_ & (Ha2 & _) & _).
  cbn [fst snd] in *.
  assert (JsMap.get X (lastKnownStates p0) = None) as Hs0 by apply get_delete_eq.
  assert (JsMap.get X (taskProjectMap p0) = None) as Hp0 by apply get_delete_eq.
  rewrite notificationsFor_app, Hn1, Hn2. split; [done|].
  destruct (purge_None X maxTrackedTasks
              (detectChanges projectId tasks (detectDeleted projectId tasks p0).1).1)
    as [Hs Hp]; [congruence|congruence|].
  split; [done|]. split; [done|].
  unfold evictOverLimit. case_bool_decide; rewrite ?activeTaskIds_evictLoop;
    unfold cleanupTerminalTasks; rewrite activeTaskIds_cleanup_loop, Ha2, Ha1; simpl;
    intros [_ Hin]%elem_of_difference; apply Hin; by apply elem_of_singleton.
Qed.

(** X8.  [cleanupTerminalTasks] on a map of states with one entry per key:
    the entries that stay are those whose status is not terminal or whose
    task is active, in the order they had; the map of projects loses the
    entries of the tasks that went and no other; the active set and the
    fields of control are not touched. *)
Theorem cleanup_deletes_finished_inactive_tasks p :
  NoDup (JsMap.keys (lastKnownStates p)) →
  let p' := cleanupTerminalTasks p in
  lastKnownStates p'
  = filter (λ entry, purged (activeTaskIds p) entry = false) (lastKnownStates p) ∧
  taskProjectMap p' = filter (λ entry, entry.1 ∉ purgedKeys p) (taskProjectMap p) ∧
  activeTaskIds p' = activeTaskIds p ∧ control p' = control p.
Proof.
  intros Hnodup p'.
  destruct (cleanup_loop_spec (lastKnownStates p) [] p eq_refl Hnodup) as (Hs & Hp & Ha).
  split; [done|]. split; [done|]. split; [done|]. apply control_cleanup_loop.
Qed.

(** X9.  Whatever the events, from a new poller: every task that has an
    entry in the map of projects has one in the map of states, so the map
    of projects is never the larger of the two. *)
Theorem mapped_tasks_have_a_state es :
  JsMap.keys (taskProjectMap (this (run es create).1))
  ⊆ JsMap.keys (lastKnownStates (this (run es create).1)) ∧
  JsMap.size (taskProjectMap (this (run es create).1))
  ≤ JsMap.size (lastKnownStates (this (run es create).1)).
Proof.
  pose proof (mapped_run es) as Hsub. split; [done|].
  destruct (wellFormed_run es) as [[_ Hnodup] _].
  pose proof (submseteq_length _ _ (NoDup_submseteq _ _ Hnodup Hsub)) as Hlen.
  unfold JsMap.keys in Hlen. by rewrite !length_fmap in Hlen.
Qed.

(** X10.  A response whose status is not 200 is not a failure and carries
    no data: a cycle whose requests are all answered so leaves the records
    of the tasks as they were, calls the callback for nothing, and ends
    with the error counter at 0 and the interval at 5000 ms. *)
Theorem refused_requests_change_nothing w s answers :
  isPolling (this w) = true → suspended w = [] →
  sets w !! projectIds (this w) = Some s → length answers = JsSet.size s →
  forallb refused answers = true →
  tracking (this (pollCycle answers w).1) = tracking (this w) ∧
  forallb (λ e, negb (isNotify e)) (pollCycle answers w).2 = true ∧
  consecutiveErrors (this (pollCycle answers w).1) = 0%Z ∧
  currentBackoff (this (pollCycle answers w).1) = pollInterval.
Proof.
  intros Hpolling Hsusp Hset Hlen Hrefused.
  destruct (refused_answers answers (poll w) Hrefused (poll_notifies w)) as [Ht Hn].
  split; [unfold pollCycle; by rewrite Ht, tracking_poll|]. split; [done|].
  pose proof (pollCycle_done answers w s Hpolling Hsusp Hset Hlen) as Hdone.
  rewrite (refused_not_thrown answers Hrefused) in Hdone.
  by destruct Hdone as (_ & _ & _ & _ & ? & ? & _).
Qed.

(** X11.  [addProject] on a running poller between two cycles: the next
    cycle asks for the project after the projects the set had, if it is
    new, and asks for the same projects as before if the set has it; an
    empty identifier changes nothing. *)
Theorem added_project_is_polled_in_the_next_cycle w s x answers :
  isPolling (this w) = true → suspended w = [] →
  sets w !! projectIds (this w) = Some s → x ≠ "" →
  length answers = JsSet.size (JsSet.add x s) →
  requests (pollCycle answers (addProject x w)).2
  = (λ projectId, (stripTrailingSlashes (vkUrl (this w)), projectId))
      <$> (if decide (x ∈ JsSet.elements s) then JsSet.elements s
           else JsSet.elements s ++ [x]) ∧
  addProject "" w = w.
Proof.
  intros Hpolling Hsusp Hset Hx Hlen. split; [|done].
  assert (addProject x w
          = if JsSet.has x s then w
            else World (this w) (<[projectIds (this w) := JsSet.add x s]> (sets w))
                       (suspended w) (timers w) (nextTimer w)) as ->.
  { unfold addProject. rewrite Hset. simpl. unfold truthy.
    rewrite bool_decide_eq_false_2 by done. simpl. by destruct (JsSet.has x s). }
  destruct (decide (x ∈ JsSet.elements s)) as [Hin|Hout].
  - rewrite (proj2 (has_elements x s) Hin).
    rewrite (elements_add_old x s Hin) in Hlen.
    by apply pollCycle_requests.
  - assert (JsSet.has x s = false) as ->.
    { destruct (JsSet.has x s) eqn:Hhas; [|done]. by apply has_elements in Hhas. }
    rewrite <- (elements_add_new x s Hout).
    apply (pollCycle_requests
             (World (this w) (<[projectIds (this w) := JsSet.add x s]> (sets w))
                    (suspended w) (timers w) (nextTimer w))); [done|done| |done].
    simpl. apply list_lookup_insert_eq. by eapply lookup_lt_Some.
Qed.

(** ** The further properties at concrete inputs *)

(** A timer that fires late, a project added and a request that settles
    late, all after [stop]. *)
Lemma stopped_poller_stays_quiet_witness :
  isRunning (this (run [TimerFires 1; AddProject "Q";
                        RequestSettles 0 (Response 200 None)] stopped).1) = false ∧
  forallb (λ x, negb (sendsOrSchedules x))
    (run [TimerFires 1; AddProject "Q"; RequestSettles 0 (Response 200 None)] stopped).2
  = true.
Proof.
  apply (stopped_poller_stays_quiet stopped
           [TimerFires 1; AddProject "Q"; RequestSettles 0 (Response 200 None)]);
    reflexivity.
Defined.

(** The second cycle of a poller with two projects; the first request
    fails. *)
Lemma cycle_asks_every_project_once_witness :
  requests (pollCycle [Throws; Response 200 None] betweenCycles).2
  = [("http://vk", "P"); ("http://vk", "Q")].
Proof.
  rewrite (cycle_asks_every_project_once betweenCycles [Some "P"; Some "Q"]
             [Throws; Response 200 None] eq_refl eq_refl eq_refl eq_refl).
  reflexivity.
Defined.

(** An empty identifier and a repeated one among the projects given. *)
Lemma start_polls_the_projects_given_witness :
  (start "http://vk//" ["P"; ""; "Q"; "P"] false create).2 = [Request "http://vk" "P"].
Proof.
  destruct (start_polls_the_projects_given "http://vk//" ["P"; ""; "Q"; "P"] false create
              eq_refl) as (_ & _ & -> & _).
  reflexivity.
Defined.

(** The tracked task [T1] has gone from its project. *)
Lemma notifications_come_from_the_response_witness :
  ∃ task, Notify (deletedTask "T1" "P") = Notify task ∧
          (task ∈ [] ∨ lost "P" [] watching task).
Proof.
  apply (notifications_come_from_the_response "P" [] watching).
  assert ((processResponse "P" [] watching).2 = [Notify (deletedTask "T1" "P")]) as ->
    by reflexivity.
  by left.
Defined.

Lemma untracked_task_is_not_reported_witness :
  notificationsFor "T1" (processResponse "P" [] (untrackTask "T1" watching)).2 = [].
Proof.
  apply (untracked_task_is_not_reported "T1" "P" [] watching). apply not_elem_of_nil.
Defined.

(** Of two finished tasks the one that is not active goes. *)
Lemma cleanup_deletes_finished_inactive_tasks_witness :
  lastKnownStates (cleanupTerminalTasks finishedButActive) = [("X", "done:false")].
Proof.
  destruct (cleanup_deletes_finished_inactive_tasks finishedButActive) as (-> & _).
  - apply (bool_decide_unpack _). by vm_compute.
  - by vm_compute.
Defined.

(** The service answers 503. *)
Lemma refused_requests_change_nothing_witness :
  currentBackoff (this (pollCycle [Response 503 None] afterCleanCycle).1) = 5000%Z.
Proof.
  apply (refused_requests_change_nothing afterCleanCycle [Some "P"] [Response 503 None]);
    reflexivity.
Defined.

Lemma added_project_is_polled_in_the_next_cycle_witness :
  requests (pollCycle [Throws; Throws] (addProject "Q" afterCleanCycle)).2
  = [("http://vk", "P"); ("http://vk", "Q")].
Proof.
  rewrite (proj1 (added_project_is_polled_in_the_next_cycle afterCleanCycle [Some "P"] "Q"
                    [Throws; Throws] eq_refl eq_refl eq_refl ltac:(done) eq_refl)).
  reflexivity.
Defined.
End Poller.

(** * Further properties of the serializer and of the readers *)
Section Readers.
Import FrontmatterManager.

(** ** The queue *)

Lemma ordered_run notes es : ordered (run es (create notes)).
Proof. apply (is_ordered notes), consistent_run, consistent_create. Qed.

(** ** A call of [update] and its write *)

Lemma call_link notes es es' file updates l :
  let m0 := run es (create notes) in
  promises (run es' (update file updates m0)) !! length (promises m0) = Some l →
  l_path l = file ∧ l_updates l = updates.
Proof.
  intros m0 Hl.
  pose proof (callOf_run es' (update file updates m0)) as Hcalls.
  assert ((callOf <$> promises (run es' (update file updates m0))) !! length (promises m0)
          = Some (callOf l)) as Hk by (by rewrite list_lookup_fmap, Hl).
  rewrite Hcalls in Hk. simpl in Hk. rewrite fmap_app in Hk. simpl in Hk.
  rewrite lookup_app_l in Hk by (rewrite length_app, length_fmap; simpl; lia).
  rewrite lookup_app_r in Hk by (by rewrite length_fmap).
  rewrite length_fmap, Nat.sub_diag in Hk. simpl in Hk.
  unfold callOf in Hk. by injection Hk as -> ->.
Qed.

Lemma saved_call notes es es' file updates :
  let m0 := run es (create notes) in
  let m := run es' (update file updates m0) in
  (∃ l, promises m !! length (promises m0) = Some l ∧ isWriting l = true) →
  frontmatterOf (step m (WriteSettles (length (promises m0)) None)) file
  = mergeUpdates updates (frontmatterOf m file).
Proof.
  intros m0 m (l & Hl & Hw).
  destruct (call_link notes es es' file updates l Hl) as [Hpath Hupdates].
  assert (consistent notes m) as Hcons.
  { apply consistent_run, consistent_update, consistent_run, consistent_create. }
  unfold isWriting in Hw. destruct (l_phase l) as [|snapshot| |] eqn:Hph; try done.
  pose proof (fresh_snapshot _ _ Hcons _ _ _ Hl Hph) as Hsnap.
  simpl. unfold processFrontMatterSettles. fold m0 m. rewrite Hl, Hph.
  unfold frontmatterOf, with_phase, save; simpl.
  rewrite Hpath, lookup_insert_eq. simpl. rewrite Hsnap, Hupdates, Hpath. done.
Qed.

Lemma read_lookup cache key :
  key ∈ vkFields → read cache !! key = default ∅ cache !! key.
Proof.
  intros Hkey. unfold read. apply option_eq. intros value.
  rewrite map_lookup_filter_Some. simpl. split; [by intros [? _]|done].
Qed.

(** ** Draining the queue *)

Lemma reaction_frame m k e i :
  e = ThenRuns k ∨ (∃ failure, e = WriteSettles k failure) ∨ e = FinallyRuns k →
  i ≠ k → promises (step m e) !! i = promises m !! i.
Proof.
  intros He Hne.
  assert (∀ ph, alter (setPhase ph) k (promises m) !! i = promises m !! i) as Halter
    by (intros; by apply list_lookup_alter_ne).
  destruct He as [->|[[failure ->]| ->]]; simpl.
  - unfold thenReaction. destruct (promises m !! k) as [l|]; [|done].
    destruct (l_phase l); try done.
    destruct (existingQueueState m l) as [[|reason]|]; try done; by apply Halter.
  - unfold processFrontMatterSettles. destruct (promises m !! k) as [l|]; [|done].
    destruct (l_phase l); try done. destruct failure; by apply Halter.
  - unfold finallyReaction. destruct (promises m !! k) as [l|]; [|done].
    destruct (l_phase l); try done. simpl. case_decide; by apply Halter.
Qed.

Lemma reaction_length m k e :
  e = ThenRuns k ∨ (∃ failure, e = WriteSettles k failure) ∨ e = FinallyRuns k →
  length (promises (step m e)) = length (promises m).
Proof.
  intros He.
  destruct He as [->|[[failure ->]| ->]]; simpl.
  - unfold thenReaction. destruct (promises m !! k) as [l|]; [|done].
    destruct (l_phase l); try done.
    destruct (existingQueueState m l) as [[|reason]|]; try done; simpl;
      by rewrite length_alter.
  - unfold processFrontMatterSettles. destruct (promises m !! k) as [l|]; [|done].
    destruct (l_phase l); try done. destruct failure; simpl; by rewrite length_alter.
  - unfold finallyReaction. destruct (promises m !! k) as [l|]; [|done].
    destruct (l_phase l); try done. simpl. case_decide; simpl; by rewrite length_alter.
Qed.

Lemma then_leaves_queue m k l :
  promises m !! k = Some l → is_Some (existingQueueState m l) →
  ∃ l', promises (thenReaction k m) !! k = Some l' ∧ l_phase l' ≠ Queued.
Proof.
  intros Hl [o Ho]. unfold thenReaction. rewrite Hl.
  destruct (l_phase l) eqn:Hph; try (exists l; split; [done|congruence]).
  rewrite Ho. destruct o as [|reason]; simpl;
    rewrite list_lookup_alter_eq, Hl; simpl; eexists; (split; [done|]); done.
Qed.

Lemma write_leaves_flight m k l :
  promises m !! k = Some l → l_phase l ≠ Queued →
  ∃ l' o, promises (processFrontMatterSettles k None m) !! k = Some l' ∧
          (l_phase l' = Settling o ∨ l_phase l' = Settled o).
Proof.
  intros Hl Hph. unfold processFrontMatterSettles. rewrite Hl.
  destruct (l_phase l) as [|snapshot|o|o] eqn:Hphase; [done| | |].
  - simpl. rewrite list_lookup_alter_eq, Hl. simpl. eexists _, Fulfilled.
    split; [done|]. by left.
  - exists l, o. split; [done|]. by left.
  - exists l, o. split; [done|]. by right.
Qed.

Lemma finally_settles m k l o :
  promises m !! k = Some l → l_phase l = Settling o ∨ l_phase l = Settled o →
  ∃ l', promises (finallyReaction k m) !! k = Some l' ∧ isSettled l' = true.
Proof.
  intros Hl Hph. unfold finallyReaction. rewrite Hl.
  destruct Hph as [Hph|Hph]; rewrite Hph.
  - simpl. case_decide; simpl; rewrite list_lookup_alter_eq, Hl; simpl;
      eexists; (split; [done|]); done.
  - exists l. split; [done|]. unfold isSettled. by rewrite Hph.
Qed.

Lemma settle_settles notes m k l :
  consistent notes m → promises m !! k = Some l →
  (∀ (i : nat) li, i < k → promises m !! i = Some li → isSettled li = true) →
  consistent notes (run (settle k) m) ∧
  length (promises (run (settle k) m)) = length (promises m) ∧
  ∀ (i : nat) li, i < S k → promises (run (settle k) m) !! i = Some li →
    isSettled li = true.
Proof.
  intros Hcons Hl Hbelow.
  split; [by apply consistent_run|].
  assert (is_Some (existingQueueState m l)) as Hqueue.
  { unfold existingQueueState. pose proof (chained _ (is_ordered _ _ Hcons) k l Hl) as Hch.
    destruct (l_pred l) as [i|]; [|done]. destruct Hch as (Hlt & li & Hli & _).
    rewrite Hli. pose proof (Hbelow i li Hlt Hli) as Hset. unfold isSettled in Hset.
    by destruct (l_phase li). }
  destruct (then_leaves_queue m k l Hl Hqueue) as (l1 & Hl1 & Hph1).
  destruct (write_leaves_flight (thenReaction k m) k l1 Hl1 Hph1) as (l2 & o & Hl2 & Hph2).
  destruct (finally_settles _ k l2 o Hl2 Hph2) as (l3 & Hl3 & Hset3).
  change (run (settle k) m)
    with (step (step (step m (ThenRuns k)) (WriteSettles k None)) (FinallyRuns k)).
  split.
  - rewrite (reaction_length _ k (FinallyRuns k)) by auto.
    rewrite (reaction_length _ k (WriteSettles k None)) by eauto.
    by rewrite (reaction_length _ k (ThenRuns k)) by auto.
  - intros i li Hi Hlookup.
    destruct (decide (i = k)) as [->|Hne].
    + change (promises (finallyReaction k (processFrontMatterSettles k None
                (thenReaction k m))) !! k = Some li) in Hlookup.
      congruence.
    + rewrite (reaction_frame _ k (FinallyRuns k)) in Hlookup by auto.
      rewrite (reaction_frame _ k (WriteSettles k None)) in Hlookup by eauto.
      rewrite (reaction_frame _ k (ThenRuns k)) in Hlookup by auto.
      apply (Hbelow i li); [lia|done].
Qed.

Lemma drain_S n : drain (S n) = drain n ++ settle n.
Proof.
  unfold drain. rewrite seq_S, fmap_app, concat_app. done.
Qed.

Lemma run_app es1 es2 m : run (es1 ++ es2) m = run es2 (run es1 m).
Proof. apply foldl_app. Qed.

Lemma drain_settles notes m n :
  consistent notes m → n ≤ length (promises m) →
  consistent notes (run (drain n) m) ∧
  length (promises (run (drain n) m)) = length (promises m) ∧
  ∀ (i : nat) li, i < n → promises (run (drain n) m) !! i = Some li → isSettled li = true.
Proof.
  intros Hcons. induction n as [|n IH]; intros Hn.
  - split; [done|]. split; [done|]. intros i li Hi. lia.
  - destruct IH as (Hcons' & Hlen & Hbelow); [lia|].
    rewrite drain_S, run_app.
    destruct (lookup_lt_is_Some_2 (promises (run (drain n) m)) n) as [l Hl]; [lia|].
    destruct (settle_settles notes _ n l Hcons' Hl Hbelow) as (? & Hlen' & ?).
    split; [done|]. split; [congruence|done].
Qed.

(** ** [trim] *)

Import JsString.

Lemma trimStart_head s :
  match trimStart s with
  | c :: _ => isWhiteSpace c = false
  | [] => True
  end.
Proof.
  induction s as [|c s IH]; [done|]. simpl.
  destruct (isWhiteSpace c) eqn:Hc; [done|]. by rewrite Hc.
Qed.

Lemma trimStart_suffix s : ∃ t, s = t ++ trimStart s.
Proof.
  induction s as [|c s [t IH]]; [by exists []|]. simpl.
  destruct (isWhiteSpace c); [|by exists []]. exists (c :: t). simpl. by rewrite <- IH.
Qed.

Lemma trimStart_snoc s c :
  isWhiteSpace c = true →
  trimStart (s ++ [c]) = match trimStart s with [] => [] | _ => trimStart s ++ [c] end.
Proof.
  intros Hc. induction s as [|d s IH]; simpl; [by rewrite Hc|].
  by destruct (isWhiteSpace d).
Qed.

Lemma trim_snoc s c : isWhiteSpace c = true → trim (s ++ [c]) = trim s.
Proof.
  intros Hc. unfold trim, trimEnd. rewrite trimStart_snoc by done.
  destruct (trimStart s) as [|d t]; [done|].
  rewrite reverse_app, reverse_singleton. cbn [app trimStart]. by rewrite Hc.
Qed.

Lemma trimStart_skipLF s : trimStart (skipLF s) = trimStart s.
Proof.
  induction s as [|c s IH]; [done|]. simpl.
  destruct (decide (c = LF)) as [->|Hne]; [|done]. by rewrite IH.
Qed.

(** What is kept of the last code unit when the head is trimmed. *)
Lemma trimStart_last s c :
  last (trimStart s) = Some c → last s = Some c.
Proof.
  destruct (trimStart_suffix s) as [t Ht]. intros Hlast.
  rewrite Ht. destruct (trimStart s) as [|d u]; [done|].
  rewrite last_app. by rewrite Hlast.
Qed.

(** ** The fences *)

Lemma openFence_LF rest : openFence (units "---" ++ [LF] ++ rest) = Some rest.
Proof. reflexivity. Qed.

Lemma closeFence_other c s :
  c ≠ CR → c ≠ LF → closeFence (c :: s) = None.
Proof.
  intros Hcr Hlf. unfold closeFence. simpl.
  by rewrite !decide_False by (by intros ?).
Qed.

Lemma closeFence_line c s :
  c ≠ hyphen → closeFence (LF :: c :: s) = None.
Proof.
  intros Hc. unfold closeFence. simpl.
  rewrite (decide_False (P := hyphen = c)) by (by intros ?). done.
Qed.

Lemma findClose_skips pre rest :
  fenceFree pre = true →
  findClose (pre ++ [LF; hyphen; hyphen; hyphen] ++ rest) = Some rest.
Proof.
  induction pre as [|c pre IH]; [done|].
  intros Hfree. simpl in Hfree. apply andb_true_iff in Hfree as [Hhead Hfree].
  specialize (IH Hfree). cbn [app findClose] in *.
  destruct (decide (c = LF)) as [->|Hlf].
  - destruct pre as [|d pre]; [done|]. apply negb_true_iff in Hhead.
    apply bool_decide_eq_false in Hhead.
    change ((d :: pre) ++ LF :: hyphen :: hyphen :: hyphen :: rest)
      with (d :: (pre ++ LF :: hyphen :: hyphen :: hyphen :: rest)).
    by rewrite closeFence_line.
  - destruct (decide (c = CR)) as [->|Hcr]; [|by rewrite closeFence_other].
    destruct pre as [|d pre]; [done|].
    change ((d :: pre) ++ LF :: hyphen :: hyphen :: hyphen :: rest)
      with (d :: (pre ++ LF :: hyphen :: hyphen :: hyphen :: rest)) in *.
    destruct (decide (d = LF)) as [->|Hd].
    + simpl in Hfree. apply andb_true_iff in Hfree as [Hnext _].
      destruct pre as [|e pre]; [done|]. apply negb_true_iff in Hnext.
      apply bool_decide_eq_false in Hnext.
      assert (closeFence (CR :: LF :: (e :: pre) ++ LF :: hyphen :: hyphen :: hyphen :: rest)
              = None) as ->; [|done].
      unfold closeFence. simpl.
      rewrite (decide_False (P := hyphen = e)) by (by intros ?). done.
    + assert (closeFence (CR :: d :: pre ++ LF :: hyphen :: hyphen :: hyphen :: rest) = None)
        as ->; [|done].
      unfold closeFence. simpl.
      rewrite (decide_False (P := LF = d)) by (by intros ?). done.
Qed.

Lemma fenceFree_line s : LF ∉ s → fenceFree s = true.
Proof.
  induction s as [|c s IH]; [done|]. intros [Hc Hs]%not_elem_of_cons. simpl.
  rewrite decide_False by (by intros ?). by apply IH.
Qed.

Lemma fenceFree_app_line a c b :
  fenceFree a = true → c ≠ hyphen → LF ∉ c :: b →
  fenceFree (a ++ LF :: c :: b) = true.
Proof.
  intros Ha Hc Hb. induction a as [|d a IH].
  - simpl. rewrite bool_decide_eq_false_2 by done. simpl.
    by apply (fenceFree_line (c :: b)).
  - simpl in Ha. apply andb_true_iff in Ha as [Hhead Ha]. specialize (IH Ha).
    cbn [app fenceFree]. rewrite IH, andb_true_r.
    destruct (decide (d = LF)); [|done]. by destruct a.
Qed.

Lemma units_line (literal : string) (value : t) :
  LF ∉ units literal → LF ∉ value → LF ∉ units literal ++ value.
Proof. intros Hl Hv [?|?]%elem_of_app; done. Qed.

(** ** Runs in which the host rejects no write *)

Lemma unfailed_phase ls q v q' v' k l ph :
  unfailed (Manager ls q v) → ls !! k = Some l →
  (∀ reason, ph ≠ Settling (Rejected reason) ∧ ph ≠ Settled (Rejected reason)) →
  unfailed (Manager (alter (setPhase ph) k ls) q' v').
Proof.
  intros Hun Hl Hph j x reason Hx. simpl in Hx.
  apply lookup_alter_inv in Hx as (y & Hy & ->).
  destruct (decide (j = k)) as [->|Hne]; [apply Hph|]. by apply (Hun j y reason).
Qed.

Lemma unfailed_step m e : unfailed m → noFailure [e] = true → unfailed (step m e).
Proof.
  intros Hun He. destruct m as [ls q v].
  destruct e as [filePath updates|k|k failure|k]; simpl.
  - intros j x reason Hx. unfold update in Hx. simpl in Hx.
    apply lookup_app_Some in Hx as [Hx|[_ Hx]]; [by apply (Hun j x reason)|].
    destruct (j - length ls) as [|n]; [|done]. simpl in Hx. by injection Hx as <-.
  - unfold thenReaction. simpl. destruct (ls !! k) as [l|] eqn:Hl; [|done].
    destruct (l_phase l) eqn:Hph; try done.
    destruct (existingQueueState (Manager ls q v) l) as [[|reason]|] eqn:Hq; [| |done].
    + by eapply (unfailed_phase ls q v); [exact Hun|exact Hl|].
    + exfalso. unfold existingQueueState in Hq. simpl in Hq.
      destruct (l_pred l) as [i|]; [|done].
      destruct (ls !! i) as [li|] eqn:Hli; [|done].
      destruct (l_phase li) as [| | |o] eqn:Hphi; try done. injection Hq as ->.
      by destruct (Hun i li reason Hli) as [_ ?].
  - unfold processFrontMatterSettles. simpl. destruct (ls !! k) as [l|] eqn:Hl; [|done].
    destruct (l_phase l) eqn:Hph; try done.
    destruct failure as [reason|]; [done|].
    by eapply (unfailed_phase ls q v); [exact Hun|exact Hl|].
  - unfold finallyReaction. simpl. destruct (ls !! k) as [l|] eqn:Hl; [|done].
    destruct (l_phase l) as [| |o|] eqn:Hph; try done.
    assert (∀ reason, Settled o ≠ Settling (Rejected reason) ∧
                      Settled o ≠ Settled (Rejected reason)) as Hphase.
    { intros reason. split; [done|]. intros [= ->].
      destruct (Hun k l reason Hl) as [Hne _]. by apply Hne. }
    case_decide; by eapply (unfailed_phase ls q v); [exact Hun|exact Hl|].
Qed.

Lemma unfailed_run es m : unfailed m → noFailure es = true → unfailed (run es m).
Proof.
  revert m. induction es as [|e es IH]; intros m Hun Hes; [done|].
  simpl in Hes. apply andb_true_iff in Hes as [He Hes].
  apply IH; [|done]. apply unfailed_step; [done|]. simpl. by rewrite He.
Qed.

Lemma noFailure_app es1 es2 :
  noFailure (es1 ++ es2) = noFailure es1 && noFailure es2.
Proof. apply forallb_app. Qed.

Lemma noFailure_drain n : noFailure (drain n) = true.
Proof.
  induction n as [|n IH]; [done|]. by rewrite drain_S, noFailure_app, IH.
Qed.

Lemma last_filter_split {A} (P : A → Prop) `{!∀ x, Decision (P x)} (l : list A) x :
  last (filter P l) = Some x →
  ∃ l1 l2, l = l1 ++ x :: l2 ∧ P x ∧ Forall (λ y, ¬ P y) l2.
Proof.
  induction l as [|y l IH] using rev_ind; [done|].
  rewrite filter_app, filter_cons, filter_nil. destruct (decide (P y)) as [Hy|Hy].
  - rewrite last_snoc. intros [= ->]. exists l, []. by split.
  - rewrite app_nil_r. intros Hlast. destruct (IH Hlast) as (l1 & l2 & -> & Hx & Hl2).
    exists l1, (l2 ++ [y]). split; [by rewrite <- app_assoc|]. split; [done|].
    apply Forall_app. split; [done|]. by apply Forall_singleton.
Qed.

(** ** The calls that the callback makes *)

Lemma handleTaskUpdates_app index files r1 r2 :
  VibeKanbanPlugin.handleTaskUpdates index files (r1 ++ r2)
  = VibeKanbanPlugin.handleTaskUpdates index files r1
    ++ VibeKanbanPlugin.handleTaskUpdates index files r2.
Proof. unfold VibeKanbanPlugin.handleTaskUpdates. by rewrite fmap_app, concat_app. Qed.

Lemma handleTaskUpdates_calls index files reports :
  noFailure (VibeKanbanPlugin.handleTaskUpdates index files reports) = true ∧
  length (callsOf (VibeKanbanPlugin.handleTaskUpdates index files reports))
  = length (VibeKanbanPlugin.handleTaskUpdates index files reports).
Proof.
  induction reports as [|[task now] reports [IH1 IH2]]; [done|].
  change ((task, now) :: reports) with ([(task, now)] ++ reports).
  rewrite handleTaskUpdates_app, noFailure_app, callsOf_app, !length_app, IH1, IH2.
  unfold VibeKanbanPlugin.handleTaskUpdates, VibeKanbanPlugin.handleTaskUpdate. simpl.
  destruct (index !! VKStatusPoller.id task) as [filePath|]; [|done].
  by destruct (negb (bool_decide (filePath = "")) && bool_decide (filePath ∈ files)).
Qed.

Lemma handleTaskUpdates_others index files reports path :
  Forall (λ report, index !! VKStatusPoller.id report.1 ≠ Some path) reports →
  noCallFor path (VibeKanbanPlugin.handleTaskUpdates index files reports) = true.
Proof.
  induction 1 as [|[task now] reports Hhead _ IH]; [done|].
  change ((task, now) :: reports) with ([(task, now)] ++ reports).
  rewrite handleTaskUpdates_app. unfold noCallFor in *. rewrite forallb_app, IH, andb_true_r.
  unfold VibeKanbanPlugin.handleTaskUpdates, VibeKanbanPlugin.handleTaskUpdate. simpl in *.
  destruct (index !! VKStatusPoller.id task) as [filePath|]; [|done].
  destruct (negb (bool_decide (filePath = "")) && bool_decide (filePath ∈ files)); [|done].
  simpl. rewrite bool_decide_eq_false_2; [done|]. intros ->. by apply Hhead.
Qed.

(** ** The properties *)

(** X12.  Whatever the calls, reactions and settlements so far: the map
    of queues has an entry for a note exactly when a call of [update] for
    that note has yet to settle, so the entries of the notes that are
    idle have all been deleted. *)
Theorem queue_holds_exactly_the_busy_notes notes es path :
  is_Some (updateQueues (run es (create notes)) !! path) ↔
  ∃ (j : nat) lj, promises (run es (create notes)) !! j = Some lj ∧
                  l_path lj = path ∧ isSettled lj = false.
Proof.
  pose proof (ordered_run notes es) as Hord. split.
  - intros [k Hk]. destruct (queue_tail _ Hord path k Hk) as (l & Hl & Hpath & Hset & _).
    by exists k, l.
  - intros (j & lj & Hj & Hpath & Hset).
    destruct (updateQueues (run es (create notes)) !! path) as [k|] eqn:Hq; [done|].
    pose proof (queue_idle _ Hord path Hq j lj Hj Hpath) as Hsettled. congruence.
Qed.

(** X13.  [markSynced], once its write is saved and the cache shows it:
    the note counts as synced exactly if the task identifier is not
    empty; the status read back is the one given, [todo] if none was
    given; project and time are the ones given; the title and every field
    that is not one of the five are as they were. *)
Theorem markSynced_is_read_back notes es es' file taskId projectId projectName status now :
  let m0 := run es (create notes) in
  let m := run es' (markSynced file taskId projectId projectName status now m0) in
  (∃ l, promises m !! length (promises m0) = Some l ∧ isWriting l = true) →
  let m' := step m (WriteSettles (length (promises m0)) None) in
  let cache := Some (frontmatterOf m' file) in
  isSynced cache = truthy taskId ∧
  getStatus cache
  = (if truthy (default "todo" status) then Some (default "todo" status) else None) ∧
  read cache !! "vk_project_id" = Some projectId ∧
  read cache !! "vk_project_name" = Some projectName ∧
  read cache !! "vk_last_synced" = Some now ∧
  (∀ basename, getTitle cache basename = getTitle (Some (frontmatterOf m file)) basename) ∧
  (∀ key, key ∉ ["vk_task_id"; "vk_project_name"; "vk_project_id"; "vk_status";
                 "vk_last_synced"] →
     frontmatterOf m' file !! key = frontmatterOf m file !! key).
Proof.
  intros m0 m Hwriting m' cache.
  pose proof (saved_call notes es es' file _ Hwriting) as Hsaved.
  assert (∀ key, key ∈ vkFields → read cache !! key = frontmatterOf m' file !! key)
    as Hread by (intros key Hkey; by rewrite read_lookup).
  unfold isSynced, getStatus, getTitle.
  rewrite !Hread by (apply (bool_decide_unpack _); by vm_compute).
  rewrite (read_lookup (Some (frontmatterOf m file)) "title")
    by (apply (bool_decide_unpack _); by vm_compute).
  cbn [default].
  subst m' m m0. unfold markSynced. rewrite Hsaved.
  set (fm := frontmatterOf (run es' _) file).
  unfold mergeUpdates, assign; simpl.
  repeat split.
  - by rewrite !lookup_insert_ne, lookup_insert_eq by done.
  - by rewrite !lookup_insert_ne, lookup_insert_eq by done.
  - by rewrite !lookup_insert_ne, lookup_insert_eq by done.
  - by rewrite !lookup_insert_ne, lookup_insert_eq by done.
  - by rewrite lookup_insert_eq.
  - intros basename. by rewrite !lookup_insert_ne by done.
  - intros key Hkey. rewrite !not_elem_of_cons in Hkey.
    destruct Hkey as (? & ? & ? & ? & ? & _). by rewrite !lookup_insert_ne by done.
Qed.

(** X14.  [updateExecutionStatus], once its write is saved: status and
    time are the ones given; the attempt and the branch are the ones given
    if they are given and not empty, and stay as they were otherwise, a
    status update without them erasing neither; every other field is as
    it was. *)
Theorem execution_status_keeps_attempt_and_branch notes es es' file status attemptId branch now :
  let m0 := run es (create notes) in
  let m := run es' (updateExecutionStatus file status attemptId branch now m0) in
  (∃ l, promises m !! length (promises m0) = Some l ∧ isWriting l = true) →
  let m' := step m (WriteSettles (length (promises m0)) None) in
  let given (value old : option string) :=
    match value with
    | Some v => if truthy v then Some v else old
    | None => old
    end in
  frontmatterOf m' file !! "vk_status" = Some status ∧
  frontmatterOf m' file !! "vk_last_synced" = Some now ∧
  frontmatterOf m' file !! "vk_attempt_id"
  = given attemptId (frontmatterOf m file !! "vk_attempt_id") ∧
  frontmatterOf m' file !! "vk_branch" = given branch (frontmatterOf m file !! "vk_branch") ∧
  (∀ key, key ∉ ["vk_status"; "vk_last_synced"; "vk_attempt_id"; "vk_branch"] →
     frontmatterOf m' file !! key = frontmatterOf m file !! key).
Proof.
  intros m0 m Hwriting m' given.
  pose proof (saved_call notes es es' file _ Hwriting) as Hsaved.
  subst m' m m0. unfold updateExecutionStatus. rewrite Hsaved.
  set (fm := frontmatterOf (run es' _) file).
  unfold mergeUpdates, given. rewrite !foldl_app. unfold optionalField.
  destruct attemptId as [a|]; [destruct (truthy a)|];
    (destruct branch as [b|]; [destruct (truthy b)|]); unfold assign; simpl;
    (repeat split;
     [by rewrite ?lookup_insert_ne, lookup_insert_eq by done
     |by rewrite ?lookup_insert_ne, lookup_insert_eq by done
     |by rewrite ?lookup_insert_ne, ?lookup_insert_eq by done
     |by rewrite ?lookup_insert_ne, ?lookup_insert_eq by done
     |intros key Hkey; rewrite !not_elem_of_cons in Hkey;
      destruct Hkey as (? & ? & ? & ? & _); by rewrite ?lookup_insert_ne by done]).
Qed.

(** X15.  The queue cannot get stuck.  Whatever the calls, reactions and
    settlements so far, failed writes among them: when each call in turn
    is given the reaction of its [then], the settlement of its write and
    the reaction of its [finally], every call has settled, so no caller
    is left waiting, and the map of queues is empty. *)
Theorem queue_can_always_be_drained notes es :
  let m := run es (create notes) in
  let m' := run (drain (length (promises m))) m in
  (∀ (k : nat) l, promises m' !! k = Some l → isSettled l = true) ∧
  (∀ k : nat, k < length (promises m) → is_Some (awaited m' k)) ∧
  updateQueues m' = ∅.
Proof.
  intros m m'.
  assert (consistent notes m) as Hcons by apply consistent_run, consistent_create.
  destruct (drain_settles notes m (length (promises m)) Hcons) as (Hcons' & Hlen & Hall);
    [done|].
  fold m' in Hcons', Hlen, Hall.
  assert (∀ (k : nat) l, promises m' !! k = Some l → isSettled l = true) as Hsettled.
  { intros k l Hl. apply (Hall k l); [|done]. rewrite <- Hlen. by eapply lookup_lt_Some. }
  split; [done|]. split.
  - intros k Hk. unfold awaited.
    destruct (lookup_lt_is_Some_2 (promises m') k) as [l Hl]; [lia|].
    rewrite Hl. pose proof (Hsettled k l Hl) as Hset. unfold isSettled in Hset.
    by destruct (l_phase l).
  - apply map_empty. intros path.
    destruct (updateQueues m' !! path) as [k|] eqn:Hq; [|done].
    destruct (queue_tail _ (is_ordered _ _ Hcons') path k Hq) as (l & Hl & _ & Hset & _).
    pose proof (Hsettled k l Hl). congruence.
Qed.

(** X16.  What [buildStoryContent] writes, [getDescription] reads back:
    if title, project name and project identifier hold no line feed, the
    description of the content built is the description given, trimmed
    (the empty string if none was given), whatever else those hold,
    a carriage return or hyphens included. *)
Theorem description_of_a_new_story_is_read_back title description projectName projectId :
  LF ∉ title → LF ∉ projectName → LF ∉ projectId →
  getDescription
    (VibeKanbanPlugin.buildStoryContent title description projectName projectId)
  = trim (default [] description).
Proof.
  intros Htitle Hname Hid.
  set (body := default [] description).
  set (pre := ((units "title: " ++ title)
               ++ LF :: units "vk_status: notsynced")
               ++ LF :: (units "vk_project_name: " ++ projectName)).
  assert (VibeKanbanPlugin.buildStoryContent title description projectName projectId
          = units "---" ++ [LF]
            ++ ((pre ++ LF :: (units "vk_project_id: " ++ projectId))
                ++ [LF; hyphen; hyphen; hyphen] ++ ([LF; LF] ++ body ++ [LF]))) as ->.
  { unfold VibeKanbanPlugin.buildStoryContent, pre. fold body.
    rewrite <- !app_assoc. simpl. by rewrite <- ?app_assoc. }
  assert (fenceFree (pre ++ LF :: (units "vk_project_id: " ++ projectId)) = true) as Hfree.
  { apply (fenceFree_app_line pre 118%N); [|done|].
    - apply (fenceFree_app_line _ 118%N); [|done|].
      + apply (fenceFree_app_line _ 118%N); [|done|].
        * apply fenceFree_line, units_line; [|done].
          apply (bool_decide_unpack _). by vm_compute.
        * apply (bool_decide_unpack _). by vm_compute.
      + apply (units_line "vk_project_name: "); [|done].
        apply (bool_decide_unpack _). by vm_compute.
    - apply (units_line "vk_project_id: "); [|done].
      apply (bool_decide_unpack _). by vm_compute. }
  unfold getDescription, stripFrontmatter.
  rewrite openFence_LF, (findClose_skips _ _ Hfree).
  unfold afterFence. cbn [app]. rewrite decide_False by done.
  cbn [skipLF]. rewrite !decide_True by done.
  unfold trim. rewrite trimStart_skipLF. apply (trim_snoc body LF). reflexivity.
Qed.

(** X17.  The description that [getDescription] returns neither begins
    nor ends with white space or a line terminator, whatever the content
    of the note. *)
Theorem description_has_no_outer_white_space content :
  match head (getDescription content) with
  | Some c => isWhiteSpace c = false
  | None => True
  end ∧
  match last (getDescription content) with
  | Some c => isWhiteSpace c = false
  | None => True
  end.
Proof.
  unfold getDescription, trim, trimEnd.
  set (y := trimStart (stripFrontmatter content)).
  rewrite head_reverse, last_reverse. split.
  - destruct (last (trimStart (reverse y))) as [c|] eqn:Hlast; [|done].
    apply trimStart_last in Hlast. rewrite last_reverse in Hlast.
    pose proof (trimStart_head (stripFrontmatter content)) as Hhead. fold y in Hhead.
    destruct y as [|d y']; [done|]. simpl in Hlast. congruence.
  - pose proof (trimStart_head (reverse y)) as Hhead.
    by destruct (trimStart (reverse y)).
Qed.

(** X18.  The status that the poller reported last for a note is the one
    the note ends with.  The callback is called for a sequence of tasks,
    and each call that finds the note of its task calls [update]; the
    reactions and the settlements of the writes come between those calls
    in any order, and the host rejects no write.  When every write has
    been saved, the note holds the status and the time of the last call
    of the callback that was for it. *)
Theorem latest_reported_status_is_saved notes index files reports es path task now :
  callsOf es = callsOf (VibeKanbanPlugin.handleTaskUpdates index files reports) →
  noFailure es = true →
  let m := run (es ++ drain (length (callsOf es))) (create notes) in
  last (filter (λ report, index !! VKStatusPoller.id report.1 = Some path) reports)
  = Some (task, now) →
  path ≠ "" → path ∈ files →
  frontmatterOf m path !! "vk_status" = Some (VKStatusPoller.status task) ∧
  frontmatterOf m path !! "vk_last_synced" = Some now.
Proof.
  intros Hes Hsafe m Hlast Hpath Hfile.
  apply last_filter_split in Hlast as (r1 & r2 & Hreports & Hindex & Hothers).
  simpl in Hindex.
  set (updates := [("vk_status", Some (VKStatusPoller.status task));
                   ("vk_last_synced", Some now)] : fields).
  set (c1 := VibeKanbanPlugin.handleTaskUpdates index files r1).
  set (c2 := VibeKanbanPlugin.handleTaskUpdates index files r2).
  assert (callsOf es = callsOf c1 ++ [(path, updates)] ++ callsOf c2) as Hcalls.
  { rewrite Hes, Hreports.
    change ((task, now) :: r2) with ([(task, now)] ++ r2).
    rewrite !handleTaskUpdates_app, !callsOf_app. f_equal. f_equal.
    unfold VibeKanbanPlugin.handleTaskUpdates, VibeKanbanPlugin.handleTaskUpdate. simpl.
    rewrite Hindex, bool_decide_eq_false_2, bool_decide_eq_true_2 by done. done. }
  assert (callOf <$> promises (run es (create notes)) = callsOf es) as Hmade
    by apply (callOf_run es (create notes)).
  assert (length (promises (run es (create notes))) = length (callsOf es)) as Hn.
  { rewrite <- Hmade. by rewrite length_fmap. }
  assert (consistent notes (run es (create notes))) as Hcons1
    by apply consistent_run, consistent_create.
  destruct (drain_settles notes (run es (create notes)) (length (callsOf es)) Hcons1)
    as (Hcons & Hlen' & Hsettled); [lia|].
  rewrite <- run_app in Hcons, Hlen', Hsettled. fold m in Hcons, Hlen', Hsettled.
  assert (unfailed m) as Hunfailed.
  { apply unfailed_run; [by intros k l reason Hl|].
    by rewrite noFailure_app, Hsafe, noFailure_drain. }
  assert (callOf <$> promises m = callsOf c1 ++ [(path, updates)] ++ callsOf c2) as Hall.
  { unfold m. rewrite run_app, (callOf_run (drain (length (callsOf es)))), Hmade.
    assert (callsOf (drain (length (callsOf es))) = []) as ->.
    { generalize (length (callsOf es)). intros n.
      induction n as [|n IH]; [done|]. by rewrite drain_S, callsOf_app, IH. }
    by rewrite app_nil_r. }
  assert (∃ l, promises m !! length (callsOf c1) = Some l ∧ callOf l = (path, updates))
    as (l & Hl & Hcall).
  { destruct (list_lookup_fmap_Some_1 callOf (promises m) (length (callsOf c1))
                (path, updates)) as (l & Hcall & Hl).
    - rewrite Hall. by rewrite lookup_app_r, Nat.sub_diag by done.
    - by exists l. }
  unfold callOf in Hcall. injection Hcall as Hlpath Hlupdates.
  assert (hasWritten l = true) as Hwritten.
  { assert (isSettled l = true) as Hset.
    { apply (Hsettled (length (callsOf c1)) l); [|done].
      rewrite <- Hn, <- Hlen'. by eapply lookup_lt_Some. }
    unfold isSettled in Hset. unfold hasWritten.
    destruct (l_phase l) as [| | |[|reason]] eqn:Hph; try done.
    by destruct (Hunfailed _ l reason Hl) as [_ ?]. }
  assert (∀ (j : nat) lj, length (callsOf c1) < j → promises m !! j = Some lj →
            l_path lj ≠ path) as Hlater.
  { intros j lj Hj Hlj.
    assert ((callOf <$> promises m) !! j = Some (callOf lj)) as Hentry
      by (by rewrite list_lookup_fmap, Hlj).
    rewrite Hall in Hentry. rewrite lookup_app_r in Hentry by lia.
    destruct (j - length (callsOf c1)) as [|n] eqn:Hdiff; [lia|]. simpl in Hentry.
    apply list_elem_of_lookup_2 in Hentry.
    apply (callsOf_noCallFor path c2 (callOf lj)); [|done].
    by apply handleTaskUpdates_others. }
  split.
  - apply (last_call_wins notes m path _ l "vk_status" _ Hcons Hl Hlpath Hwritten Hlater);
      rewrite Hlupdates; [|by left].
    apply (bool_decide_unpack _). by vm_compute.
  - apply (last_call_wins notes m path _ l "vk_last_synced" _ Hcons Hl Hlpath Hwritten Hlater);
      rewrite Hlupdates; [|right; by left].
    apply (bool_decide_unpack _). by vm_compute.
Qed.

(** ** The properties at concrete inputs *)

(** A note is pushed while nothing else is written to it. *)
Lemma markSynced_is_read_back_witness :
  isSynced
    (Some (frontmatterOf
             (step (run [ThenRuns 0]
                        (markSynced "story.md" "T1" "P" "Project" None "2026-01-01T00:00:00.000Z"
                                    (run [] (create pushedNote))))
                   (WriteSettles 0 None)) "story.md"))
  = true.
Proof.
  refine (proj1 (markSynced_is_read_back pushedNote [] [ThenRuns 0] "story.md" "T1" "P"
                   "Project" None "2026-01-01T00:00:00.000Z" _)).
  eexists. split; reflexivity.
Defined.

(** A status update without attempt and branch on a note that has an
    attempt. *)
Lemma execution_status_keeps_attempt_and_branch_witness :
  frontmatterOf
    (step (run [ThenRuns 0]
               (updateExecutionStatus "story.md" "inreview" None (Some "")
                  "2026-01-01T00:00:00.000Z" (run [] (create pushedNote))))
          (WriteSettles 0 None)) "story.md" !! "vk_attempt_id"
  = Some "A1".
Proof.
  etrans.
  - refine (proj1 (proj2 (proj2
      (execution_status_keeps_attempt_and_branch pushedNote [] [ThenRuns 0] "story.md"
         "inreview" None (Some "") "2026-01-01T00:00:00.000Z" _)))).
    eexists. split; reflexivity.
  - reflexivity.
Defined.

(** A title that ends with a carriage return and a description with
    blank lines around it. *)
Lemma description_of_a_new_story_is_read_back_witness :
  getDescription
    (VibeKanbanPlugin.buildStoryContent (units "Story" ++ [CR])
       (Some ([LF] ++ units "As a user" ++ [LF; LF])) (units "--") (units "P"))
  = units "As a user".
Proof.
  rewrite (description_of_a_new_story_is_read_back (units "Story" ++ [CR])
             (Some ([LF] ++ units "As a user" ++ [LF; LF])) (units "--") (units "P")).
  - reflexivity.
  - apply (bool_decide_unpack _). by vm_compute.
  - apply (bool_decide_unpack _). by vm_compute.
  - apply (bool_decide_unpack _). by vm_compute.
Defined.

(** The task of a note is reported running and then gone; the first
    write is under way when the second report comes. *)
Lemma latest_reported_status_is_saved_witness :
  frontmatterOf
    (run ((reportedTwice ++ drain (length (callsOf reportedTwice)))) (create pushedNote))
    "story.md" !! "vk_status"
  = Some "deleted".
Proof.
  refine (proj1 (latest_reported_status_is_saved pushedNote {[ "T1" := "story.md" ]}
                   {[ "story.md" ]}
                   [(VKStatusPoller.reportedRunning, "2026-01-01T00:00:00.000Z");
                    (VKStatusPoller.deletedTask "T1" "P", "2026-01-01T00:00:05.000Z")]
                   reportedTwice
                   "story.md" (VKStatusPoller.deletedTask "T1" "P")
                   "2026-01-01T00:00:05.000Z" _ _ _ _ _)).
  - by vm_compute.
  - reflexivity.
  - by vm_compute.
  - done.
  - apply (bool_decide_unpack _). by vm_compute.
Defined.

(** After a write that the host rejected, the two calls settle and the
    entry of the note goes. *)
Lemma queue_can_always_be_drained_witness :
  is_Some (awaited (run (drain 2) (run firstJustFailed (create storyNote))) 1) ∧
  updateQueues (run (drain 2) (run firstJustFailed (create storyNote))) = ∅.
Proof.
  destruct (queue_can_always_be_drained storyNote firstJustFailed) as (_ & Hawaited & Hqueue).
  split; [apply (Hawaited 1); vm_compute; lia|exact Hqueue].
Defined.

End Readers.
